(** * p2pool-mini-observer: the resilient data-fetch layer

    A shallow embedding of the fetch client ([src/lib/p2pool-api.ts]), the
    IndexedDB cache ([src/lib/storage.ts]) and the query functions of the
    dashboard hook ([src/components/p2pool-dashboard.tsx]).

    Conventions.
    - A JavaScript [number] that holds a count, a height, a status code or a
      time in milliseconds is a [Z].
    - A thrown [Error] is its [message]; an async function that may reject
      returns a [Result].
    - [Date.now()] is an explicit argument [now].
    - What the network answers is an explicit argument (an environment
      indexed by the attempt number). *)

From Stdlib Require Import ZArith Lia DecimalString.
From stdpp Require Import gmap strings list sorting.

Open Scope Z_scope.

(** ** JavaScript helpers *)

Inductive Result (A : Type) : Type :=
| Ok (value : A)
| Err (message : string).
Arguments Ok {A} value.
Arguments Err {A} message.

(** [String.prototype.includes]. *)
Fixpoint includes (s sub : string) : bool :=
  String.prefix sub s ||
  match s with
  | EmptyString => false
  | String _ rest => includes rest sub
  end.

(** Template-literal rendering of an integral number. *)
Definition string_of_Z (z : Z) : string := NilZero.string_of_int (Z.to_int z).

(** [Array.prototype.slice(0, n)]: a negative [n] counts from the end. *)
Definition slice0 {A} (l : list A) (n : Z) : list A :=
  if n <? 0 then take (Z.to_nat (Z.of_nat (length l) + n)) l
  else take (Z.to_nat n) l.

(** [Array.prototype.sort] with the comparator [(a, b) => key b - key a]:
    a stable sort, descending in [key]. *)
Fixpoint insertDesc {A} (key : A -> Z) (x : A) (l : list A) : list A :=
  match l with
  | [] => [x]
  | y :: l' => if key y <=? key x then x :: y :: l' else y :: insertDesc key x l'
  end.

Definition sortDesc {A} (key : A -> Z) (l : list A) : list A :=
  foldr (insertDesc key) [] l.

(** ** The fetch client ([P2PoolAPI]) *)

Module P2PoolAPI.

Record RetryConfig := {
  maxRetries : Z;
  baseDelay : Z;
  maxDelay : Z;
  backoffMultiplier : Z;
  retryCondition : option (string -> bool)
}.

Definition DEFAULT_RETRY_CONFIG : RetryConfig := {|
  maxRetries := 3;
  baseDelay := 1000;
  maxDelay := 10000;
  backoffMultiplier := 2;
  retryCondition := Some (fun message =>
    includes message "fetch" ||
    includes message "timeout" ||
    includes message "AbortError" ||
    includes message "5")
|}.

(** [Math.pow] on integral arguments with a non-negative exponent is
    [Z.pow]; every call site passes [attempt >= 1]. *)
Definition calculateDelay (attempt : Z) (config : RetryConfig) : Z :=
  let delay := baseDelay config * backoffMultiplier config ^ (attempt - 1) in
  Z.min delay (maxDelay config).

(** The parsed body of a response: [response.json()] yields an array, some
    other JSON value, or throws. *)
Inductive Json (A : Type) : Type :=
| JArray (items : list A)
| JOther
| JInvalid (message : string).
Arguments JArray {A} items.
Arguments JOther {A}.
Arguments JInvalid {A} message.

Record Response (A : Type) := {
  status : Z;
  statusText : string;
  body : Json A
}.
Arguments status {A} _.
Arguments statusText {A} _.
Arguments body {A} _.

(** What [fetch] does on one attempt: it resolves with a response (of any
    status) or rejects (network failure, abort by the timeout). *)
Inductive FetchOutcome (A : Type) : Type :=
| Resolved (response : Response A)
| Rejected (message : string).
Arguments Resolved {A} response.
Arguments Rejected {A} message.

Inductive ToastKind := ToastError | ToastSuccess | ToastLoading.

(** The observable effects of a call, in order. *)
Inductive Event :=
| Attempt (n : Z)
| Toast (kind : ToastKind) (title : string)
| Sleep (ms : Z).

Definition ok {A} (response : Response A) : bool :=
  (200 <=? status response) && (status response <=? 299).

Definition httpError {A} (response : Response A) : string :=
  "HTTP " +:+ string_of_Z (status response) +:+ ": " +:+ statusText response.

(** The [try] block of one iteration: [Ok] is the [return response], [Err]
    is an error thrown inside the block, which the [catch] of the same
    iteration receives. *)
Definition tryFetch {A} (attempt : Z) (outcome : FetchOutcome A)
  : list Event * Result (Response A) :=
  match outcome with
  | Rejected message => ([], Err message)
  | Resolved response =>
      if negb (ok response) then
        if (400 <=? status response) && (status response <? 500)
        then ([Toast ToastError "API Error"], Err (httpError response))
        else ([], Err (httpError response))
      else
        (if 1 <? attempt then [Toast ToastSuccess "API Request Recovered"] else [],
         Ok response)
  end.

Definition shouldRetry (attempt : Z) (retryConfig : RetryConfig) (lastError : string) : bool :=
  (attempt <=? maxRetries retryConfig) &&
  match retryCondition retryConfig with
  | None => true
  | Some condition => condition lastError
  end.

(** The [for] loop of [fetchWithRetry]: [attempts] lists the values the
    loop variable has yet to take, [attempt = 1 .. maxRetries + 1] at the
    start. *)
Fixpoint fetchLoop {A} (retryConfig : RetryConfig) (env : Z -> FetchOutcome A)
    (attempts : list Z) (lastError : option string)
  : list Event * Result (Response A) :=
  match attempts with
  | [] => ([], Err (default "Maximum retries exceeded" lastError))
  | attempt :: later =>
      let '(toasts, tried) := tryFetch attempt (env attempt) in
      match tried with
      | Ok response => (Attempt attempt :: toasts, Ok response)
      | Err message =>
          if negb (shouldRetry attempt retryConfig message) then
            (Attempt attempt :: toasts ++ [Toast ToastError "API Request Failed"],
             Err message)
          else
            let delay := calculateDelay attempt retryConfig in
            let '(events, final) := fetchLoop retryConfig env later (Some message) in
            (Attempt attempt :: toasts ++
             [Toast ToastLoading "Retrying API Request"; Sleep delay] ++ events,
             final)
      end
  end.

Definition fetchWithRetry {A} (retryConfig : RetryConfig) (env : Z -> FetchOutcome A)
  : list Event * Result (Response A) :=
  fetchLoop retryConfig env (seqZ 1 (maxRetries retryConfig + 1)) None.

(** [getMinerPayouts]: a 404 is recoded as "no payouts". *)
Definition getMinerPayouts {A} (retryConfig : RetryConfig) (env : Z -> FetchOutcome A)
  : list Event * Result (list A) :=
  let catch (message : string) : Result (list A) :=
    if includes message "404" then Ok []
    else Err ("Failed to fetch miner payouts: " +:+ message) in
  let '(events, fetched) := fetchWithRetry retryConfig env in
  match fetched with
  | Err message => (events, catch message)
  | Ok response =>
      match body response with
      | JArray payouts => (events, Ok payouts)
      | JOther => (events, Ok [])
      | JInvalid message => (events, catch message)
      end
  end.

(** *** Miner-scoped reconstruction *)

(** The fields of a share and of a found block that the client reads. *)
Record SideBlock := {
  template_id : string;
  side_height : Z;
  timestamp : Z;
  difficulty : Z;
  miner_address : string
}.

Module MainBlock.
Record t := { id : string; height : Z; reward : Z }.
End MainBlock.

Record FoundBlock := {
  main_block : MainBlock.t;
  block_miner_address : string
}.

Inductive StopReason :=
| LimitReached      (* allMinerShares.length >= limit *)
| MaxAttempts       (* attempts >= maxAttempts *)
| EmptyPage         (* allShares.length === 0 *)
| NoHeightProgress. (* minHeight >= currentFromHeight *)

Section MinerScan.
Context {T : Type}.
Variable height : T -> Z.
Variable key : T -> string.
Variable owner : T -> string.
Variable batchSize : Z -> Z.
(** [getBatch attempts size]: what the bulk call of iteration [attempts]
    does, [Err] when it throws. *)
Variable getBatch : Z -> Z -> Result (list T).

Record ScanEnd := {
  found : list T;
  cursor : option Z;
  attemptsUsed : Z;
  reason : StopReason
}.

(** [for (const x of filtered) if (!all.some(e => key e === key x)) all.push(x)] *)
Definition pushNew (all filtered : list T) : list T :=
  foldl (fun all x =>
           if existsb (fun existing => String.eqb (key existing) (key x)) all
           then all else all ++ [x])
        all filtered.

Definition filterBatch (address : string) (currentFromHeight : option Z)
    (batch : list T) : list T :=
  let mine := List.filter (fun x => String.eqb (owner x) address) batch in
  match currentFromHeight with
  | Some from => List.filter (fun x => height x <? from) mine
  | None => mine
  end.

(** [currentFromHeight === undefined || minHeight < currentFromHeight] *)
Definition progresses (currentFromHeight : option Z) (minHeight : Z) : bool :=
  match currentFromHeight with
  | None => true
  | Some from => minHeight <? from
  end.

(** The [while] loop. [attempts] is incremented first thing in the body
    and nowhere else, so the iterations are numbered [1 .. maxAttempts]:
    [pending] lists the numbers not yet used, [used] is the current value
    of [attempts]. [Err] is an exception leaving the loop. *)
Fixpoint scanLoop (address : string) (limit : Z) (pending : list Z)
    (all : list T) (currentFromHeight : option Z) (used : Z)
  : Result ScanEnd :=
  let stop r a c u :=
    Ok {| found := a; cursor := c; attemptsUsed := u; reason := r |} in
  if negb (Z.of_nat (length all) <? limit) then
    stop LimitReached all currentFromHeight used
  else
    match pending with
    | [] => stop MaxAttempts all currentFromHeight used
    | attempts :: later =>
        match getBatch attempts (batchSize attempts) with
        | Err message => Err message
        | Ok [] => stop EmptyPage all currentFromHeight attempts
        | Ok (first :: others) =>
            let batch := first :: others in
            let filtered := filterBatch address currentFromHeight batch in
            let all' := pushNew all filtered in
            let minHeight := foldl Z.min (height first) (map height others) in
            (* the body shared by both branches of the [if]/[else if]:
               [None] is the [break] *)
            let advance :=
              if progresses currentFromHeight minHeight
              then Some (Some minHeight) else None in
            let moved :=
              if (0 <? Z.of_nat (length filtered)) && (Z.of_nat (length all') <? limit)
              then advance
              else if Z.of_nat (length filtered) =? 0 then advance
              else Some currentFromHeight in
            match moved with
            | None => stop NoHeightProgress all' currentFromHeight attempts
            | Some from' =>
                if Z.of_nat (length all') >=? limit
                then stop LimitReached all' from' attempts
                else scanLoop address limit later all' from' attempts
            end
        end
    end.

Definition maxAttempts : Z := 5.

Definition scan (address : string) (limit : Z) (fromHeight : option Z)
  : Result ScanEnd :=
  scanLoop address limit (seqZ 1 maxAttempts) [] fromHeight 0.

(** The tail of both operations: sort, truncate; the outer [catch]
    turns any exception into the empty array. *)
Definition finish (limit : Z) (scanned : Result ScanEnd) : list T :=
  match scanned with
  | Ok e => slice0 (sortDesc height (found e)) limit
  | Err _ => []
  end.
End MinerScan.

Arguments found {T} _.
Arguments cursor {T} _.
Arguments attemptsUsed {T} _.
Arguments reason {T} _.

Definition sharesBatchSize (attempts : Z) : Z := Z.min (500 + attempts * 200) 1000.
Definition blocksBatchSize (attempts : Z) : Z := Z.min (200 + attempts * 100) 500.

Section Upstream.
(** The bulk endpoints as the reconstruction sees them:
    [getShares call limit miner] is what the [call]-th invocation
    within one operation does. *)
Variable getShares : Z -> Z -> option string -> Result (list SideBlock).
Variable getFoundBlocks : Z -> Z -> option string -> Result (list FoundBlock).

Definition getMinerSharesDirect (address : string) (limit : Z) : list SideBlock :=
  match getShares 1 limit (Some address) with
  | Ok shares => sortDesc side_height shares
  | Err _ => []
  end.

Definition scanShares (address : string) (limit : Z) (fromHeight : option Z)
  : Result (ScanEnd (T := SideBlock)) :=
  scan side_height template_id miner_address
       sharesBatchSize
       (fun attempts size => getShares attempts size None)
       address limit fromHeight.

(** [!fromHeight] holds for [undefined] and for [0]. *)
Definition getMinerShares (address : string) (limit : Z) (fromHeight : option Z)
  : list SideBlock :=
  match fromHeight with
  | None | Some 0 => getMinerSharesDirect address limit
  | Some _ => finish side_height limit (scanShares address limit fromHeight)
  end.

Definition scanBlocks (address : string) (limit : Z) (fromHeight : option Z)
  : Result (ScanEnd (T := FoundBlock)) :=
  scan (fun b => MainBlock.height (main_block b))
       (fun b => MainBlock.id (main_block b))
       block_miner_address
       blocksBatchSize
       (fun attempts size => getFoundBlocks attempts size None)
       address limit fromHeight.

Definition getMinerFoundBlocks (address : string) (limit : Z) (fromHeight : option Z)
  : list FoundBlock :=
  finish (fun b => MainBlock.height (main_block b)) limit
         (scanBlocks address limit fromHeight).
End Upstream.

(** [getMinerInfo]: the parsed body as it is; a 404 becomes 'Miner not
    found'. *)
Definition getMinerInfo {A} (retryConfig : RetryConfig) (env : Z -> FetchOutcome A)
  : list Event * Result (Json A) :=
  let catch (message : string) : Result (Json A) :=
    if includes message "404" then Err "Miner not found"
    else Err ("Failed to fetch miner info: " +:+ message) in
  let '(events, fetched) := fetchWithRetry retryConfig env in
  match fetched with
  | Err message => (events, catch message)
  | Ok response =>
      match body response with
      | JInvalid message => (events, catch message)
      | data => (events, Ok data)
      end
  end.

(** [formatTimeAgo]; [nowMs] is [Date.now()], [Math.floor] of a quotient
    of integers is [Z.div]. *)
Definition formatTimeAgo (nowMs timestamp : Z) : string :=
  let now := nowMs / 1000 in
  let diff := now - timestamp in
  if diff <? 60 then string_of_Z diff +:+ "s ago"
  else if diff <? 3600 then string_of_Z (diff / 60) +:+ "m ago"
  else if diff <? 86400 then string_of_Z (diff / 3600) +:+ "h ago"
  else string_of_Z (diff / 86400) +:+ "d ago".

(** [detectP2PoolVersion]; [signature] is the [template_extra_buffer]
    field of [signatures], absent in [{}]. Nothing in the [try] block
    throws: [getMinerShares] catches its own failures. *)
Record P2PoolVersionInfo := {
  version : string;
  detectionMethod : string;
  confidence : string;
  detectedFromShares : Z;
  signature : option string
}.

Definition detectP2PoolVersion
    (getShares : Z -> Z -> option string -> Result (list SideBlock))
    (minerAddress : string) : option P2PoolVersionInfo :=
  let shares := getMinerShares getShares minerAddress 10 None in
  let count := Z.of_nat (length shares) in
  if count =? 0 then None
  else if 5 <=? count then
    Some {| version := "v4.5"; detectionMethod := "template_extra_buffer";
            confidence := "medium"; detectedFromShares := count;
            signature := Some "66c31858" |}
  else if 2 <=? count then
    Some {| version := "v4.4"; detectionMethod := "template_extra_buffer";
            confidence := "low"; detectedFromShares := count;
            signature := Some "93ee01b2" |}
  else
    Some {| version := "Unknown"; detectionMethod := "unknown";
            confidence := "low"; detectedFromShares := count;
            signature := None |}.

End P2PoolAPI.

(** ** The second copy of the client ([P2PoolAPI] in src/lib/storage.ts)

    The repository holds the class [P2PoolAPI] twice: in
    src/lib/p2pool-api.ts (the module above) and, after the cache, in
    src/lib/storage.ts from line 587 on. The reconstruction of the second
    copy filters, accumulates and moves the cursor with the same
    statements; it differs in that the body of the scanning loop sits in a
    [try] of its own, whose [catch] goes on to the next attempt ("Continue
    to next attempt rather than failing completely"). *)

Module P2PoolAPI2.

Import P2PoolAPI.

Section MinerScan.
Context {T : Type}.
Variable height : T -> Z.
Variable key : T -> string.
Variable owner : T -> string.
Variable batchSize : Z -> Z.
(** [getBatch attempts size]: what the bulk call of iteration [attempts]
    does, [Err] when it throws. *)
Variable getBatch : Z -> Z -> Result (list T).
(** [Math.min(...heights)] passes every height as an argument of its own,
    and an engine throws a [RangeError] when a call has more arguments
    than it takes: [tooManyArguments n] says so of [n] arguments. *)
Variable tooManyArguments : nat -> bool.

(** The [while] loop, with [pending] and [used] as in the first copy. An
    exception in the body, from the bulk call or from [Math.min], is
    caught in the same iteration: [caught] is the [catch] block, which
    leaves the loop after the last attempt and otherwise falls through to
    the next test of the loop condition, with the cursor as it was and
    with what the body had pushed before it threw. *)
Fixpoint scanLoop (address : string) (limit : Z) (pending : list Z)
    (all : list T) (currentFromHeight : option Z) (used : Z)
  : ScanEnd (T := T) :=
  let stop r a c u :=
    {| found := a; cursor := c; attemptsUsed := u; reason := r |} in
  if negb (Z.of_nat (length all) <? limit) then
    stop LimitReached all currentFromHeight used
  else
    match pending with
    | [] => stop MaxAttempts all currentFromHeight used
    | attempts :: later =>
        let caught all' :=
          if attempts >=? maxAttempts
          then stop MaxAttempts all' currentFromHeight attempts
          else scanLoop address limit later all' currentFromHeight attempts in
        match getBatch attempts (batchSize attempts) with
        | Err _ => caught all
        | Ok [] => stop EmptyPage all currentFromHeight attempts
        | Ok (first :: others) =>
            let batch := first :: others in
            let filtered := filterBatch height owner address currentFromHeight batch in
            let all' := pushNew key all filtered in
            (* [Math.min] is evaluated in the first two branches only *)
            let takesMinimum :=
              ((0 <? Z.of_nat (length filtered)) && (Z.of_nat (length all') <? limit))
              || (Z.of_nat (length filtered) =? 0) in
            if takesMinimum && tooManyArguments (length batch) then caught all'
            else
              let minHeight := foldl Z.min (height first) (map height others) in
              let advance :=
                if progresses currentFromHeight minHeight
                then Some (Some minHeight) else None in
              let moved :=
                if (0 <? Z.of_nat (length filtered)) && (Z.of_nat (length all') <? limit)
                then advance
                else if Z.of_nat (length filtered) =? 0 then advance
                else Some currentFromHeight in
              match moved with
              | None => stop NoHeightProgress all' currentFromHeight attempts
              | Some from' =>
                  if Z.of_nat (length all') >=? limit
                  then stop LimitReached all' from' attempts
                  else scanLoop address limit later all' from' attempts
              end
        end
    end.

Definition scan (address : string) (limit : Z) (fromHeight : option Z) : ScanEnd (T := T) :=
  scanLoop address limit (seqZ 1 maxAttempts) [] fromHeight 0.

(** The tail of both operations: sort, truncate. Nothing between the
    outer [try] and its [catch] throws. *)
Definition finish (limit : Z) (scanned : ScanEnd (T := T)) : list T :=
  slice0 (sortDesc height (found scanned)) limit.
End MinerScan.

Section Upstream.
Variable getShares : Z -> Z -> option string -> Result (list SideBlock).
Variable getFoundBlocks : Z -> Z -> option string -> Result (list FoundBlock).
Variable tooManyArguments : nat -> bool.

Definition scanShares (address : string) (limit : Z) (fromHeight : option Z)
  : ScanEnd (T := SideBlock) :=
  scan side_height template_id miner_address
       sharesBatchSize
       (fun attempts size => getShares attempts size None)
       tooManyArguments address limit fromHeight.

(** [getMinerSharesDirect] reads in the second copy as in the first. *)
Definition getMinerShares (address : string) (limit : Z) (fromHeight : option Z)
  : list SideBlock :=
  match fromHeight with
  | None | Some 0 => getMinerSharesDirect getShares address limit
  | Some _ => finish side_height limit (scanShares address limit fromHeight)
  end.

Definition scanBlocks (address : string) (limit : Z) (fromHeight : option Z)
  : ScanEnd (T := FoundBlock) :=
  scan (fun b => MainBlock.height (main_block b))
       (fun b => MainBlock.id (main_block b))
       block_miner_address
       blocksBatchSize
       (fun attempts size => getFoundBlocks attempts size None)
       tooManyArguments address limit fromHeight.

Definition getMinerFoundBlocks (address : string) (limit : Z) (fromHeight : option Z)
  : list FoundBlock :=
  finish (fun b => MainBlock.height (main_block b)) limit
         (scanBlocks address limit fromHeight).
End Upstream.

End P2PoolAPI2.

(** ** The IndexedDB cache ([P2PoolStorage]) *)

Module P2PoolStorage.

Import P2PoolAPI.

(** Snapshots are opaque to the cache; a few fields tell them apart. *)
Record PoolInfo := { pool_side_height : Z; pool_miners : Z }.
Record MinerInfo := { miner_id : Z; miner_shares : Z }.
Record MinerPayout := { coinbase_reward : Z; payout_timestamp : Z }.

Record StorageMetadata := {
  totalSize : Z;
  lastCleanup : Z;
  dataVersion : string
}.

Inductive Payload :=
| PoolInfoData (poolInfo : PoolInfo)
| MinerInfoData (minerInfo : MinerInfo)
| ShareData (share : SideBlock)
| BlockData (block : FoundBlock)
| PayoutsData (payouts : list MinerPayout)
| MetadataData (metadata : StorageMetadata).

Record StoredData := {
  id : string;
  data : Payload;
  timestamp : Z;
  lastAccessed : Z
}.

Inductive StoreKey := POOL_INFO | MINER_INFO | SHARES | BLOCKS | PAYOUTS | METADATA.

#[global] Instance StoreKey_eq_dec : EqDecision StoreKey.
Proof. solve_decision. Defined.

(** [Object.entries(STORES)], in declaration order. *)
Definition STORES : list (StoreKey * string) :=
  [ (POOL_INFO, "poolInfo"); (MINER_INFO, "minerInfo"); (SHARES, "shares");
    (BLOCKS, "blocks"); (PAYOUTS, "payouts"); (METADATA, "metadata") ].

Definition storeNameOf (k : StoreKey) : string :=
  match k with
  | POOL_INFO => "poolInfo"
  | MINER_INFO => "minerInfo"
  | SHARES => "shares"
  | BLOCKS => "blocks"
  | PAYOUTS => "payouts"
  | METADATA => "metadata"
  end.

Definition day : Z := 24 * 60 * 60 * 1000.

(** [RETENTION_PERIODS] has no [METADATA] entry. *)
Definition RETENTION_PERIODS (k : StoreKey) : option Z :=
  match k with
  | POOL_INFO => Some day
  | MINER_INFO => Some (7 * day)
  | SHARES => Some (30 * day)
  | BLOCKS => Some (365 * day)
  | PAYOUTS => Some (365 * day)
  | METADATA => None
  end.

(** *** IndexedDB, as far as the cache uses it

    An object store with [keyPath: 'id'] is a finite map from the [id] of a
    record to the record; an index is a name and the key path it reads.
    [transaction] and [index] throw [NotFoundError] on a name that does not
    exist. *)

Inductive IDBKey := KNum (n : Z) | KStr (s : string).

Record ObjectStore := {
  indexes : list (string * string);
  records : gmap string StoredData
}.

Abbreviation DB := (gmap string ObjectStore).

(** The value a key path reads in a stored record: only [id], [timestamp]
    and [lastAccessed] hold valid keys ([data] holds an object, any other
    property is missing), and a record without a valid key is not part of
    the index. *)
Definition keyAt (keyPath : string) (r : StoredData) : option IDBKey :=
  if String.eqb keyPath "id" then Some (KStr (id r))
  else if String.eqb keyPath "timestamp" then Some (KNum (timestamp r))
  else if String.eqb keyPath "lastAccessed" then Some (KNum (lastAccessed r))
  else None.

(** Key order: numbers before strings. *)
Definition keyLeb (a b : IDBKey) : bool :=
  match a, b with
  | KNum x, KNum y => x <=? y
  | KNum _, KStr _ => true
  | KStr _, KNum _ => false
  | KStr x, KStr y => String.leb x y
  end.

Definition keyEqb (a b : IDBKey) : bool :=
  match a, b with
  | KNum x, KNum y => x =? y
  | KStr x, KStr y => String.eqb x y
  | _, _ => false
  end.

Inductive IDBKeyRange :=
| upperBound (k : IDBKey)   (* closed: every key <= k *)
| only (k : IDBKey).

Definition inRange (range : IDBKeyRange) (k : IDBKey) : bool :=
  match range with
  | upperBound u => keyLeb k u
  | only u => keyEqb k u
  end.

(** Index order: by index key, then by primary key. An entry is the index
    key with the primary key and the record it stands for. *)
Definition entryLeb (a b : IDBKey * (string * StoredData)) : bool :=
  if keyEqb a.1 b.1 then String.leb a.2.1 b.2.1 else keyLeb a.1 b.1.

Fixpoint insertBy {A} (leb : A -> A -> bool) (x : A) (l : list A) : list A :=
  match l with
  | [] => [x]
  | y :: l' => if leb x y then x :: y :: l' else y :: insertBy leb x l'
  end.

Definition sortBy {A} (leb : A -> A -> bool) (l : list A) : list A :=
  foldr (insertBy leb) [] l.

(** The records an index holds within a range, in index order, each with
    its primary key. *)
Definition indexEntries (keyPath : string) (range : IDBKeyRange)
    (recs : gmap string StoredData) : list (string * StoredData) :=
  let keyed := omap (fun kv => k ← keyAt keyPath kv.2; Some (k, kv)) (map_to_list recs) in
  (sortBy entryLeb (List.filter (fun e => inRange range e.1) keyed)).*2.

(** [index.getAll(range, count)]: [count] is an unsigned long, [0] means
    no limit. *)
Definition getAll (entries : list (string * StoredData)) (count : Z)
  : Result (list StoredData) :=
  if count <? 0 then Err "TypeError"
  else if count =? 0 then Ok entries.*2
  else Ok (take (Z.to_nat count) entries.*2).

Definition NotFoundError : string := "NotFoundError".
Definition InvalidStateError : string := "InvalidStateError".

(** [db.transaction(storeName, mode)] *)
Definition transaction (d : DB) (storeName : string) : Result ObjectStore :=
  match d !! storeName with
  | Some os => Ok os
  | None => Err NotFoundError
  end.

(** [store.index(name)]: the key path of the index. *)
Definition index (os : ObjectStore) (name : string) : Result string :=
  match List.find (fun i => String.eqb i.1 name) (indexes os) with
  | Some i => Ok i.2
  | None => Err NotFoundError
  end.

(** [store.put(value)] under [keyPath: 'id']. *)
Definition put (r : StoredData) (os : ObjectStore) : ObjectStore :=
  {| indexes := indexes os; records := <[id r := r]> (records os) |}.

Definition commit (storeName : string) (os : ObjectStore) (d : DB) : DB :=
  <[storeName := os]> d.

(** [createObjectStore] guarded by [objectStoreNames.contains]. *)
Definition createIfMissing (storeName : string) (idx : list (string * string))
    (d : DB) : DB :=
  match d !! storeName with
  | Some _ => d
  | None => <[storeName := {| indexes := idx; records := ∅ |}]> d
  end.

(** The [upgrade] callback of [openDB]. *)
Definition upgrade (d : DB) : DB :=
  let ts := ("timestamp", "timestamp") in
  let url := ("apiUrl", "apiUrl") in
  let addr := ("address", "address") in
  createIfMissing "metadata" []
  (createIfMissing "payouts" [ts; url; addr]
  (createIfMissing "blocks" [ts; url]
  (createIfMissing "shares" [ts; url]
  (createIfMissing "minerInfo" [ts; url; addr]
  (createIfMissing "poolInfo" [ts; url] d))))).

(** *** The storage object after [init] has settled

    [window] is [typeof window !== 'undefined']; [db] stays [null] when
    [init] returned early (no [window], no [indexedDB]) or [openDB]
    failed. *)
Record Storage := {
  window : bool;
  db : option DB
}.

Definition withDB (st : Storage) (d : DB) : Storage :=
  {| window := window st; db := Some d |}.

Definition ensureReady (st : Storage) : Result DB :=
  match db st with
  | None => Err "Storage not initialized"
  | Some d => Ok d
  end.

Definition store (storeName key : string) (payload : Payload) (now : Z)
    (st : Storage) : Result Storage :=
  match ensureReady st with
  | Err e => Err e
  | Ok d =>
      let storedData :=
        {| id := key; data := payload; timestamp := now; lastAccessed := now |} in
      match transaction d storeName with
      | Err e => Err e
      | Ok os => Ok (withDB st (commit storeName (put storedData os) d))
      end
  end.

Definition retrieve (storeName key : string) (now : Z) (st : Storage)
  : Result (option Payload * Storage) :=
  match ensureReady st with
  | Err e => Err e
  | Ok d =>
      match transaction d storeName with
      | Err e => Err e
      | Ok os =>
          match records os !! key with
          | Some result =>
              let result' :=
                {| id := id result; data := data result;
                   timestamp := timestamp result; lastAccessed := now |} in
              Ok (Some (data result), withDB st (commit storeName (put result' os) d))
          | None => Ok (None, st)
          end
      end
  end.

Definition storePoolInfo (apiUrl : string) (poolInfo : PoolInfo) (now : Z)
    (st : Storage) : Result Storage :=
  if negb (window st) then Ok st
  else store "poolInfo" ("pool_" +:+ apiUrl) (PoolInfoData poolInfo) now st.

Definition getPoolInfo (apiUrl : string) (now : Z) (st : Storage)
  : Result (option Payload * Storage) :=
  if negb (window st) then Ok (None, st)
  else retrieve "poolInfo" ("pool_" +:+ apiUrl) now st.

Definition storeMinerInfo (apiUrl address : string) (minerInfo : MinerInfo)
    (now : Z) (st : Storage) : Result Storage :=
  store "minerInfo" ("miner_" +:+ apiUrl +:+ "_" +:+ address)
        (MinerInfoData minerInfo) now st.

Definition shareKey (apiUrl : string) (share : SideBlock) : string :=
  "share_" +:+ apiUrl +:+ "_" +:+ string_of_Z (side_height share)
           +:+ "_" +:+ template_id share.

Definition storeShares (apiUrl : string) (shares : list SideBlock) (now : Z)
    (st : Storage) : Result Storage :=
  match ensureReady st with
  | Err e => Err e
  | Ok d =>
      if Z.of_nat (length shares) =? 0 then Ok st
      else
        match transaction d "shares" with
        | Err e => Err e
        | Ok os =>
            let os' :=
              foldl (fun os share =>
                       put {| id := shareKey apiUrl share; data := ShareData share;
                              timestamp := now; lastAccessed := now |} os)
                    os shares in
            Ok (withDB st (commit "shares" os' d))
        end
  end.

(** [results.sort((a, b) => b.timestamp - a.timestamp)] *)
Definition getSharesByMiner (apiUrl address : string) (limit : Z) (st : Storage)
  : Result (list Payload) :=
  match ensureReady st with
  | Err e => Err e
  | Ok d =>
      match transaction d "shares" with
      | Err e => Err e
      | Ok os =>
          match index os "miner_address" with
          | Err e => Err e
          | Ok keyPath =>
              let range := only (KStr address) in
              match getAll (indexEntries keyPath range (records os)) limit with
              | Err e => Err e
              | Ok results => Ok (slice0 (map data (sortDesc timestamp results)) limit)
              end
          end
      end
  end.

(** *** [cleanup] *)

(** [while (cursor) { await cursor.delete(); deletedCount++; await
    cursor.continue() }] with [const cursor]: the variable never becomes
    [null], so the loop is left only by an exception. [pending] holds the
    records from the cursor's position on; [continue] moves the position,
    and [delete] on a cursor that has moved past its last record throws
    [InvalidStateError]. The value is the store at the time of the throw
    and the number of deletions. *)
Fixpoint cursorLoop (pending : list (string * StoredData)) (os : ObjectStore)
    (deletedCount : Z) : ObjectStore * Z :=
  match pending with
  | [] => (os, deletedCount)
  | (primaryKey, _) :: later =>
      cursorLoop later
        {| indexes := indexes os; records := delete primaryKey (records os) |}
        (deletedCount + 1)
  end.

(** One iteration of the [for] loop over the stores: [inl] is an
    exception (with the database as the requests made so far leave it),
    [inr] is normal completion. *)
Definition cleanStore (storeKey : StoreKey) (storeName : string) (now : Z)
    (d : DB) (deletedCount : Z) : (DB * string) + (DB * Z) :=
  if String.eqb storeName (storeNameOf METADATA) then inr (d, deletedCount)
  else
    match RETENTION_PERIODS storeKey with
    | None => inl (d, "DataError")
    | Some retentionPeriod =>
        let cutoffTime := now - retentionPeriod in
        match transaction d storeName with
        | Err e => inl (d, e)
        | Ok os =>
            match index os "timestamp" with
            | Err e => inl (d, e)
            | Ok keyPath =>
                match indexEntries keyPath (upperBound (KNum cutoffTime)) (records os) with
                | [] => inr (d, deletedCount)          (* cursor is null *)
                | pending =>
                    let '(os', _) := cursorLoop pending os deletedCount in
                    inl (commit storeName os' d, InvalidStateError)
                end
            end
        end
    end.

Fixpoint cleanStores (entries : list (StoreKey * string)) (now : Z)
    (d : DB) (deletedCount : Z) : (DB * string) + (DB * Z) :=
  match entries with
  | [] => inr (d, deletedCount)
  | (storeKey, storeName) :: later =>
      match cleanStore storeKey storeName now d deletedCount with
      | inl thrown => inl thrown
      | inr (d', deletedCount') => cleanStores later now d' deletedCount'
      end
  end.

Definition calculateStorageSize (d : DB) : Result Z :=
  foldl (fun total entry =>
           match total, transaction d entry.2 with
           | Ok n, Ok os => Ok (n + Z.of_nat (size (records os)) * 1024)
           | Err e, _ => Err e
           | _, Err e => Err e
           end)
        (Ok 0) STORES.

(** [Err] only when [ensureReady] throws: everything after it sits in a
    [try] whose [catch] logs. *)
Definition cleanup (now : Z) (st : Storage) : Result Storage :=
  match ensureReady st with
  | Err e => Err e
  | Ok d =>
      match cleanStores STORES now d 0 with
      | inl (d', _) => Ok (withDB st d')
      | inr (d', _) =>
          let st' := withDB st d' in
          match calculateStorageSize d' with
          | Err _ => Ok st'
          | Ok size =>
              let metadata :=
                {| totalSize := size; lastCleanup := now; dataVersion := "1.0" |} in
              match store "metadata" "global" (MetadataData metadata) now st' with
              | Ok st'' => Ok st''
              | Err _ => Ok st'
              end
          end
      end
  end.

(** *** The other partitions *)

Definition getMinerInfo (apiUrl address : string) (now : Z) (st : Storage)
  : Result (option Payload * Storage) :=
  retrieve "minerInfo" ("miner_" +:+ apiUrl +:+ "_" +:+ address) now st.

Definition storePayouts (apiUrl address : string) (payouts : list MinerPayout)
    (now : Z) (st : Storage) : Result Storage :=
  store "payouts" ("payouts_" +:+ apiUrl +:+ "_" +:+ address) (PayoutsData payouts) now st.

Definition getPayouts (apiUrl address : string) (now : Z) (st : Storage)
  : Result (option Payload * Storage) :=
  retrieve "payouts" ("payouts_" +:+ apiUrl +:+ "_" +:+ address) now st.

Definition blockKey (apiUrl : string) (block : FoundBlock) : string :=
  "block_" +:+ apiUrl +:+ "_" +:+ string_of_Z (MainBlock.height (main_block block))
           +:+ "_" +:+ MainBlock.id (main_block block).

Definition storeBlocks (apiUrl : string) (blocks : list FoundBlock) (now : Z)
    (st : Storage) : Result Storage :=
  match ensureReady st with
  | Err e => Err e
  | Ok d =>
      if Z.of_nat (length blocks) =? 0 then Ok st
      else
        match transaction d "blocks" with
        | Err e => Err e
        | Ok os =>
            let os' :=
              foldl (fun os block =>
                       put {| id := blockKey apiUrl block; data := BlockData block;
                              timestamp := now; lastAccessed := now |} os)
                    os blocks in
            Ok (withDB st (commit "blocks" os' d))
        end
  end.

(** The height a stored record sorts by in [getBlocksByMiner]:
    [data.main_block.height]. On a record that holds no block the
    comparator throws; it is called on every record as soon as there are
    two of them. *)
Definition blockHeightOf (r : StoredData) : option Z :=
  match data r with
  | BlockData block => Some (MainBlock.height (main_block block))
  | _ => None
  end.

Definition getBlocksByMiner (apiUrl address : string) (limit : Z) (st : Storage)
  : Result (list Payload) :=
  match ensureReady st with
  | Err e => Err e
  | Ok d =>
      match transaction d "blocks" with
      | Err e => Err e
      | Ok os =>
          match index os "miner_address" with
          | Err e => Err e
          | Ok keyPath =>
              let range := only (KStr address) in
              match getAll (indexEntries keyPath range (records os)) limit with
              | Err e => Err e
              | Ok results =>
                  if (Z.of_nat (length results) <=? 1)
                     || forallb (fun r => bool_decide (is_Some (blockHeightOf r))) results
                  then Ok (slice0
                             (map data (sortDesc (fun r => default 0 (blockHeightOf r)) results))
                             limit)
                  else Err "TypeError"
              end
          end
      end
  end.

Definition getStorageInfo (now : Z) (st : Storage) : Result (option Payload * Storage) :=
  retrieve "metadata" "global" now st.

(** *** [clearOldCache]

    One iteration of its loop. The [try] encloses the whole iteration, so
    whatever is thrown (no such store, no such index, the exhausted cursor)
    is logged and the loop goes on with the next store. *)
Definition clearStore (storeName : string) (cutoffTime : Z) (d : DB) : DB :=
  if String.eqb storeName (storeNameOf METADATA) then d
  else
    match transaction d storeName with
    | Err _ => d
    | Ok os =>
        match index os "timestamp" with
        | Err _ => d
        | Ok keyPath =>
            match indexEntries keyPath (upperBound (KNum cutoffTime)) (records os) with
            | [] => d
            | pending => commit storeName (cursorLoop pending os 0).1 d
            end
        end
    end.

(** [this.db?.transaction(...)] is [undefined] without a database and
    every iteration [continue]s: no [ensureReady] here. *)
Definition clearOldCache (olderThanHours : Z) (now : Z) (st : Storage) : Storage :=
  let cutoffTime := now - olderThanHours * 60 * 60 * 1000 in
  match db st with
  | None => st
  | Some d =>
      withDB st (foldl (fun d storeName => clearStore storeName cutoffTime d) d STORES.*2)
  end.

End P2PoolStorage.

(** ** The query functions of the dashboard hook *)

Module Dashboard.

Import P2PoolAPI P2PoolStorage.

(** The fields of a query that the hook reads. *)
Record Query (T : Type) := {
  qdata : option T;
  qerror : option string;
  dataUpdatedAt : Z
}.
Arguments qdata {T} _.
Arguments qerror {T} _.
Arguments dataUpdatedAt {T} _.

(** The query library (TanStack Query, outside this repository) on the
    settlement of a [queryFn] at time [now]: a resolved promise stores the
    value, clears the error and stamps [dataUpdatedAt] with [Date.now()];
    a rejected one keeps the data and its stamp and stores the error. *)
Definition settle {T} (now : Z) (outcome : Result T) (q : Query T) : Query T :=
  match outcome with
  | Ok value => {| qdata := Some value; qerror := None; dataUpdatedAt := now |}
  | Err e => {| qdata := qdata q; qerror := Some e; dataUpdatedAt := dataUpdatedAt q |}
  end.

(** The [catch] of the pool-info [queryFn]. *)
Definition poolInfoFallback (apiUrl error : string) (now : Z) (st : Storage)
  : Result Payload * Storage :=
  match getPoolInfo apiUrl now st with
  | Err e => (Err e, st)
  | Ok (Some cachedData, st') => (Ok cachedData, st')
  | Ok (None, st') => (Err error, st')
  end.

(** [fetched] is what [api.getPoolInfo()] did. *)
Definition poolInfoQueryFn (apiUrl : string) (fetched : Result PoolInfo) (now : Z)
    (st : Storage) : Result Payload * Storage :=
  match fetched with
  | Err error => poolInfoFallback apiUrl error now st
  | Ok data =>
      match storePoolInfo apiUrl data now st with
      | Ok st' => (Ok (PoolInfoData data), st')
      | Err error => poolInfoFallback apiUrl error now st
      end
  end.

(** [direct] is what [api.getMinerSharesDirect] returned (it never
    throws). *)
Definition minerSharesQueryFn (apiUrl minerAddress : string) (limit : Z)
    (direct : list SideBlock) (now : Z) (st : Storage)
  : Result (list Payload) * Storage :=
  if String.eqb minerAddress "" then (Err "No miner address provided", st)
  else
    match storeShares apiUrl direct now st with
    | Ok st' => (Ok (map ShareData direct), st')
    | Err error =>
        match getSharesByMiner apiUrl minerAddress limit st with
        | Err e => (Err e, st)
        | Ok cachedShares =>
            if 0 <? Z.of_nat (length cachedShares) then (Ok cachedShares, st)
            else (Err error, st)
        end
    end.

(** What the eight queries contribute to the aggregate status, in the
    order the hook lists them. *)
Record Queries := {
  poolInfoQuery : Query Payload;
  recentSharesQuery : Query (list SideBlock);
  foundBlocksQuery : Query (list FoundBlock);
  minerInfoQuery : Query Payload;
  minerSharesQuery : Query (list Payload);
  minerBlocksQuery : Query (list FoundBlock);
  minerPayoutsQuery : Query Payload;
  minerWindowSharesQuery : Query (Z * list SideBlock)
}.

Definition error (qs : Queries) : option string :=
  let errors := omap (fun e => e)
    [ qerror (poolInfoQuery qs); qerror (recentSharesQuery qs);
      qerror (foundBlocksQuery qs); qerror (minerInfoQuery qs);
      qerror (minerSharesQuery qs); qerror (minerBlocksQuery qs);
      qerror (minerPayoutsQuery qs); qerror (minerWindowSharesQuery qs) ] in
  match errors with
  | [] => None
  | message :: _ => Some (if String.eqb message "" then "Unknown error" else message)
  end.

(** [times.filter(Boolean)] drops the [0] of a query that never
    succeeded; [Some t] is [new Date(t)]. *)
Definition lastUpdate (qs : Queries) : option Z :=
  let times := List.filter (fun t => negb (t =? 0))
    [ dataUpdatedAt (poolInfoQuery qs); dataUpdatedAt (recentSharesQuery qs);
      dataUpdatedAt (foundBlocksQuery qs); dataUpdatedAt (minerInfoQuery qs);
      dataUpdatedAt (minerSharesQuery qs); dataUpdatedAt (minerBlocksQuery qs);
      dataUpdatedAt (minerPayoutsQuery qs); dataUpdatedAt (minerWindowSharesQuery qs) ] in
  match times with
  | [] => None
  | t :: ts => Some (foldl Z.max t ts)
  end.

Definition withPoolInfo (q : Query Payload) (qs : Queries) : Queries :=
  {| poolInfoQuery := q;
     recentSharesQuery := recentSharesQuery qs;
     foundBlocksQuery := foundBlocksQuery qs;
     minerInfoQuery := minerInfoQuery qs;
     minerSharesQuery := minerSharesQuery qs;
     minerBlocksQuery := minerBlocksQuery qs;
     minerPayoutsQuery := minerPayoutsQuery qs;
     minerWindowSharesQuery := minerWindowSharesQuery qs |}.

(** One refresh of the pool-info query at time [now]. *)
Definition refreshPoolInfo (apiUrl : string) (fetched : Result PoolInfo) (now : Z)
    (qs : Queries) (st : Storage) : Queries * Storage :=
  let '(outcome, st') := poolInfoQueryFn apiUrl fetched now st in
  (withPoolInfo (settle now outcome (poolInfoQuery qs)) qs, st').

(** [blocks] is what [api.getMinerFoundBlocks] returned (it never
    throws). *)
Definition minerBlocksQueryFn (apiUrl minerAddress : string) (limit : Z)
    (blocks : list FoundBlock) (now : Z) (st : Storage)
  : Result (list Payload) * Storage :=
  if String.eqb minerAddress "" then (Err "No miner address provided", st)
  else
    match storeBlocks apiUrl blocks now st with
    | Ok st' => (Ok (map BlockData blocks), st')
    | Err error =>
        match getBlocksByMiner apiUrl minerAddress limit st with
        | Err e => (Err e, st)
        | Ok cachedBlocks =>
            if 0 <? Z.of_nat (length cachedBlocks) then (Ok cachedBlocks, st)
            else (Err error, st)
        end
    end.

(** [fetched] is what [api.getMinerInfo(minerAddress)] did. *)
Definition minerInfoQueryFn (apiUrl minerAddress : string) (fetched : Result MinerInfo)
    (now : Z) (st : Storage) : Result Payload * Storage :=
  if String.eqb minerAddress "" then (Err "No miner address provided", st)
  else
    let catch (error : string) :=
      match P2PoolStorage.getMinerInfo apiUrl minerAddress now st with
      | Err e => (Err e, st)
      | Ok (Some cachedData, st') => (Ok cachedData, st')
      | Ok (None, st') => (Err error, st')
      end in
    match fetched with
    | Err error => catch error
    | Ok data =>
        match storeMinerInfo apiUrl minerAddress data now st with
        | Ok st' => (Ok (MinerInfoData data), st')
        | Err error => catch error
        end
    end.

End Dashboard.

(** ** Reading a trace *)

Definition attemptsOf (events : list P2PoolAPI.Event) : list Z :=
  omap (fun e => match e with P2PoolAPI.Attempt n => Some n | _ => None end) events.

Definition sleepsOf (events : list P2PoolAPI.Event) : list Z :=
  omap (fun e => match e with P2PoolAPI.Sleep ms => Some ms | _ => None end) events.


(** The retry predicate of a policy, as [shouldRetry] consults it. *)
Definition retryable (retryConfig : P2PoolAPI.RetryConfig) (message : string) : bool :=
  match P2PoolAPI.retryCondition retryConfig with
  | None => true
  | Some condition => condition message
  end.

(** The backoff formula of the specification. *)
Definition backoff (retryConfig : P2PoolAPI.RetryConfig) (n : Z) : Z :=
  Z.min (P2PoolAPI.baseDelay retryConfig * P2PoolAPI.backoffMultiplier retryConfig ^ (n - 1))
        (P2PoolAPI.maxDelay retryConfig).

(** An endpoint that answers every attempt with the same status. *)
Definition always (status : Z) (statusText : string) : Z -> P2PoolAPI.FetchOutcome unit :=
  fun _ => P2PoolAPI.Resolved
    {| P2PoolAPI.status := status; P2PoolAPI.statusText := statusText;
       P2PoolAPI.body := P2PoolAPI.JOther |}.

(** What each way out of the scanning loop means; [pending] and [used]
    are the iterations ahead and the value of [attempts] when the loop is
    entered. *)
Definition justified {T} (height : T -> Z) (batchSize : Z -> Z)
    (getBatch : Z -> Z -> Result (list T)) (limit : Z)
    (pending : list Z) (used : Z) (e : P2PoolAPI.ScanEnd (T := T)) : Prop :=
  match P2PoolAPI.reason e with
  | P2PoolAPI.LimitReached => limit <= Z.of_nat (length (P2PoolAPI.found e))
  | P2PoolAPI.MaxAttempts =>
      P2PoolAPI.attemptsUsed e = List.last pending used /\
      Z.of_nat (length (P2PoolAPI.found e)) < limit
  | P2PoolAPI.EmptyPage =>
      P2PoolAPI.attemptsUsed e ∈ pending /\
      getBatch (P2PoolAPI.attemptsUsed e) (batchSize (P2PoolAPI.attemptsUsed e)) = Ok []
  | P2PoolAPI.NoHeightProgress =>
      P2PoolAPI.attemptsUsed e ∈ pending /\
      exists first others from,
        getBatch (P2PoolAPI.attemptsUsed e) (batchSize (P2PoolAPI.attemptsUsed e))
          = Ok (first :: others) /\
        P2PoolAPI.cursor e = Some from /\
        from <= foldl Z.min (height first) (height <$> others)
  end.

(** The order of a list sorted newest first. *)
Definition descending {A} (key : A -> Z) : A -> A -> Prop := fun a b => key b <= key a.

(** The time a call spends sleeping between attempts. *)
Definition totalSleep (events : list P2PoolAPI.Event) : Z :=
  foldr Z.add 0 (sleepsOf events).

(** An endpoint that answers every attempt with the same response. *)
Definition answering {A} (response : P2PoolAPI.Response A) : Z -> P2PoolAPI.FetchOutcome A :=
  fun _ => P2PoolAPI.Resolved response.

(** An endpoint that is down for the first two attempts. *)
Definition recoversAtThird : Z -> P2PoolAPI.FetchOutcome unit :=
  fun n =>
    if n <? 3 then P2PoolAPI.Rejected "Failed to fetch"
    else P2PoolAPI.Resolved
           {| P2PoolAPI.status := 200; P2PoolAPI.statusText := "OK";
              P2PoolAPI.body := P2PoolAPI.JOther |}.

(** A policy that never retries, and one with a negative retry count. *)
Definition noRetry : P2PoolAPI.RetryConfig :=
  {| P2PoolAPI.maxRetries := 0; P2PoolAPI.baseDelay := 1000; P2PoolAPI.maxDelay := 10000;
     P2PoolAPI.backoffMultiplier := 2; P2PoolAPI.retryCondition := None |}.

Definition negativeRetries : P2PoolAPI.RetryConfig :=
  {| P2PoolAPI.maxRetries := -1; P2PoolAPI.baseDelay := 1000; P2PoolAPI.maxDelay := 10000;
     P2PoolAPI.backoffMultiplier := 2; P2PoolAPI.retryCondition := None |}.

(** ** Reading a database *)

(** The indexes of every object store. No operation of the cache changes
    them after [upgrade]. *)
Definition schemaOf (d : P2PoolStorage.DB) : gmap string (list (string * string)) :=
  P2PoolStorage.indexes <$> d.

(** The shares store, where present, has the indexes [upgrade] gives it. *)
Definition sharesSchema (st : P2PoolStorage.Storage) : Prop :=
  forall d idx,
    P2PoolStorage.db st = Some d -> schemaOf d !! "shares" = Some idx ->
    idx = [("timestamp", "timestamp"); ("apiUrl", "apiUrl")].

(** The number of records of a store held under a primary key. *)
Definition entriesUnder (key : string) (os : P2PoolStorage.ObjectStore) : nat :=
  size (filter (fun kv => kv.1 = key) (P2PoolStorage.records os)).

(** Every record sits under its own [id], as [keyPath: 'id'] has it. *)
Definition keyedById (d : P2PoolStorage.DB) : Prop :=
  forall storeName os pk r,
    d !! storeName = Some os -> P2PoolStorage.records os !! pk = Some r ->
    P2PoolStorage.id r = pk.

(** The blocks store, where present, has the indexes [upgrade] gives it. *)
Definition blocksSchema (st : P2PoolStorage.Storage) : Prop :=
  forall d idx,
    P2PoolStorage.db st = Some d -> schemaOf d !! "blocks" = Some idx ->
    idx = [("timestamp", "timestamp"); ("apiUrl", "apiUrl")].

(** The entry [storeShares] writes for a share. *)
Definition shareEntry (apiUrl : string) (now : Z) (share : P2PoolAPI.SideBlock)
  : P2PoolStorage.StoredData :=
  {| P2PoolStorage.id := P2PoolStorage.shareKey apiUrl share;
     P2PoolStorage.data := P2PoolStorage.ShareData share;
     P2PoolStorage.timestamp := now; P2PoolStorage.lastAccessed := now |}.

(** ** Retention *)

(** An entry of partition [k] has reached the retention period at time
    [now]: its write timestamp is at or before [now - retention]. *)
Definition expired (now : Z) (k : P2PoolStorage.StoreKey) (r : P2PoolStorage.StoredData)
  : bool :=
  match P2PoolStorage.RETENTION_PERIODS k with
  | Some retention => P2PoolStorage.timestamp r <=? now - retention
  | None => false
  end.

(** A store without its expired entries. *)
Definition purge (now : Z) (k : P2PoolStorage.StoreKey) (os : P2PoolStorage.ObjectStore)
  : P2PoolStorage.ObjectStore :=
  {| P2PoolStorage.indexes := P2PoolStorage.indexes os;
     P2PoolStorage.records :=
       filter (fun kv => expired now k kv.2 = false) (P2PoolStorage.records os) |}.

Definition holdsExpired (now : Z) (d : P2PoolStorage.DB) (k : P2PoolStorage.StoreKey) : Prop :=
  exists os pk r,
    d !! P2PoolStorage.storeNameOf k = Some os /\
    P2PoolStorage.records os !! pk = Some r /\ expired now k r = true.

(** Every partition with a retention period exists and has the
    [timestamp] index, as after [upgrade]. *)
Definition cleanable (d : P2PoolStorage.DB) : Prop :=
  forall k, k <> P2PoolStorage.METADATA ->
    exists os, d !! P2PoolStorage.storeNameOf k = Some os /\
               P2PoolStorage.index os "timestamp" = Ok "timestamp".

Definition atMostOneExpired (now : Z) (d : P2PoolStorage.DB) : Prop :=
  forall k1 k2, holdsExpired now d k1 -> holdsExpired now d k2 -> k1 = k2.

(** A store without the entries written at or before [cutoffTime]. *)
Definition purgeBefore (cutoffTime : Z) (os : P2PoolStorage.ObjectStore)
  : P2PoolStorage.ObjectStore :=
  {| P2PoolStorage.indexes := P2PoolStorage.indexes os;
     P2PoolStorage.records :=
       filter (fun kv => cutoffTime < P2PoolStorage.timestamp kv.2)
              (P2PoolStorage.records os) |}.

(** Runs of [cleanup] one after the other, with nothing written in
    between; every run reads the clock itself ([Date.now()] in [cleanup]),
    and [nows] holds the readings in the order of the runs. *)
Fixpoint cleanupRuns (nows : list Z) (st : P2PoolStorage.Storage)
  : Result P2PoolStorage.Storage :=
  match nows with
  | [] => Ok st
  | now :: later =>
      match P2PoolStorage.cleanup now st with
      | Ok st' => cleanupRuns later st'
      | Err e => Err e
      end
  end.

(** No entry of [d] reaches its retention period between the clock
    readings [nows]: it has reached it at all of them or at none. *)
Definition settled (nows : list Z) (d : P2PoolStorage.DB) : Prop :=
  forall now now' k os pk r,
    now ∈ nows -> now' ∈ nows ->
    d !! P2PoolStorage.storeNameOf k = Some os ->
    P2PoolStorage.records os !! pk = Some r ->
    expired now k r = expired now' k r.

(** The readings of five runs an hour apart (the interval of
    [scheduleCleanup]), the first at [start]. *)
Definition hourly (start : Z) : list Z :=
  (fun i => start + i * (60 * 60 * 1000)) <$> seqZ 0 5.

(** The number of records in the six partitions. *)
Definition countRecords (d : P2PoolStorage.DB) : Z :=
  foldr (fun name total =>
           Z.of_nat (size (default ∅ (P2PoolStorage.records <$> d !! name))) + total)
        0 (P2PoolStorage.STORES).*2.

(** ** Scenarios *)

Definition shareOf (templateId : string) (sideHeight : Z) (miner : string)
  : P2PoolAPI.SideBlock :=
  {| P2PoolAPI.template_id := templateId; P2PoolAPI.side_height := sideHeight;
     P2PoolAPI.timestamp := 1700000000; P2PoolAPI.difficulty := 100000;
     P2PoolAPI.miner_address := miner |}.

Definition blockOf (blockId : string) (mainHeight : Z) (miner : string)
  : P2PoolAPI.FoundBlock :=
  {| P2PoolAPI.main_block :=
       {| P2PoolAPI.MainBlock.id := blockId; P2PoolAPI.MainBlock.height := mainHeight;
          P2PoolAPI.MainBlock.reward := 600000000000 |};
     P2PoolAPI.block_miner_address := miner |}.

(** Every bulk page holds one share of another miner, at height 90. *)
Definition foreignPages : Z -> Z -> option string -> Result (list P2PoolAPI.SideBlock) :=
  fun _ _ _ => Ok [shareOf "t9" 90 "B"].

(** The first bulk page holds a share of miner A; the second call fails. *)
Definition secondPageFails : Z -> Z -> option string -> Result (list P2PoolAPI.SideBlock) :=
  fun call _ _ =>
    if call =? 1 then Ok [shareOf "t1" 90 "A"; shareOf "t2" 80 "B"]
    else Err "Failed to fetch shares: HTTP 500: Internal Server Error".

Definition secondBlockPageFails
  : Z -> Z -> option string -> Result (list P2PoolAPI.FoundBlock) :=
  fun call _ _ =>
    if call =? 1 then Ok [blockOf "b1" 3000 "A"; blockOf "b2" 2900 "B"]
    else Err "Failed to fetch found blocks: HTTP 500: Internal Server Error".

Definition observer : string := "https://mini.p2pool.observer".

(** A cache that [init] has just opened on an empty database. *)
Definition openedCache : P2PoolStorage.Storage :=
  {| P2PoolStorage.window := true; P2PoolStorage.db := Some (P2PoolStorage.upgrade ∅) |}.

(** A cache whose [init] found no IndexedDB (outside a browser). *)
Definition closedCache : P2PoolStorage.Storage :=
  {| P2PoolStorage.window := false; P2PoolStorage.db := None |}.

Definition orElse {A} (r : Result A) (fallback : A) : A :=
  match r with
  | Ok value => value
  | Err _ => fallback
  end.

(** Two writes of shares with the same height and template id. *)
Definition afterShareA : P2PoolStorage.Storage :=
  orElse (P2PoolStorage.storeShares observer [shareOf "t1" 90 "A"] 1000 openedCache)
         openedCache.

Definition afterShareB : P2PoolStorage.Storage :=
  orElse (P2PoolStorage.storeShares observer [shareOf "t1" 90 "B"] 2000 afterShareA)
         openedCache.

(** The records of a partition of a cache (none when the database or the
    partition is missing). *)
Definition recordsOf (st : P2PoolStorage.Storage) (storeName : string)
  : gmap string P2PoolStorage.StoredData :=
  match P2PoolStorage.db st with
  | Some d =>
      match d !! storeName with
      | Some os => P2PoolStorage.records os
      | None => ∅
      end
  | None => ∅
  end.

(** A cache with a share written at time 0 and another written two days
    later. *)
Definition agedDB : P2PoolStorage.DB :=
  match P2PoolStorage.db
          (orElse (P2PoolStorage.storeShares observer [shareOf "t2" 95 "A"]
                     (2 * P2PoolStorage.day)
                     (orElse (P2PoolStorage.storeShares observer [shareOf "t1" 90 "A"] 0
                                openedCache) openedCache))
                  openedCache) with
  | Some d => d
  | None => ∅
  end.

Definition agedShares : P2PoolStorage.ObjectStore :=
  default {| P2PoolStorage.indexes := []; P2PoolStorage.records := ∅ |}
          (agedDB !! "shares").

Definition agedCache : P2PoolStorage.Storage :=
  {| P2PoolStorage.window := true; P2PoolStorage.db := Some agedDB |}.

(** The same with a pool snapshot written at time 0 as well. *)
Definition agedCacheWithPool : P2PoolStorage.Storage :=
  orElse (P2PoolStorage.storePoolInfo observer
            {| P2PoolStorage.pool_side_height := 90; P2PoolStorage.pool_miners := 40 |}
            0 agedCache)
         agedCache.

(** A cache with a share written at time 0 and the pool snapshots of five
    URLs, written an hour apart from day 30 on, so that one of them reaches
    its retention of one day at each of the hourly readings from day 31
    on. *)
Definition starvedCache : P2PoolStorage.Storage :=
  foldl (fun st i =>
           orElse (P2PoolStorage.storePoolInfo (observer +:+ "/" +:+ string_of_Z i)
                     {| P2PoolStorage.pool_side_height := 90; P2PoolStorage.pool_miners := 40 |}
                     (30 * P2PoolStorage.day + i * (60 * 60 * 1000)) st) st)
        (orElse (P2PoolStorage.storeShares observer [shareOf "t1" 90 "A"] 0 openedCache)
                openedCache)
        (seqZ 0 5).

(** A cache holding a pool snapshot written at time 1000, and a hook whose
    queries have not settled yet. *)
Definition snapshot : P2PoolStorage.PoolInfo :=
  {| P2PoolStorage.pool_side_height := 90; P2PoolStorage.pool_miners := 40 |}.

Definition pooledCache : P2PoolStorage.Storage :=
  orElse (P2PoolStorage.storePoolInfo observer snapshot 1000 openedCache) openedCache.

Definition idle {T} : Dashboard.Query T :=
  {| Dashboard.qdata := None; Dashboard.qerror := None; Dashboard.dataUpdatedAt := 0 |}.

Definition idleQueries : Dashboard.Queries :=
  {| Dashboard.poolInfoQuery := idle;
     Dashboard.recentSharesQuery := idle;
     Dashboard.foundBlocksQuery := idle;
     Dashboard.minerInfoQuery := idle;
     Dashboard.minerSharesQuery := idle;
     Dashboard.minerBlocksQuery := idle;
     Dashboard.minerPayoutsQuery := idle;
     Dashboard.minerWindowSharesQuery := idle |}.

(** The number of shares in the reply to the miner-filtered request of
    [getMinerSharesDirect], 0 when the request fails. *)
Definition replyCount (getShares : Z -> Z -> option string -> Result (list P2PoolAPI.SideBlock))
    (address : string) (limit : Z) : Z :=
  match getShares 1 limit (Some address) with
  | Ok shares => Z.of_nat (length shares)
  | Err _ => 0
  end.

(** An upstream that ignores the requested limit. *)
Definition twelveShares : Z -> Z -> option string -> Result (list P2PoolAPI.SideBlock) :=
  fun _ _ _ => Ok (replicate 12 (shareOf "t1" 90 "A")).

(** An upstream that answers every request with one share of miner A. *)
Definition oneShare : Z -> Z -> option string -> Result (list P2PoolAPI.SideBlock) :=
  fun _ _ _ => Ok [shareOf "t1" 90 "A"].

(** An engine that takes up to 65535 arguments in one call. *)
Definition upTo65535 : nat -> bool := fun n => 65535 <? Z.of_nat n.

(** A cache in a browser whose [init] has not opened the database. *)
Definition unopenedCache : P2PoolStorage.Storage :=
  {| P2PoolStorage.window := true; P2PoolStorage.db := None |}.

(** The stamps and the failures of the eight queries, in the order of the
    hook. *)
Definition stamps (qs : Dashboard.Queries) : list Z :=
  [ Dashboard.dataUpdatedAt (Dashboard.poolInfoQuery qs);
    Dashboard.dataUpdatedAt (Dashboard.recentSharesQuery qs);
    Dashboard.dataUpdatedAt (Dashboard.foundBlocksQuery qs);
    Dashboard.dataUpdatedAt (Dashboard.minerInfoQuery qs);
    Dashboard.dataUpdatedAt (Dashboard.minerSharesQuery qs);
    Dashboard.dataUpdatedAt (Dashboard.minerBlocksQuery qs);
    Dashboard.dataUpdatedAt (Dashboard.minerPayoutsQuery qs);
    Dashboard.dataUpdatedAt (Dashboard.minerWindowSharesQuery qs) ].

Definition failures (qs : Dashboard.Queries) : list (option string) :=
  [ Dashboard.qerror (Dashboard.poolInfoQuery qs);
    Dashboard.qerror (Dashboard.recentSharesQuery qs);
    Dashboard.qerror (Dashboard.foundBlocksQuery qs);
    Dashboard.qerror (Dashboard.minerInfoQuery qs);
    Dashboard.qerror (Dashboard.minerSharesQuery qs);
    Dashboard.qerror (Dashboard.minerBlocksQuery qs);
    Dashboard.qerror (Dashboard.minerPayoutsQuery qs);
    Dashboard.qerror (Dashboard.minerWindowSharesQuery qs) ].

(** A hook after three settlements: pool info at 5000, the miner's shares
    at 7000, and a failure of the found-blocks query with an empty
    message followed by one of the payouts query. *)
Definition settledQueries : Dashboard.Queries :=
  {| Dashboard.poolInfoQuery :=
       Dashboard.settle 5000 (Ok (P2PoolStorage.PoolInfoData snapshot)) idle;
     Dashboard.recentSharesQuery := idle;
     Dashboard.foundBlocksQuery := Dashboard.settle 6000 (Err "") idle;
     Dashboard.minerInfoQuery := idle;
     Dashboard.minerSharesQuery := Dashboard.settle 7000 (Ok []) idle;
     Dashboard.minerBlocksQuery := idle;
     Dashboard.minerPayoutsQuery := Dashboard.settle 8000 (Err "Miner not found") idle;
     Dashboard.minerWindowSharesQuery := idle |}.

(* ================================================================== *)
(** * Theorems *)
(* ================================================================== *)

Section FetchClient.
Import P2PoolAPI.
Context {A : Type}.
Variable retryConfig : RetryConfig.
Variable env : Z -> FetchOutcome A.

Lemma sleepsOf_app (l1 l2 : list Event) : sleepsOf (l1 ++ l2) = sleepsOf l1 ++ sleepsOf l2.
Proof. apply omap_app. Qed.

Lemma attemptsOf_app (l1 l2 : list Event) :
  attemptsOf (l1 ++ l2) = attemptsOf l1 ++ attemptsOf l2.
Proof. apply omap_app. Qed.

Lemma sleepsOf_cons (e : Event) (l : list Event) :
  sleepsOf (e :: l) = match e with Sleep ms => ms :: sleepsOf l | _ => sleepsOf l end.
Proof. by destruct e. Qed.

Lemma attemptsOf_cons (e : Event) (l : list Event) :
  attemptsOf (e :: l) = match e with Attempt n => n :: attemptsOf l | _ => attemptsOf l end.
Proof. by destruct e. Qed.

Lemma tryFetch_quiet (n : Z) :
  sleepsOf (tryFetch n (env n)).1 = [] /\ attemptsOf (tryFetch n (env n)).1 = [].
Proof.
  unfold tryFetch. destruct (env n) as [r|m]; [|done].
  repeat case_match; done.
Qed.

(** The [k]-th sleep of a run that starts at attempt [a] is the backoff
    of attempt [a + k - 1]. *)
Lemma fetchLoop_sleeps (k : nat) (a : Z) (lastError : option string) :
  let events := (fetchLoop retryConfig env (seqZ a (Z.of_nat k)) lastError).1 in
  sleepsOf events = backoff retryConfig <$> seqZ a (Z.of_nat (length (sleepsOf events))).
Proof.
  revert a lastError. induction k as [|k IH]; intros a lastError; [done|].
  rewrite Nat2Z.inj_succ, seqZ_cons by lia.
  replace (Z.pred (Z.succ (Z.of_nat k))) with (Z.of_nat k) by lia.
  cbn [fetchLoop]. destruct (tryFetch_quiet a) as [Hs _].
  destruct (tryFetch a (env a)) as [toasts [resp|msg]]; cbn [fst snd] in *.
  - rewrite sleepsOf_cons, Hs. done.
  - destruct (negb (shouldRetry a retryConfig msg)).
    + cbn [fst]. rewrite sleepsOf_cons, sleepsOf_app, Hs. done.
    + specialize (IH (Z.succ a) (Some msg)).
      replace (a + 1) with (Z.succ a) by lia.
      destruct (fetchLoop retryConfig env (seqZ (Z.succ a) (Z.of_nat k)) (Some msg))
        as [events final]; cbn [fst] in *.
      rewrite sleepsOf_cons, sleepsOf_app, Hs. cbn [app].
      rewrite !sleepsOf_cons.
      cbn [length]. rewrite Nat2Z.inj_succ, seqZ_cons by lia.
      replace (Z.pred (Z.succ (Z.of_nat (length (sleepsOf events)))))
        with (Z.of_nat (length (sleepsOf events))) by lia.
      cbn [fmap list_fmap]. f_equal. exact IH.
Qed.

Lemma fetchLoop_attempts_le (l : list Z) (lastError : option string) :
  (length (attemptsOf (fetchLoop retryConfig env l lastError).1) <= length l)%nat.
Proof.
  revert lastError. induction l as [|a l IH]; intros lastError; [done|].
  cbn [fetchLoop]. destruct (tryFetch_quiet a) as [_ Ha].
  destruct (tryFetch a (env a)) as [toasts [resp|msg]]; cbn [fst snd] in *.
  - rewrite attemptsOf_cons, Ha. cbn. lia.
  - destruct (negb (shouldRetry a retryConfig msg)).
    + cbn [fst]. rewrite attemptsOf_cons, attemptsOf_app, Ha. cbn. lia.
    + specialize (IH (Some msg)).
      destruct (fetchLoop retryConfig env l (Some msg)) as [events final]; cbn [fst] in *.
      rewrite attemptsOf_cons, attemptsOf_app, Ha. cbn [app].
      rewrite !attemptsOf_cons. cbn [length]. lia.
Qed.

(** When every attempt fails retryably, a run over [a .. maxRetries + 1]
    uses them all and ends with the error of the last one. *)
Lemma fetchLoop_exhausts (k : nat) (a : Z) (lastError : option string) :
  a + Z.of_nat k = maxRetries retryConfig + 1 ->
  (forall n, exists message,
      (tryFetch n (env n)).2 = Err message /\ retryable retryConfig message = true) ->
  let run := fetchLoop retryConfig env (seqZ a (Z.of_nat (S k))) lastError in
  attemptsOf run.1 = seqZ a (Z.of_nat (S k)) /\
  exists message,
    run.2 = Err message /\
    (tryFetch (maxRetries retryConfig + 1) (env (maxRetries retryConfig + 1))).2 = Err message.
Proof.
  intros Hk Hfail. revert a lastError Hk.
  induction k as [|k IH]; intros a lastError Hk.
  - rewrite seqZ_cons, seqZ_nil by done. cbn [fetchLoop].
    destruct (tryFetch_quiet a) as [_ Ha]. destruct (Hfail a) as (msg & Htry & _).
    replace (maxRetries retryConfig + 1) with a by lia.
    destruct (tryFetch a (env a)) as [toasts tried]; cbn [fst snd] in *. subst tried.
    assert (shouldRetry a retryConfig msg = false) as ->.
    { unfold shouldRetry. apply andb_false_intro1, Z.leb_gt. lia. }
    cbn [negb fst snd]. split; [|eauto].
    rewrite attemptsOf_cons, attemptsOf_app, Ha. done.
  - rewrite (Nat2Z.inj_succ (S k)), seqZ_cons by lia.
    replace (Z.pred (Z.succ (Z.of_nat (S k)))) with (Z.of_nat (S k)) by lia.
    cbn [fetchLoop].
    destruct (tryFetch_quiet a) as [_ Ha]. destruct (Hfail a) as (msg & Htry & Hretry).
    destruct (tryFetch a (env a)) as [toasts tried]; cbn [fst snd] in *. subst tried.
    assert (shouldRetry a retryConfig msg = true) as ->.
    { unfold shouldRetry. apply andb_true_intro. split; [apply Z.leb_le; lia|].
      exact Hretry. }
    cbn [negb]. replace (a + 1) with (Z.succ a) by lia.
    destruct (IH (Z.succ a) (Some msg)) as [Hatt Hend]; [lia|].
    destruct (fetchLoop retryConfig env (seqZ (Z.succ a) (Z.of_nat (S k))) (Some msg))
      as [events final]; cbn [fst snd] in *.
    split; [|exact Hend].
    rewrite attemptsOf_cons, attemptsOf_app, Ha. cbn [app].
    rewrite !attemptsOf_cons. by rewrite Hatt.
Qed.
End FetchClient.

Section FetchClientClaims.
Import P2PoolAPI.

Lemma default_delay_capped (n : Z) : 5 <= n -> calculateDelay n DEFAULT_RETRY_CONFIG = 10000.
Proof.
  intros Hn. unfold calculateDelay. cbn [baseDelay backoffMultiplier maxDelay DEFAULT_RETRY_CONFIG].
  assert (2 ^ 4 <= 2 ^ (n - 1)) by (apply Z.pow_le_mono_r; lia).
  change (2 ^ 4) with 16 in *. lia.
Qed.

(** C1. The delay computed after failed attempt [n], that is before
    retry [n], is [min(baseDelay * backoffMultiplier^(n-1), maxDelay)]:
    [calculateDelay] is that formula, and the [k]-th sleep of every run of
    [fetchWithRetry] is the formula at [k]. Under the default policy the
    delays of attempts 1 to 4 are 1000, 2000, 4000 and 8000 ms, and from
    attempt 5 on the delay is the cap, 10000 ms. *)
Theorem calculateDelay_backoff {A} (retryConfig : RetryConfig)
    (env : Z -> FetchOutcome A) (n : Z) :
  5 <= n ->
  (forall attempt, calculateDelay attempt retryConfig
     = Z.min (baseDelay retryConfig * backoffMultiplier retryConfig ^ (attempt - 1))
             (maxDelay retryConfig)) /\
  (let sleeps := sleepsOf (fetchWithRetry retryConfig env).1 in
   sleeps = backoff retryConfig <$> seqZ 1 (Z.of_nat (length sleeps))) /\
  (fun attempt => calculateDelay attempt DEFAULT_RETRY_CONFIG) <$> [1; 2; 3; 4]
    = [1000; 2000; 4000; 8000] /\
  calculateDelay n DEFAULT_RETRY_CONFIG = 10000.
Proof.
  intros Hn. split_and!.
  - done.
  - unfold fetchWithRetry.
    destruct (Z_le_gt_dec 0 (maxRetries retryConfig + 1)) as [Hm|Hm].
    + rewrite <- (Z2Nat.id (maxRetries retryConfig + 1)) by done.
      apply fetchLoop_sleeps.
    + rewrite seqZ_nil by lia. done.
  - done.
  - by apply default_delay_capped.
Qed.

Lemma calculateDelay_backoff_witness :
  5 <= 7 /\ calculateDelay 7 DEFAULT_RETRY_CONFIG = 10000.
Proof.
  split; [lia|].
  apply (calculateDelay_backoff DEFAULT_RETRY_CONFIG (always 503 "Service Unavailable") 7).
  lia.
Defined.

(** C2. When every attempt fails with an error the policy's retry
    predicate accepts, [fetchWithRetry] makes exactly [maxRetries + 1]
    attempts, numbered [1 .. maxRetries + 1] (four for [maxRetries = 3]),
    and then fails with the error of the last attempt; and whatever the
    endpoint does, it never makes more than [maxRetries + 1] attempts. *)
Theorem fetchWithRetry_exhausts_retries {A} (retryConfig : RetryConfig)
    (env : Z -> FetchOutcome A) :
  0 <= maxRetries retryConfig ->
  (forall n, exists message,
      (tryFetch n (env n)).2 = Err message /\ retryable retryConfig message = true) ->
  let run := fetchWithRetry retryConfig env in
  attemptsOf run.1 = seqZ 1 (maxRetries retryConfig + 1) /\
  Z.of_nat (length (attemptsOf run.1)) = maxRetries retryConfig + 1 /\
  (exists message,
      run.2 = Err message /\
      (tryFetch (maxRetries retryConfig + 1) (env (maxRetries retryConfig + 1))).2
        = Err message) /\
  (forall env' : Z -> FetchOutcome A,
      Z.of_nat (length (attemptsOf (fetchWithRetry retryConfig env').1))
        <= maxRetries retryConfig + 1).
Proof.
  intros Hmax Hfail run.
  assert (maxRetries retryConfig + 1 = Z.of_nat (S (Z.to_nat (maxRetries retryConfig))))
    as Hlen by lia.
  destruct (fetchLoop_exhausts retryConfig env (Z.to_nat (maxRetries retryConfig)) 1 None)
    as [Hatt Hend]; [lia|exact Hfail|].
  rewrite <- Hlen in Hatt, Hend. fold (fetchWithRetry retryConfig env) in Hatt, Hend.
  split_and!.
  - exact Hatt.
  - subst run. rewrite Hatt, length_seqZ. lia.
  - exact Hend.
  - intros env'. unfold fetchWithRetry.
    pose proof (fetchLoop_attempts_le retryConfig env'
                  (seqZ 1 (maxRetries retryConfig + 1)) None) as Hle.
    rewrite length_seqZ in Hle. lia.
Qed.

Lemma fetchWithRetry_exhausts_retries_witness :
  attemptsOf (fetchWithRetry DEFAULT_RETRY_CONFIG (always 503 "Service Unavailable")).1
    = [1; 2; 3; 4] /\
  (fetchWithRetry DEFAULT_RETRY_CONFIG (always 503 "Service Unavailable")).2
    = Err "HTTP 503: Service Unavailable".
Proof.
  destruct (fetchWithRetry_exhausts_retries DEFAULT_RETRY_CONFIG
              (always 503 "Service Unavailable")) as (Hatt & _ & Hend & _).
  - cbn. lia.
  - intros n. exists "HTTP 503: Service Unavailable". split; reflexivity.
  - split; [exact Hatt|]. destruct Hend as (message & -> & Hlast).
    exact (eq_sym Hlast).
Defined.

(** C3 (evaluation of the code). Under the default policy an endpoint
    that answers 404 is tried once, and [getMinerPayouts] turns that 404
    into the empty list; an endpoint that answers 405 is tried four times:
    the error thrown for a 4xx is caught by the [catch] of the same
    iteration, and the default retry predicate accepts every message that
    contains the character 5. *)
Theorem fetchWithRetry_retries_405 :
  attemptsOf (fetchWithRetry DEFAULT_RETRY_CONFIG (always 404 "Not Found")).1 = [1] /\
  (getMinerPayouts DEFAULT_RETRY_CONFIG (always 404 "Not Found")).2 = Ok [] /\
  attemptsOf (fetchWithRetry DEFAULT_RETRY_CONFIG (always 405 "Method Not Allowed")).1
    = [1; 2; 3; 4] /\
  sleepsOf (fetchWithRetry DEFAULT_RETRY_CONFIG (always 405 "Method Not Allowed")).1
    = [1000; 2000; 4000].
Proof. vm_compute. done. Qed.
End FetchClientClaims.

Section MinerScanLemmas.
Import P2PoolAPI.
Context {T : Type}.
Variable height : T -> Z.
Variable key : T -> string.
Variable owner : T -> string.
Variable batchSize : Z -> Z.
Variable getBatch : Z -> Z -> Result (list T).
Variable address : string.
Variable limit : Z.

Local Abbreviation loop := (scanLoop height key owner batchSize getBatch address limit).
Local Abbreviation just := (justified height batchSize getBatch limit).

Lemma last_cons_default (a : Z) (l : list Z) (d : Z) :
  List.last (a :: l) d = List.last l a.
Proof.
  revert a d. induction l as [|b l IH]; intros a d; [done|].
  change (List.last (b :: l) d = List.last (b :: l) a). by rewrite !IH.
Qed.

Lemma justified_cons (a : Z) (pending : list Z) (used : Z) (e : ScanEnd) :
  just pending a e -> just (a :: pending) used e.
Proof.
  unfold justified. destruct (reason e); [done| | |].
  - by rewrite last_cons_default.
  - intros [? ?]. split; [apply elem_of_cons; by right|done].
  - intros [? ?]. split; [apply elem_of_cons; by right|done].
Qed.

Lemma progresses_false (from : option Z) (minHeight : Z) :
  progresses from minHeight = false -> exists f, from = Some f /\ f <= minHeight.
Proof. destruct from as [f|]; [|done]. cbn. intros ?%Z.ltb_ge. eauto. Qed.

Lemma scanLoop_justified (pending : list Z) (all : list T)
    (from : option Z) (used : Z) (e : ScanEnd) :
  loop pending all from used = Ok e -> just pending used e.
Proof.
  revert all from used. induction pending as [|a pending IH]; intros all from used.
  - cbn [scanLoop]. destruct (Z.ltb_spec (Z.of_nat (length all)) limit);
      cbn [negb]; intros [= <-]; unfold justified; cbn; lia.
  - cbn [scanLoop]. destruct (Z.ltb_spec (Z.of_nat (length all)) limit) as [Hshort|Hfull];
      cbn [negb]; [|intros [= <-]; unfold justified; cbn; lia].
    destruct (getBatch a (batchSize a)) as [[|first others]|msg] eqn:Hbatch; [| |done].
    { intros [= <-]. unfold justified; cbn. split; [apply elem_of_cons; by left|done]. }
    set (filtered := filterBatch height owner address from (first :: others)).
    set (all' := pushNew key all filtered).
    set (minHeight := foldl Z.min (height first) (map height others)).
    assert (forall from', 
      (if Z.of_nat (length all') >=? limit
       then Ok {| found := all'; cursor := from'; attemptsUsed := a; reason := LimitReached |}
       else loop pending all' from' a) = Ok e -> just (a :: pending) used e) as Hrest.
    { intros from'. destruct (Z.geb_spec (Z.of_nat (length all')) limit).
      - intros [= <-]. unfold justified; cbn. lia.
      - intros ?%IH. by apply justified_cons. }
    assert (forall moved,
      moved = Some from \/ moved = Some (Some minHeight) \/
      (moved = None /\ progresses from minHeight = false) ->
      match moved with
      | None => Ok {| found := all'; cursor := from; attemptsUsed := a;
                      reason := NoHeightProgress |}
      | Some from' =>
          if Z.of_nat (length all') >=? limit
          then Ok {| found := all'; cursor := from'; attemptsUsed := a;
                     reason := LimitReached |}
          else loop pending all' from' a
      end = Ok e -> just (a :: pending) used e) as Hmoved.
    { intros moved [->|[->|[-> Hp]]]; [apply Hrest..|].
      intros [= <-]. unfold justified; cbn. split; [apply elem_of_cons; by left|].
      destruct (progresses_false _ _ Hp) as (f & -> & Hf).
      exists first, others, f. by rewrite Hbatch. }
    apply Hmoved.
    destruct (progresses from minHeight) eqn:Hp; repeat case_match; auto.
Qed.

Lemma scanLoop_throws (pending : list Z) (all : list T)
    (from : option Z) (used : Z) (message : string) :
  loop pending all from used = Err message ->
  exists n, n ∈ pending /\ getBatch n (batchSize n) = Err message.
Proof.
  revert all from used. induction pending as [|a pending IH]; intros all from used.
  - cbn [scanLoop]. by case_match.
  - cbn [scanLoop]. destruct (negb _); [done|].
    destruct (getBatch a (batchSize a)) as [[|first others]|msg] eqn:Hbatch; [done| |].
    + intros Hloop.
      assert (exists all' from', loop pending all' from' a = Err message) as (? & ? & Hrec).
      { repeat case_match; try done; eauto. }
      destruct (IH _ _ _ Hrec) as (n & ? & ?). exists n.
      split; [apply elem_of_cons; by right|done].
    + intros [= <-]. exists a. split; [apply elem_of_cons; by left|done].
Qed.

Lemma filterBatch_none (from : option Z) (batch : list T) :
  Forall (fun x => owner x <> address) batch ->
  filterBatch height owner address from batch = [].
Proof.
  intros Hnone. unfold filterBatch.
  assert (List.filter (fun x => String.eqb (owner x) address) batch = []) as ->.
  { induction Hnone as [|x l Hx _ IH]; [done|]. cbn.
    apply String.eqb_neq in Hx. by rewrite Hx. }
  by destruct from.
Qed.

End MinerScanLemmas.

Section Sorting.
Context {A : Type}.
Variable key : A -> Z.

Local Abbreviation descending := (descending key).

Lemma insertDesc_Permutation (x : A) (l : list A) : insertDesc key x l ≡ₚ x :: l.
Proof.
  induction l as [|y l IH]; [done|]. cbn. case_match; [done|].
  rewrite IH. apply Permutation_swap.
Qed.

Lemma sortDesc_Permutation (l : list A) : sortDesc key l ≡ₚ l.
Proof.
  induction l as [|x l IH]; [done|]. cbn [sortDesc foldr].
  fold (sortDesc key l). by rewrite insertDesc_Permutation, IH.
Qed.

Lemma insertDesc_sorted (x : A) (l : list A) :
  StronglySorted descending l -> StronglySorted descending (insertDesc key x l).
Proof.
  induction 1 as [|y l Hsorted IH Hall]; cbn.
  - repeat constructor.
  - destruct (Z.leb_spec (key y) (key x)) as [Hle|Hgt].
    + constructor; [by constructor|]. constructor; [done|].
      eapply Forall_impl; [exact Hall|]. unfold descending. intros; cbn in *; lia.
    + constructor; [done|]. rewrite insertDesc_Permutation.
      constructor; [unfold descending; lia|done].
Qed.

Lemma sortDesc_sorted (l : list A) : StronglySorted descending (sortDesc key l).
Proof.
  induction l as [|x l IH]; [constructor|]. by apply insertDesc_sorted.
Qed.
End Sorting.

Section ReconstructionClaims.
Import P2PoolAPI.

Local Abbreviation sharesLoop getShares :=
  (scanLoop side_height template_id miner_address sharesBatchSize
            (fun attempts size => getShares attempts size None)).
Local Abbreviation blocksLoop getFoundBlocks :=
  (scanLoop (fun b => MainBlock.height (main_block b))
            (fun b => MainBlock.id (main_block b)) block_miner_address blocksBatchSize
            (fun attempts size => getFoundBlocks attempts size None)).

Lemma seqZ_split_at (n : Z) :
  1 <= n <= 5 -> seqZ 1 maxAttempts = seqZ 1 (n - 1) ++ n :: seqZ (n + 1) (5 - n).
Proof.
  intros Hn. unfold maxAttempts. replace 5 with ((n - 1) + (5 - n + 1)) at 1 by lia.
  rewrite seqZ_app by lia. f_equal. rewrite seqZ_cons by lia. f_equal; [lia|].
  f_equal; lia.
Qed.

(** C4. The scanning loop of [getMinerShares] in src/lib/p2pool-api.ts is
    left in a fifth way, by an exception of the bulk call. With the cursor
    100 and the limit 2, the first page is not empty, holds one share of
    the miner and has the minimum height 80: after the first iteration
    the loop goes on, with one share and the cursor moved to 80
    ([sharesLoop] over [[1]] is the loop cut after its first iteration).
    The second bulk call throws, and the scan ends with that exception
    and no stop reason: one share of two was accumulated, two attempts of
    five were made, no page was empty and the height had progressed. *)
Theorem getMinerShares_loop_left_by_exception :
  secondPageFails 1 (sharesBatchSize 1) None
    = Ok [shareOf "t1" 90 "A"; shareOf "t2" 80 "B"] /\
  sharesLoop secondPageFails "A" 2 [1] [] (Some 100) 0
    = Ok {| found := [shareOf "t1" 90 "A"]; cursor := Some 80;
            attemptsUsed := 1; reason := MaxAttempts |} /\
  secondPageFails 2 (sharesBatchSize 2) None
    = Err "Failed to fetch shares: HTTP 500: Internal Server Error" /\
  scanShares secondPageFails "A" 2 (Some 100)
    = Err "Failed to fetch shares: HTTP 500: Internal Server Error" /\
  forall e : ScanEnd, scanShares secondPageFails "A" 2 (Some 100) <> Ok e.
Proof. split_and!; [reflexivity..|]. intros e. discriminate. Qed.

(** C5. [getMinerShares] and [getMinerFoundBlocks] of
    src/lib/p2pool-api.ts do not swallow a failed batch. The first page
    yields a record of miner A and the loop goes on; the second bulk call
    throws; the exception is caught by the [catch] around the whole
    operation, and the operation returns the empty list instead of the
    record accumulated from the first page. *)
Theorem getMinerShares_partial_results_lost :
  sharesLoop secondPageFails "A" 2 [1] [] (Some 100) 0
    = Ok {| found := [shareOf "t1" 90 "A"]; cursor := Some 80;
            attemptsUsed := 1; reason := MaxAttempts |} /\
  secondPageFails 2 (sharesBatchSize 2) None
    = Err "Failed to fetch shares: HTTP 500: Internal Server Error" /\
  getMinerShares secondPageFails "A" 2 (Some 100) = [] /\
  getMinerShares secondPageFails "A" 2 (Some 100) <> [shareOf "t1" 90 "A"] /\
  blocksLoop secondBlockPageFails "A" 2 [1] [] (Some 3100) 0
    = Ok {| found := [blockOf "b1" 3000 "A"]; cursor := Some 2900;
            attemptsUsed := 1; reason := MaxAttempts |} /\
  secondBlockPageFails 2 (blocksBatchSize 2) None
    = Err "Failed to fetch found blocks: HTTP 500: Internal Server Error" /\
  getMinerFoundBlocks secondBlockPageFails "A" 2 (Some 3100) = [] /\
  getMinerFoundBlocks secondBlockPageFails "A" 2 (Some 3100) <> [blockOf "b1" 3000 "A"].
Proof. split_and!; first [reflexivity|discriminate]. Qed.
End ReconstructionClaims.

Section StorageLemmas.
Import P2PoolAPI P2PoolStorage.

Lemma entriesUnder_present (key : string) (os : ObjectStore) (r : StoredData) :
  records os !! key = Some r -> entriesUnder key os = 1%nat.
Proof.
  intros Hr. unfold entriesUnder.
  assert (filter (fun kv : string * StoredData => kv.1 = key) (records os) = {[key := r]}) as ->.
  { apply map_eq. intros k. destruct (decide (k = key)) as [->|Hne].
    - rewrite lookup_singleton_eq. by apply map_lookup_filter_Some.
    - rewrite lookup_singleton_ne by done. apply map_lookup_filter_None. right.
      intros ? _. done. }
  apply map_size_singleton.
Qed.

Lemma schemaOf_commit_put (d : DB) (name : string) (os : ObjectStore) (r : StoredData) :
  d !! name = Some os -> schemaOf (commit name (put r os) d) = schemaOf d.
Proof.
  intros Hos. unfold schemaOf, commit. rewrite fmap_insert. cbn [put indexes].
  apply insert_id. by rewrite lookup_fmap, Hos.
Qed.

Lemma transaction_Ok (d : DB) (name : string) (os : ObjectStore) :
  transaction d name = Ok os <-> d !! name = Some os.
Proof. unfold transaction. destruct (d !! name); split; congruence. Qed.

Lemma store_Ok (name key : string) (payload : Payload) (now : Z) (st st' : Storage) :
  store name key payload now st = Ok st' ->
  exists d os,
    db st = Some d /\ d !! name = Some os /\
    st' = withDB st (commit name
            (put {| id := key; data := payload; timestamp := now; lastAccessed := now |} os) d).
Proof.
  unfold store, ensureReady. destruct (db st) as [d|]; [|done].
  destruct (transaction d name) as [os|] eqn:Htx; [|done].
  apply transaction_Ok in Htx. intros [= <-]. eauto.
Qed.

Lemma storeShares_one_Ok (apiUrl : string) (share : SideBlock) (now : Z) (st st' : Storage) :
  storeShares apiUrl [share] now st = Ok st' ->
  exists d os,
    db st = Some d /\ d !! "shares" = Some os /\
    st' = withDB st (commit "shares"
            (put {| id := shareKey apiUrl share; data := ShareData share;
                    timestamp := now; lastAccessed := now |} os) d).
Proof.
  unfold storeShares, ensureReady. destruct (db st) as [d|]; [|done].
  cbn [length]. change (Z.of_nat 1 =? 0) with false. cbn match.
  destruct (transaction d "shares") as [os|] eqn:Htx; [|done].
  apply transaction_Ok in Htx. intros [= <-]. eauto.
Qed.
End StorageLemmas.

Section StorageClaims.
Import P2PoolAPI P2PoolStorage.

(** C7. Two shares with the same [(apiUrl, side_height, template_id)]
    get the same key, and after storing one and then the other (in two
    calls of [storeShares], or in one) the shares store holds exactly one
    record under that key: the one written last, with its data and its
    write time. The second write does not change the number of records. *)
Theorem storeShares_overwrites (apiUrl : string) (earlier later : SideBlock)
    (now1 now2 : Z) (st st1 st2 : Storage) :
  side_height earlier = side_height later ->
  template_id earlier = template_id later ->
  storeShares apiUrl [earlier] now1 st = Ok st1 ->
  storeShares apiUrl [later] now2 st1 = Ok st2 ->
  shareKey apiUrl earlier = shareKey apiUrl later /\
  exists d1 os1 d2 os2,
    db st1 = Some d1 /\ d1 !! "shares" = Some os1 /\
    db st2 = Some d2 /\ d2 !! "shares" = Some os2 /\
    records os2 !! shareKey apiUrl later
      = Some {| id := shareKey apiUrl later; data := ShareData later;
                timestamp := now2; lastAccessed := now2 |} /\
    entriesUnder (shareKey apiUrl later) os2 = 1%nat /\
    size (records os2) = size (records os1) /\
    storeShares apiUrl [earlier; later] now2 st = Ok st2.
Proof.
  intros Hheight Htemplate Hfirst Hsecond.
  assert (shareKey apiUrl earlier = shareKey apiUrl later) as Hkey.
  { unfold shareKey. by rewrite Hheight, Htemplate. }
  split; [exact Hkey|].
  apply storeShares_one_Ok in Hfirst as (d & os & Hdb & Hos & ->).
  apply storeShares_one_Ok in Hsecond as (d1 & os1 & Hdb1 & Hos1 & ->).
  cbn [db withDB] in Hdb1. injection Hdb1 as <-.
  unfold commit in Hos1. rewrite lookup_insert_eq in Hos1. injection Hos1 as <-.
  eexists _, _, _, _. split_and!; [reflexivity|apply lookup_insert_eq|reflexivity
    |apply lookup_insert_eq| | | |].
  - cbn [put records id]. apply lookup_insert_eq.
  - eapply entriesUnder_present. cbn [put records id]. apply lookup_insert_eq.
  - cbn [put records id]. rewrite Hkey, insert_insert_eq. by rewrite !map_size_insert.
  - unfold storeShares, ensureReady. rewrite Hdb. cbn [length].
    change (Z.of_nat 2 =? 0) with false. cbn match.
    apply transaction_Ok in Hos. rewrite Hos. cbn [foldl]. f_equal.
    unfold withDB, commit. cbn [window db]. f_equal. f_equal.
    rewrite insert_insert_eq. f_equal.
    unfold put. cbn [indexes records id]. f_equal.
    rewrite Hkey. by rewrite !insert_insert_eq.
Qed.

Lemma storeShares_overwrites_witness :
  exists d2 os2,
    db afterShareB = Some d2 /\ d2 !! "shares" = Some os2 /\
    entriesUnder "share_https://mini.p2pool.observer_90_t1" os2 = 1%nat /\
    data <$> records os2 !! "share_https://mini.p2pool.observer_90_t1"
      = Some (ShareData (shareOf "t1" 90 "B")).
Proof.
  destruct (storeShares_overwrites observer (shareOf "t1" 90 "A") (shareOf "t1" 90 "B")
              1000 2000 openedCache afterShareA afterShareB)
    as (_ & d1 & os1 & d2 & os2 & _ & _ & Hd2 & Hos2 & Hlast & Hone & _);
    [reflexivity|reflexivity|vm_compute; reflexivity|vm_compute; reflexivity|].
  exists d2, os2. split_and!; [exact Hd2|exact Hos2|exact Hone|].
  change "share_https://mini.p2pool.observer_90_t1"
    with (shareKey observer (shareOf "t1" 90 "B")).
  by rewrite Hlast.
Defined.




Lemma sharesSchema_no_miner_index (d : DB) (os : ObjectStore) (st : Storage) :
  sharesSchema st -> db st = Some d -> d !! "shares" = Some os ->
  index os "miner_address" = Err NotFoundError.
Proof.
  intros Hschema Hdb Hos.
  assert (indexes os = [("timestamp", "timestamp"); ("apiUrl", "apiUrl")]) as Hidx.
  { apply (Hschema d); [done|]. unfold schemaOf. by rewrite lookup_fmap, Hos. }
  unfold index. by rewrite Hidx.
Qed.

(** C10. On a database whose shares store has the indexes [upgrade]
    creates ([timestamp] and [apiUrl]), [getSharesByMiner] never returns:
    it throws, [NotFoundError] from [index('miner_address')] when the
    database is open. So the query function of the miner shares never
    serves cached data: whatever it returns is what the network call has
    just returned, and when writing that to the cache fails, it fails. *)
Theorem getSharesByMiner_always_throws (apiUrl address : string) (limit : Z)
    (direct : list SideBlock) (now : Z) (st : Storage) :
  sharesSchema st ->
  (exists e, getSharesByMiner apiUrl address limit st = Err e) /\
  (forall d os, db st = Some d -> d !! "shares" = Some os ->
                getSharesByMiner apiUrl address limit st = Err NotFoundError) /\
  (forall cached st',
      Dashboard.minerSharesQueryFn apiUrl address limit direct now st = (Ok cached, st') ->
      cached = ShareData <$> direct /\ storeShares apiUrl direct now st = Ok st') /\
  (forall e, storeShares apiUrl direct now st = Err e ->
             exists e', (Dashboard.minerSharesQueryFn apiUrl address limit direct now st).1
                        = Err e').
Proof.
  intros Hschema.
  assert (forall d os, db st = Some d -> d !! "shares" = Some os ->
                       getSharesByMiner apiUrl address limit st = Err NotFoundError) as Hopen.
  { intros d os Hdb Hos. unfold getSharesByMiner, ensureReady. rewrite Hdb.
    pose proof (sharesSchema_no_miner_index d os st Hschema Hdb Hos) as Hidx.
    apply transaction_Ok in Hos. by rewrite Hos, Hidx. }
  assert (exists e, getSharesByMiner apiUrl address limit st = Err e) as [e He].
  { destruct (db st) as [d|] eqn:Hdb.
    - destruct (d !! "shares") as [os|] eqn:Hos; [by eauto|].
      unfold getSharesByMiner, ensureReady, transaction. rewrite Hdb, Hos. eauto.
    - unfold getSharesByMiner, ensureReady. rewrite Hdb. eauto. }
  split_and!; [by eauto|exact Hopen| |].
  - intros cached st'. unfold Dashboard.minerSharesQueryFn.
    destruct (String.eqb address ""); [done|].
    destruct (storeShares apiUrl direct now st); [by intros [= <- <-]|].
    by rewrite He.
  - intros e0 Hfail. unfold Dashboard.minerSharesQueryFn.
    destruct (String.eqb address ""); [by eauto|].
    rewrite Hfail, He. eauto.
Qed.

Lemma getSharesByMiner_always_throws_witness :
  sharesSchema afterShareA /\
  getSharesByMiner observer "A" 30 afterShareA = Err NotFoundError.
Proof.
  assert (sharesSchema afterShareA) as Hschema.
  { intros d idx [= <-]. vm_compute. by intros [= <-]. }
  split; [exact Hschema|].
  destruct (getSharesByMiner_always_throws observer "A" 30 [] 3000 afterShareA Hschema)
    as (_ & Hopen & _).
  eapply Hopen; vm_compute; reflexivity.
Defined.
End StorageClaims.

Section CleanupLemmas.
Import P2PoolAPI P2PoolStorage.

Lemma insertBy_Permutation {A} (leb : A -> A -> bool) (x : A) (l : list A) :
  insertBy leb x l ≡ₚ x :: l.
Proof.
  induction l as [|y l IH]; [done|]. cbn. case_match; [done|].
  rewrite IH. apply Permutation_swap.
Qed.

Lemma sortBy_Permutation {A} (leb : A -> A -> bool) (l : list A) : sortBy leb l ≡ₚ l.
Proof.
  induction l as [|x l IH]; [done|]. cbn [sortBy foldr].
  fold (sortBy leb l). by rewrite insertBy_Permutation, IH.
Qed.

Lemma elem_of_List_filter {A} (f : A -> bool) (l : list A) (x : A) :
  x ∈ List.filter f l <-> x ∈ l /\ f x = true.
Proof. rewrite !list_elem_of_In. apply filter_In. Qed.

(** The cursor of [cleanup] ranges over the records written at or
    before the cutoff. *)
Lemma indexEntries_timestamp (cutoff : Z) (recs : gmap string StoredData)
    (pk : string) (r : StoredData) :
  (pk, r) ∈ indexEntries "timestamp" (upperBound (KNum cutoff)) recs
  <-> recs !! pk = Some r /\ timestamp r <= cutoff.
Proof.
  unfold indexEntries. rewrite list_elem_of_fmap. split.
  - intros ([k [pk0 r0]] & Heq & Hin). cbn in Heq. injection Heq as -> ->.
    rewrite sortBy_Permutation in Hin.
    apply elem_of_List_filter in Hin as [Hin Hrange].
    apply list_elem_of_omap in Hin as ([pk' r'] & Hkv & Hkey).
    cbn in Hkey. injection Hkey as <- <- <-. cbn in Hrange.
    split; [by apply elem_of_map_to_list|lia].
  - intros [Hr Hts]. exists (KNum (timestamp r), (pk, r)). split; [done|].
    rewrite sortBy_Permutation. apply elem_of_List_filter. split; [|cbn; lia].
    apply list_elem_of_omap. exists (pk, r). split; [by apply elem_of_map_to_list|done].
Qed.

Lemma cursorLoop_indexes (pending : list (string * StoredData)) (os : ObjectStore) (n : Z) :
  indexes (cursorLoop pending os n).1 = indexes os.
Proof.
  revert os n. induction pending as [|[pk r] pending IH]; intros os n; [done|].
  cbn [cursorLoop]. by rewrite IH.
Qed.

Lemma cursorLoop_records (pending : list (string * StoredData)) (os : ObjectStore) (n : Z)
    (pk : string) :
  records (cursorLoop pending os n).1 !! pk
    = if decide (pk ∈ pending.*1) then None else records os !! pk.
Proof.
  revert os n. induction pending as [|[pk' r] pending IH]; intros os n.
  - cbn. by rewrite decide_False by apply not_elem_of_nil.
  - cbn [cursorLoop]. rewrite IH. cbn [records fmap list_fmap fst].
    destruct (decide (pk = pk')) as [->|Hne].
    + rewrite lookup_delete_eq. rewrite (decide_True (P := pk' ∈ pk' :: _)).
      * by case_decide.
      * apply elem_of_cons. by left.
    + rewrite lookup_delete_ne by done.
      destruct (decide (pk ∈ pending.*1)) as [Hin|Hnin].
      * rewrite decide_True; [done|]. apply elem_of_cons. by right.
      * rewrite decide_False; [done|]. rewrite elem_of_cons. by intros [?|?].
Qed.

(** Walking the cursor over the expired records of a partition removes
    exactly those. *)
Lemma cursorLoop_purges (now retention : Z) (k : StoreKey) (os : ObjectStore) (n : Z) :
  RETENTION_PERIODS k = Some retention ->
  (cursorLoop (indexEntries "timestamp" (upperBound (KNum (now - retention))) (records os))
              os n).1 = purge now k os.
Proof.
  intros Hret.
  set (pending := indexEntries _ _ _).
  assert (forall pk, records (cursorLoop pending os n).1 !! pk
                     = records (purge now k os) !! pk) as Hrecs.
  { intros pk. rewrite cursorLoop_records. cbn [purge records].
    apply option_eq. intros r. rewrite map_lookup_filter_Some. cbn [snd].
    unfold expired. rewrite Hret. rewrite Z.leb_gt.
    destruct (decide (pk ∈ pending.*1)) as [Hin|Hnin].
    - apply list_elem_of_fmap in Hin as ([pk' r'] & -> & Hin). cbn [fst].
      apply indexEntries_timestamp in Hin as [Hr Hts].
      split; [done|]. intros [Hr' ?]. rewrite Hr in Hr'. injection Hr' as <-. lia.
    - split; [|by intros [? _]]. intros Hr. split; [done|].
      destruct (Z_lt_le_dec (now - retention) (timestamp r)) as [?|Hle]; [done|].
      exfalso. apply Hnin. apply list_elem_of_fmap. exists (pk, r).
      split; [done|]. by apply indexEntries_timestamp. }
  pose proof (cursorLoop_indexes pending os n) as Hidx.
  destruct (cursorLoop pending os n).1 as [idx recs]. cbn in *. subst idx.
  unfold purge. f_equal. by apply map_eq.
Qed.
End CleanupLemmas.

Section CleanupClaims.
Import P2PoolAPI P2PoolStorage.

Lemma STORES_keys :
  STORES = (fun k => (k, storeNameOf k))
             <$> [POOL_INFO; MINER_INFO; SHARES; BLOCKS; PAYOUTS; METADATA].
Proof. reflexivity. Qed.

Lemma storeNameOf_inj (k1 k2 : StoreKey) : storeNameOf k1 = storeNameOf k2 -> k1 = k2.
Proof. by destruct k1, k2. Qed.

Lemma purge_lookup (now : Z) (k : StoreKey) (os : ObjectStore) (pk : string) (r : StoredData) :
  records (purge now k os) !! pk = Some r
  <-> records os !! pk = Some r /\ expired now k r = false.
Proof. cbn [purge records]. by rewrite map_lookup_filter_Some. Qed.

Lemma purge_nothing (now : Z) (k : StoreKey) (os : ObjectStore) :
  (forall pk r, records os !! pk = Some r -> expired now k r = false) ->
  purge now k os = os.
Proof.
  intros Hnone. destruct os as [idx recs]. unfold purge. cbn [indexes records] in *.
  f_equal. apply map_filter_id. intros pk r Hr. cbn. by eapply Hnone.
Qed.

Lemma not_holdsExpired (now : Z) (d : DB) (k : StoreKey) (os : ObjectStore) :
  d !! storeNameOf k = Some os -> ~ holdsExpired now d k ->
  forall pk r, records os !! pk = Some r -> expired now k r = false.
Proof.
  intros Hos Hnot pk r Hr. destruct (expired now k r) eqn:Hexp; [|done].
  exfalso. apply Hnot. by exists os, pk, r.
Qed.

(** One partition: either nothing is old enough and the loop over the
    stores goes on, or the cursor deletes what is old enough and the
    iteration ends with the exception of the exhausted cursor. *)
Lemma cleanStore_spec (now : Z) (d : DB) (k : StoreKey) (os : ObjectStore) (n : Z) :
  k <> METADATA -> d !! storeNameOf k = Some os ->
  index os "timestamp" = Ok "timestamp" ->
  (cleanStore k (storeNameOf k) now d n = inr (d, n) /\ ~ holdsExpired now d k) \/
  (cleanStore k (storeNameOf k) now d n
     = inl (commit (storeNameOf k) (purge now k os) d, InvalidStateError) /\
   holdsExpired now d k).
Proof.
  intros Hk Hos Hidx. unfold cleanStore.
  assert (String.eqb (storeNameOf k) (storeNameOf METADATA) = false) as ->.
  { by destruct k. }
  assert (exists retention, RETENTION_PERIODS k = Some retention) as [retention Hret].
  { destruct k; cbn; by eauto. }
  rewrite Hret. pose proof Hos as Htx. apply transaction_Ok in Htx. rewrite Htx, Hidx.
  pose proof (cursorLoop_purges now retention k os n Hret) as Hpurge.
  pose proof (indexEntries_timestamp (now - retention) (records os)) as Hentries.
  destruct (indexEntries "timestamp" (upperBound (KNum (now - retention))) (records os))
    as [|[pk r] pending].
  - left. split; [done|]. intros (os' & pk & r & Hos' & Hr & Hexp).
    rewrite Hos in Hos'. injection Hos' as <-.
    unfold expired in Hexp. rewrite Hret in Hexp. apply Z.leb_le in Hexp.
    assert ((pk, r) ∈ @nil (string * StoredData)) as Hin by by apply Hentries.
    by apply not_elem_of_nil in Hin.
  - right. destruct (cursorLoop _ os n) as [os' n']. cbn [fst] in Hpurge. subst os'.
    split; [done|]. exists os, pk, r.
    destruct (Hentries pk r) as [[Hr Hts] _]; [apply elem_of_cons; by left|].
    split_and!; [done..|]. unfold expired. rewrite Hret. by apply Z.leb_le.
Qed.

Lemma cleanStores_spec (now : Z) (d : DB) (ks : list StoreKey) (n : Z) :
  cleanable d ->
  match cleanStores ((fun k => (k, storeNameOf k)) <$> ks) now d n with
  | inr (d', _) => d' = d /\ forall k, k ∈ ks -> ~ holdsExpired now d k
  | inl (d', _) =>
      exists k os,
        k <> METADATA /\ d !! storeNameOf k = Some os /\ holdsExpired now d k /\
        d' = commit (storeNameOf k) (purge now k os) d
  end.
Proof.
  intros Hclean. revert n. induction ks as [|k ks IH]; intros n.
  - cbn. split; [done|]. intros k Hk. by apply not_elem_of_nil in Hk.
  - cbn [fmap list_fmap cleanStores].
    destruct (decide (k = METADATA)) as [->|Hk].
    + change (cleanStore METADATA (storeNameOf METADATA) now d n) with (@inr (DB * string) _ (d, n)).
      cbn match. specialize (IH n).
      destruct (cleanStores _ now d n) as [[d' e]|[d' n']]; [done|].
      destruct IH as [-> Hnone]. split; [done|]. intros k [->|?]%elem_of_cons; [|by auto].
      intros (os & pk & r & _ & _ & Hexp). by cbn in Hexp.
    + destruct (Hclean k Hk) as (os & Hos & Hidx).
      destruct (cleanStore_spec now d k os n Hk Hos Hidx) as [[-> Hnot]|[-> Hexp]].
      * specialize (IH n). destruct (cleanStores _ now d n) as [[d' e]|[d' n']]; [done|].
        destruct IH as [-> Hnone]. split; [done|].
        intros k' [->|?]%elem_of_cons; by auto.
      * exists k, os. done.
Qed.

Lemma store_metadata_other (payload : Payload) (now : Z) (st st' : Storage) (d d' : DB)
    (k : StoreKey) :
  k <> METADATA -> db st = Some d ->
  store "metadata" "global" payload now st = Ok st' -> db st' = Some d' ->
  d' !! storeNameOf k = d !! storeNameOf k.
Proof.
  intros Hk Hdb Hstore Hdb'.
  apply store_Ok in Hstore as (d0 & os & Hdb0 & _ & ->).
  rewrite Hdb in Hdb0. injection Hdb0 as <-. cbn in Hdb'. injection Hdb' as <-.
  unfold commit. apply lookup_insert_ne. by destruct k.
Qed.

(** What a run of [cleanup] does to the partitions: nothing if none
    holds an expired entry; otherwise it purges the first partition (in
    the order of [STORES]) that does, and leaves the others as they
    are. *)
Lemma cleanup_cases (now : Z) (st : Storage) (d : DB) :
  db st = Some d -> cleanable d ->
  exists st' d',
    cleanup now st = Ok st' /\ db st' = Some d' /\
    ((forall k, k <> METADATA -> d' !! storeNameOf k = d !! storeNameOf k) /\
     (forall k, ~ holdsExpired now d k)
     \/
     exists k os,
       k <> METADATA /\ d !! storeNameOf k = Some os /\ holdsExpired now d k /\
       d' !! storeNameOf k = Some (purge now k os) /\
       forall k', k' <> k -> d' !! storeNameOf k' = d !! storeNameOf k').
Proof.
  intros Hdb Hclean. unfold cleanup, ensureReady. rewrite Hdb, STORES_keys.
  pose proof (cleanStores_spec now d
                [POOL_INFO; MINER_INFO; SHARES; BLOCKS; PAYOUTS; METADATA] 0 Hclean) as Hspec.
  destruct (cleanStores _ now d 0) as [[d' e]|[d' n']].
  - destruct Hspec as (k & os & Hk & Hos & Hexp & ->).
    eexists _, _. split_and!; [reflexivity..|]. right. exists k, os.
    split_and!; [done..|apply lookup_insert_eq|].
    intros k' Hk'. apply lookup_insert_ne. intros ?%storeNameOf_inj. done.
  - destruct Hspec as [-> Hnone].
    assert (forall k, ~ holdsExpired now d k) as Hall.
    { intros k. apply Hnone. destruct k; set_solver. }
    destruct (calculateStorageSize d) as [total|?].
    + destruct (store "metadata" "global" _ now (withDB st d)) as [st''|?] eqn:Hstore.
      * pose proof Hstore as Hshape. apply store_Ok in Hshape as (d0 & os & _ & _ & ->).
        eexists _, _. split_and!; [reflexivity..|]. left. split; [|done].
        intros k Hk. eapply store_metadata_other; [exact Hk| |exact Hstore|]; done.
      * eexists _, _. split_and!; [reflexivity..|]. by left.
    + eexists _, _. split_and!; [reflexivity..|]. by left.
Qed.

(** C8 (as the code has it). On a database with the partitions and
    indexes [upgrade] creates, [cleanup] keeps, in every partition other
    than metadata, every entry younger than the retention period of its
    partition, and deletes only entries whose write timestamp is at or
    before [now - retention]; the bound is inclusive. When at most one
    partition holds entries that old, it deletes exactly those: with a
    shares retention of 30 days, an entry written 31 days ago is removed,
    as is one written exactly 30 days ago, and one written 29 days ago is
    kept. *)
Theorem cleanup_retention (now : Z) (st : Storage) (d : DB) :
  db st = Some d -> cleanable d ->
  exists st' d',
    cleanup now st = Ok st' /\ db st' = Some d' /\
    (forall k os, k <> METADATA -> d !! storeNameOf k = Some os ->
       exists os', d' !! storeNameOf k = Some os' /\
         (forall pk r, records os !! pk = Some r -> expired now k r = false ->
                       records os' !! pk = Some r) /\
         (forall pk r, records os' !! pk = Some r -> records os !! pk = Some r)) /\
    (atMostOneExpired now d ->
       (forall k os, k <> METADATA -> d !! storeNameOf k = Some os ->
          d' !! storeNameOf k = Some (purge now k os)) /\
       (forall os pk r, d !! "shares" = Some os -> records os !! pk = Some r ->
          (timestamp r = now - 31 * day -> recordsOf st' "shares" !! pk = None) /\
          (timestamp r = now - 30 * day -> recordsOf st' "shares" !! pk = None) /\
          (timestamp r = now - 29 * day -> recordsOf st' "shares" !! pk = Some r))).
Proof.
  intros Hdb Hclean.
  destruct (cleanup_cases now st d Hdb Hclean) as (st' & d' & Hrun & Hdb' & Hcases).
  exists st', d'. split_and!; [done..| |].
  - intros k os Hk Hos. destruct Hcases as [[Hsame _]|(k0 & os0 & _ & Hos0 & _ & Hpurged & Hother)].
    + exists os. rewrite Hsame by done. done.
    + destruct (decide (k = k0)) as [->|Hne].
      * rewrite Hos in Hos0. injection Hos0 as <-. exists (purge now k0 os).
        split_and!; [done| |].
        -- intros pk r Hr Hyoung. by apply purge_lookup.
        -- intros pk r Hr. by apply purge_lookup in Hr as [? _].
      * exists os. rewrite Hother by done. done.
  - intros Hone.
    assert (forall k os, k <> METADATA -> d !! storeNameOf k = Some os ->
              d' !! storeNameOf k = Some (purge now k os)) as Hexact.
    { intros k os Hk Hos.
      destruct Hcases as [[Hsame Hnone]|(k0 & os0 & _ & Hos0 & Hexp0 & Hpurged & Hother)].
      - rewrite Hsame, Hos by done. f_equal. symmetry. apply purge_nothing.
        by eapply not_holdsExpired.
      - destruct (decide (k = k0)) as [->|Hne].
        { rewrite Hos in Hos0. by injection Hos0 as <-. }
        rewrite Hother, Hos by done. f_equal. symmetry. apply purge_nothing.
        eapply not_holdsExpired; [done|]. intros Hexp. by apply Hne, Hone. }
    split; [exact Hexact|]. intros os pk r Hos Hr.
    specialize (Hexact SHARES os). cbn [storeNameOf] in Hexact.
    unfold recordsOf. rewrite Hdb', Hexact by done.
    split_and!; intros Hts.
    + apply eq_None_not_Some. intros [r' [Hr' Hyoung]%purge_lookup].
      rewrite Hr in Hr'. injection Hr' as <-.
      unfold expired in Hyoung. cbn in Hyoung. apply Z.leb_gt in Hyoung. unfold day in *. lia.
    + apply eq_None_not_Some. intros [r' [Hr' Hyoung]%purge_lookup].
      rewrite Hr in Hr'. injection Hr' as <-.
      unfold expired in Hyoung. cbn in Hyoung. apply Z.leb_gt in Hyoung. unfold day in *. lia.
    + apply purge_lookup. split; [done|]. unfold expired. cbn.
      apply Z.leb_gt. unfold day in *. lia.
Qed.

Lemma agedDB_cleanable : cleanable agedDB.
Proof.
  intros k Hk.
  destruct k; [..|done];
    (destruct (agedDB !! _) as [os|] eqn:Hos;
     [exists os; split; [done|]; vm_compute in Hos; injection Hos as <-; reflexivity
     |vm_compute in Hos; discriminate]).
Defined.

Lemma agedDB_only_shares (now : Z) (k : StoreKey) : holdsExpired now agedDB k -> k = SHARES.
Proof.
  intros (os & pk & r & Hos & Hr & Hexp).
  destruct k; [| |done| | |by cbn in Hexp];
    vm_compute in Hos; injection Hos as <-; vm_compute in Hr; discriminate.
Defined.

Lemma cleanup_retention_witness :
  let after := orElse (cleanup (31 * day) agedCache) agedCache in
  recordsOf after "shares" !! shareKey observer (shareOf "t1" 90 "A") = None /\
  timestamp <$> recordsOf after "shares" !! shareKey observer (shareOf "t2" 95 "A")
    = Some (2 * day).
Proof.
  destruct (cleanup_retention (31 * day) agedCache agedDB eq_refl agedDB_cleanable)
    as (st' & d' & Hrun & _ & _ & Hexact).
  destruct Hexact as [_ Hshares].
  { intros k1 k2 H1%agedDB_only_shares H2%agedDB_only_shares. congruence. }
  intros after. subst after. rewrite Hrun. cbn [orElse].
  assert (agedDB !! "shares" = Some agedShares) as Hos by (vm_compute; reflexivity).
  destruct (Hshares agedShares (shareKey observer (shareOf "t1" 90 "A"))
              {| id := shareKey observer (shareOf "t1" 90 "A");
                 data := ShareData (shareOf "t1" 90 "A");
                 timestamp := 0; lastAccessed := 0 |} Hos) as (Hold & _ & _);
    [vm_compute; reflexivity|].
  destruct (Hshares agedShares (shareKey observer (shareOf "t2" 95 "A"))
              {| id := shareKey observer (shareOf "t2" 95 "A");
                 data := ShareData (shareOf "t2" 95 "A");
                 timestamp := 2 * day; lastAccessed := 2 * day |} Hos) as (_ & _ & Hyoung);
    [vm_compute; reflexivity|].
  split.
  - apply Hold. vm_compute. reflexivity.
  - rewrite Hyoung; [reflexivity|]. vm_compute. reflexivity.
Defined.

(** C8, as stated, fails at the boundary: a share written exactly 30
    days ago is not older than the retention period, and [cleanup]
    deletes it. *)
Lemma cleanup_deletes_at_the_boundary :
  timestamp <$> recordsOf agedCache "shares" !! shareKey observer (shareOf "t1" 90 "A")
    = Some 0 /\
  ~ (30 * day - 0 > 30 * day) /\
  recordsOf (orElse (cleanup (30 * day) agedCache) agedCache) "shares"
    !! shareKey observer (shareOf "t1" 90 "A") = None.
Proof. split_and!; [by vm_compute|lia|by vm_compute]. Qed.

(** The cursor variable of [cleanup] is never reassigned: once a
    partition holds an expired entry, the loop over its cursor ends with
    the exception of the exhausted cursor, and the partitions after it are
    not visited in that run. Here the pool snapshot and the share are both
    past their retention; the run removes the snapshot and leaves the
    share, and a second run removes the share. *)
Example cleanup_stops_at_first_expired_partition :
  let once := orElse (cleanup (31 * day) agedCacheWithPool) agedCacheWithPool in
  let twice := orElse (cleanup (31 * day) once) once in
  recordsOf once "poolInfo" = ∅ /\
  timestamp <$> recordsOf once "shares" !! shareKey observer (shareOf "t1" 90 "A")
    = Some 0 /\
  recordsOf twice "shares" !! shareKey observer (shareOf "t1" 90 "A") = None.
Proof. by vm_compute. Qed.
End CleanupClaims.

Section DashboardClaims.
Import P2PoolAPI P2PoolStorage Dashboard.

Lemma foldl_max_ge (x : Z) (l : list Z) : x <= foldl Z.max x l.
Proof.
  revert x. induction l as [|y l IH]; intros x; [done|].
  cbn [foldl]. specialize (IH (Z.max x y)). lia.
Qed.

Lemma lastUpdate_withPoolInfo (q : Query Payload) (qs : Queries) :
  0 < dataUpdatedAt q ->
  exists t, lastUpdate (withPoolInfo q qs) = Some t /\ dataUpdatedAt q <= t.
Proof.
  intros Hpos. unfold lastUpdate. cbn [withPoolInfo poolInfoQuery List.filter].
  assert (negb (dataUpdatedAt q =? 0) = true) as ->.
  { apply negb_true_iff, Z.eqb_neq. lia. }
  eexists. split; [reflexivity|]. apply foldl_max_ge.
Qed.

Lemma error_withPoolInfo (q : Query Payload) (qs : Queries) (message : string) :
  qerror q = Some message ->
  error (withPoolInfo q qs)
    = Some (if String.eqb message "" then "Unknown error" else message).
Proof. intros Hq. unfold error. cbn [withPoolInfo poolInfoQuery omap]. by rewrite Hq. Qed.

(** C6 (as the code has it). The pool-info fetch fails at time [now] on
    an open cache. If the cache holds an entry for the URL, the query
    function resolves with the cached snapshot, so the query has that
    data, no error, and [dataUpdatedAt = now]: [lastUpdate] is at least
    the time of the failed refresh, not the write time of the entry
    (which stays as it was in the cache, and which the cache does not
    hand out). If the cache holds no entry, the query keeps its data and
    carries the failure, and [error] surfaces it. *)
Theorem poolInfo_fallback (apiUrl failure : string) (now : Z) (qs : Queries)
    (st : Storage) (d : DB) (os : ObjectStore) :
  window st = true -> db st = Some d -> d !! "poolInfo" = Some os -> 0 < now ->
  let after := refreshPoolInfo apiUrl (Err failure) now qs st in
  (forall entry,
      records os !! ("pool_" +:+ apiUrl) = Some entry ->
      qdata (poolInfoQuery after.1) = Some (data entry) /\
      qerror (poolInfoQuery after.1) = None /\
      dataUpdatedAt (poolInfoQuery after.1) = now /\
      (exists t, lastUpdate after.1 = Some t /\ now <= t) /\
      (timestamp entry < now -> lastUpdate after.1 <> Some (timestamp entry)) /\
      timestamp <$> recordsOf after.2 "poolInfo" !! ("pool_" +:+ apiUrl)
        = Some (timestamp entry)) /\
  (records os !! ("pool_" +:+ apiUrl) = None ->
      qdata (poolInfoQuery after.1) = qdata (poolInfoQuery qs) /\
      dataUpdatedAt (poolInfoQuery after.1) = dataUpdatedAt (poolInfoQuery qs) /\
      qerror (poolInfoQuery after.1) = Some failure /\
      error after.1 = Some (if String.eqb failure "" then "Unknown error" else failure) /\
      after.2 = st).
Proof.
  intros Hw Hdb Hos Hnow after. subst after.
  unfold refreshPoolInfo, poolInfoQueryFn, poolInfoFallback, getPoolInfo, retrieve, ensureReady.
  rewrite Hw, Hdb. cbn [negb]. pose proof Hos as Htx. apply transaction_Ok in Htx.
  rewrite Htx. split.
  - intros entry Hentry. rewrite Hentry. cbn [fst snd settle].
    destruct (lastUpdate_withPoolInfo
                {| qdata := Some (data entry); qerror := None; dataUpdatedAt := now |} qs)
      as (t & Ht & Hle); [done|].
    split_and!; [done..|by eauto| |].
    + intros Hold. rewrite Ht. intros [= ->]. cbn in Hle. lia.
    + unfold recordsOf, withDB, commit. cbn [db]. rewrite lookup_insert_eq.
      cbn [put records id]. rewrite lookup_insert. case_decide; [done|by rewrite Hentry].
  - intros Hnone. rewrite Hnone. cbn [fst snd settle].
    split_and!; [done..| |done]. by apply error_withPoolInfo.
Qed.

Lemma poolInfo_fallback_witness :
  let after := refreshPoolInfo observer (Err "Failed to fetch pool info: Failed to fetch")
                 21000 idleQueries pooledCache in
  qdata (poolInfoQuery after.1) = Some (PoolInfoData snapshot) /\
  qerror (poolInfoQuery after.1) = None /\
  dataUpdatedAt (poolInfoQuery after.1) = 21000.
Proof.
  destruct (poolInfo_fallback observer "Failed to fetch pool info: Failed to fetch" 21000
              idleQueries pooledCache
              (default ∅ (db pooledCache))
              (default {| indexes := []; records := ∅ |}
                       (default ∅ (db pooledCache) !! "poolInfo")))
    as [Hhit _]; [reflexivity|reflexivity|vm_compute; reflexivity|lia|].
  destruct (Hhit {| id := "pool_" +:+ observer; data := PoolInfoData snapshot;
                    timestamp := 1000; lastAccessed := 1000 |})
    as (Hdata & Herror & Hstamp & _); [vm_compute; reflexivity|].
  intros after. done.
Defined.

(** C6, as stated, fails: the snapshot was written at time 1000, the
    refresh fails at time 21000 (20 seconds later), and [lastUpdate] is
    21000, not 1000. *)
Lemma lastUpdate_is_the_refresh_time :
  let after := refreshPoolInfo observer (Err "Failed to fetch pool info: Failed to fetch")
                 21000 idleQueries pooledCache in
  timestamp <$> recordsOf pooledCache "poolInfo" !! ("pool_" +:+ observer) = Some 1000 /\
  qdata (poolInfoQuery after.1) = Some (PoolInfoData snapshot) /\
  error after.1 = None /\
  lastUpdate after.1 = Some 21000 /\
  lastUpdate after.1 <> Some 1000.
Proof. split_and!; [by vm_compute..|discriminate]. Qed.
End DashboardClaims.

(** ** The schema is fixed by [upgrade]

    The states C10 speaks of: a database created by [upgrade] has the shares
    schema, and no operation of the cache changes the indexes of a store. *)
Section Schema.
Import P2PoolAPI P2PoolStorage.

Lemma sharesSchema_upgrade (w : bool) :
  sharesSchema {| window := w; db := Some (upgrade ∅) |}.
Proof. intros d idx [= <-]. vm_compute. by intros [= <-]. Qed.

Lemma schemaOf_commit (d : DB) (name : string) (os os' : ObjectStore) :
  d !! name = Some os -> indexes os' = indexes os ->
  schemaOf (commit name os' d) = schemaOf d.
Proof.
  intros Hos Hidx. unfold schemaOf, commit. rewrite fmap_insert, Hidx.
  apply insert_id. by rewrite lookup_fmap, Hos.
Qed.

Lemma store_schema (name key : string) (payload : Payload) (now : Z)
    (st st' : Storage) (d d' : DB) :
  store name key payload now st = Ok st' -> db st = Some d -> db st' = Some d' ->
  schemaOf d' = schemaOf d.
Proof.
  intros (d0 & os & Hdb0 & Hos & ->)%store_Ok Hdb [= <-].
  rewrite Hdb in Hdb0. injection Hdb0 as <-. by apply schemaOf_commit_put.
Qed.

Lemma foldl_put_indexes {A} (f : A -> StoredData) (l : list A) (os : ObjectStore) :
  indexes (foldl (fun os x => put (f x) os) os l) = indexes os.
Proof. revert os. induction l as [|x l IH]; intros os; [done|]. cbn. by rewrite IH. Qed.

Lemma storeShares_schema (apiUrl : string) (shares : list SideBlock) (now : Z)
    (st st' : Storage) (d d' : DB) :
  storeShares apiUrl shares now st = Ok st' -> db st = Some d -> db st' = Some d' ->
  schemaOf d' = schemaOf d.
Proof.
  unfold storeShares, ensureReady. intros Hrun Hdb. rewrite Hdb in Hrun.
  destruct (Z.of_nat (length shares) =? 0).
  { injection Hrun as <-. rewrite Hdb. by intros [= <-]. }
  destruct (transaction d "shares") as [os|] eqn:Htx; [|done].
  apply transaction_Ok in Htx. injection Hrun as <-. intros [= <-].
  eapply schemaOf_commit; [done|].
  apply (foldl_put_indexes (fun share =>
           {| id := shareKey apiUrl share; data := ShareData share;
              timestamp := now; lastAccessed := now |})).
Qed.

Lemma cleanStore_schema (k : StoreKey) (name : string) (now : Z) (d : DB) (n : Z) :
  match cleanStore k name now d n with
  | inl (d', _) | inr (d', _) => schemaOf d' = schemaOf d
  end.
Proof.
  unfold cleanStore. destruct (String.eqb _ _); [done|].
  destruct (RETENTION_PERIODS k) as [retention|]; [|done].
  destruct (transaction d name) as [os|] eqn:Htx; [|done].
  destruct (index os "timestamp") as [keyPath|]; [|done].
  destruct (indexEntries _ _ _) as [|entry pending]; [done|].
  pose proof (cursorLoop_indexes (entry :: pending) os n) as Hidx.
  destruct (cursorLoop (entry :: pending) os n) as [os' n']. cbn [fst] in Hidx.
  apply transaction_Ok in Htx. by eapply schemaOf_commit.
Qed.

Lemma cleanStores_schema (entries : list (StoreKey * string)) (now : Z) (d : DB) (n : Z) :
  match cleanStores entries now d n with
  | inl (d', _) | inr (d', _) => schemaOf d' = schemaOf d
  end.
Proof.
  revert d n. induction entries as [|[k name] entries IH]; intros d n; [done|].
  cbn [cleanStores]. pose proof (cleanStore_schema k name now d n) as Hone.
  destruct (cleanStore k name now d n) as [[d1 e]|[d1 n1]]; [done|].
  specialize (IH d1 n1). destruct (cleanStores entries now d1 n1) as [[d2 e]|[d2 n2]];
    congruence.
Qed.

Lemma cleanup_schema (now : Z) (st st' : Storage) (d d' : DB) :
  cleanup now st = Ok st' -> db st = Some d -> db st' = Some d' ->
  schemaOf d' = schemaOf d.
Proof.
  unfold cleanup, ensureReady. intros Hrun Hdb. rewrite Hdb in Hrun.
  pose proof (cleanStores_schema STORES now d 0) as Hloop.
  destruct (cleanStores STORES now d 0) as [[d1 e]|[d1 n1]].
  - injection Hrun as <-. by intros [= <-].
  - destruct (calculateStorageSize d1); [|injection Hrun as <-; by intros [= <-]].
    destruct (store "metadata" "global" _ now (withDB st d1)) as [st''|] eqn:Hstore.
    + injection Hrun as <-. intros Hdb'.
      rewrite (store_schema _ _ _ _ _ _ d1 d' Hstore); done.
    + injection Hrun as <-. by intros [= <-].
Qed.
End Schema.


(* ================================================================== *)
(** * Further properties of the fetch client *)
(* ================================================================== *)

Section FetchClientMore.
Import P2PoolAPI.
Context {A : Type}.
Variable retryConfig : RetryConfig.
Variable env : Z -> FetchOutcome A.

Lemma tryFetch_Ok (n : Z) (response : Response A) :
  (tryFetch n (env n)).2 = Ok response -> env n = Resolved response /\ ok response = true.
Proof.
  unfold tryFetch. destruct (env n) as [r|m]; [|done].
  destruct (ok r) eqn:Hok; cbn [negb].
  - by intros [= ->].
  - by case_match.
Qed.

(** What the loop returns is what its last attempt did. *)
Lemma fetchLoop_result (l : list Z) (lastError : option string)
    (events : list Event) (final : Result (Response A)) :
  fetchLoop retryConfig env l lastError = (events, final) ->
  match final with
  | Ok response =>
      exists n, n ∈ l /\ (tryFetch n (env n)).2 = Ok response /\
                last (attemptsOf events) = Some n
  | Err message =>
      (l = [] /\ events = [] /\ message = default "Maximum retries exceeded" lastError) \/
      exists n, n ∈ l /\ (tryFetch n (env n)).2 = Err message /\
                last (attemptsOf events) = Some n
  end.
Proof.
  revert lastError events final. induction l as [|a l IH]; intros lastError events final.
  { cbn [fetchLoop]. intros [= <- <-]. by left. }
  cbn [fetchLoop]. destruct (tryFetch_quiet env a) as [_ Ha].
  destruct (tryFetch a (env a)) as [toasts [resp|msg]] eqn:Htry; cbn [fst snd] in *.
  - intros [= <- <-]. exists a. rewrite attemptsOf_cons, Ha.
    split_and!; [apply elem_of_cons; by left|by rewrite Htry|done].
  - destruct (negb (shouldRetry a retryConfig msg)).
    + intros [= <- <-]. right. exists a. rewrite attemptsOf_cons, attemptsOf_app, Ha.
      split_and!; [apply elem_of_cons; by left|by rewrite Htry|done].
    + destruct (fetchLoop retryConfig env l (Some msg)) as [events' final'] eqn:Hrest.
      intros [= <- <-]. specialize (IH _ _ _ Hrest).
      rewrite attemptsOf_cons, attemptsOf_app, Ha. cbn [app]. rewrite !attemptsOf_cons.
      destruct final' as [resp|msg'].
      * destruct IH as (n & Hn & Hres & Hlast). exists n.
        split_and!; [apply elem_of_cons; by right|done|].
        destruct (attemptsOf events'); [done|]. by rewrite last_cons, Hlast.
      * right. destruct IH as [(-> & -> & ->)|(n & Hn & Hres & Hlast)].
        -- exists a. split_and!; [apply elem_of_cons; by left|by rewrite Htry|done].
        -- exists n. split_and!; [apply elem_of_cons; by right|done|].
           destruct (attemptsOf events'); [done|]. by rewrite last_cons, Hlast.
Qed.

(** A run of retryable failures, then whatever the next attempt does. *)
Lemma fetchLoop_prefix (j : nat) (a : Z) (rest : list Z) (lastError : option string) :
  (forall n, a <= n < a + Z.of_nat j ->
     exists message, (tryFetch n (env n)).2 = Err message /\
                     shouldRetry n retryConfig message = true) ->
  exists lastError',
    let run := fetchLoop retryConfig env (seqZ a (Z.of_nat j) ++ rest) lastError in
    let tail := fetchLoop retryConfig env rest lastError' in
    attemptsOf run.1 = seqZ a (Z.of_nat j) ++ attemptsOf tail.1 /\
    sleepsOf run.1
      = ((fun n => calculateDelay n retryConfig) <$> seqZ a (Z.of_nat j)) ++ sleepsOf tail.1 /\
    run.2 = tail.2.
Proof.
  revert a lastError. induction j as [|j IH]; intros a lastError Hfail.
  { exists lastError. by rewrite seqZ_nil. }
  rewrite Nat2Z.inj_succ, seqZ_cons by lia.
  replace (Z.pred (Z.succ (Z.of_nat j))) with (Z.of_nat j) by lia.
  destruct (Hfail a) as (msg & Htry & Hretry); [lia|].
  destruct (IH (Z.succ a) (Some msg)) as (lastError' & Hatt & Hsleep & Hres).
  { intros n Hn. apply Hfail. lia. }
  exists lastError'. cbn [app fetchLoop fmap list_fmap].
  destruct (tryFetch_quiet env a) as [Hs Ha].
  destruct (tryFetch a (env a)) as [toasts tried]; cbn [fst snd] in *. subst tried.
  rewrite Hretry. cbn [negb].
  destruct (fetchLoop retryConfig env (seqZ (Z.succ a) (Z.of_nat j) ++ rest) (Some msg))
    as [events final]; cbn [fst snd] in *.
  rewrite attemptsOf_cons, attemptsOf_app, Ha, sleepsOf_cons, sleepsOf_app, Hs. cbn [app].
  rewrite !attemptsOf_cons, !sleepsOf_cons. by rewrite Hatt, Hsleep.
Qed.

(** On the attempts [a .. maxRetries + 1] the loop sleeps at most once per
    attempt but the last. *)
Lemma fetchLoop_sleeps_count (k : nat) (a : Z) (lastError : option string) :
  a + Z.of_nat k = maxRetries retryConfig + 2 ->
  (length (sleepsOf (fetchLoop retryConfig env (seqZ a (Z.of_nat k)) lastError).1)
   <= pred k)%nat.
Proof.
  revert a lastError. induction k as [|k IH]; intros a lastError Hk; [done|].
  rewrite Nat2Z.inj_succ, seqZ_cons by lia.
  replace (Z.pred (Z.succ (Z.of_nat k))) with (Z.of_nat k) by lia.
  cbn [fetchLoop]. destruct (tryFetch_quiet env a) as [Hs _].
  destruct (tryFetch a (env a)) as [toasts [resp|msg]]; cbn [fst snd] in *.
  - rewrite sleepsOf_cons, Hs. cbn. lia.
  - destruct (shouldRetry a retryConfig msg) eqn:Hretry; cbn [negb].
    + specialize (IH (Z.succ a) (Some msg)).
      destruct (fetchLoop retryConfig env (seqZ (Z.succ a) (Z.of_nat k)) (Some msg))
        as [events final]; cbn [fst] in *.
      rewrite sleepsOf_cons, sleepsOf_app, Hs. cbn [app]. rewrite !sleepsOf_cons.
      cbn [length pred]. destruct k as [|k].
      * unfold shouldRetry in Hretry. apply andb_true_iff in Hretry as [?%Z.leb_le _]. lia.
      * cbn [pred] in IH. specialize (IH ltac:(lia)). lia.
    + cbn [fst]. rewrite sleepsOf_cons, sleepsOf_app, Hs. cbn. lia.
Qed.

Lemma backoff_le_maxDelay (l : list Z) :
  0 <= maxDelay retryConfig ->
  foldr Z.add 0 (backoff retryConfig <$> l) <= Z.of_nat (length l) * maxDelay retryConfig.
Proof.
  intros Hmax. induction l as [|n l IH]; [done|].
  cbn [fmap list_fmap foldr length]. unfold backoff at 1. lia.
Qed.
End FetchClientMore.

Section FetchClientProperties.
Import P2PoolAPI.

Lemma seqZ_split_attempt (k total : Z) :
  1 <= k <= total ->
  seqZ 1 total = seqZ 1 (Z.of_nat (Z.to_nat (k - 1))) ++ k :: seqZ (k + 1) (total - k).
Proof.
  intros Hk. rewrite Z2Nat.id by lia.
  replace total with ((k - 1) + (total - k + 1)) at 1 by lia.
  rewrite seqZ_app by lia. f_equal. rewrite seqZ_cons by lia. f_equal; [lia|].
  f_equal; lia.
Qed.

(** X1. A response that [fetchWithRetry] returns is successful (status
    200 to 299) and is the response of the last attempt made. *)
Theorem fetchWithRetry_returns_ok_response {A} (retryConfig : RetryConfig)
    (env : Z -> FetchOutcome A) (events : list Event) (response : Response A) :
  fetchWithRetry retryConfig env = (events, Ok response) ->
  200 <= status response <= 299 /\
  exists n, 1 <= n <= maxRetries retryConfig + 1 /\ env n = Resolved response /\
            last (attemptsOf events) = Some n.
Proof.
  intros Hrun. apply fetchLoop_result in Hrun as (n & Hn & Htry & Hlast).
  apply tryFetch_Ok in Htry as [Henv Hok]. apply elem_of_seqZ in Hn.
  unfold ok in Hok. apply andb_true_iff in Hok as [?%Z.leb_le ?%Z.leb_le].
  split; [lia|]. exists n. split_and!; [lia..|done|done].
Qed.

Lemma fetchWithRetry_returns_ok_response_witness :
  exists n, 1 <= n <= 4 /\
            last (attemptsOf (fetchWithRetry DEFAULT_RETRY_CONFIG recoversAtThird).1) = Some n.
Proof.
  destruct (fetchWithRetry_returns_ok_response DEFAULT_RETRY_CONFIG recoversAtThird
              (fetchWithRetry DEFAULT_RETRY_CONFIG recoversAtThird).1
              {| status := 200; statusText := "OK"; body := JOther |})
    as (_ & n & Hn & _ & Hlast); [vm_compute; reflexivity|].
  exists n. split; [exact Hn|exact Hlast].
Defined.

(** X2. If the attempts before attempt [k] fail with errors the policy
    retries and attempt [k] gets a successful response, the call returns
    that response after exactly [k] attempts, having slept the backoff of
    each failed attempt. *)
Theorem fetchWithRetry_recovers {A} (retryConfig : RetryConfig)
    (env : Z -> FetchOutcome A) (k : Z) (response : Response A) :
  1 <= k <= maxRetries retryConfig + 1 ->
  (forall n, 1 <= n < k ->
     exists message, (tryFetch n (env n)).2 = Err message /\
                     retryable retryConfig message = true) ->
  env k = Resolved response -> ok response = true ->
  let run := fetchWithRetry retryConfig env in
  run.2 = Ok response /\
  attemptsOf run.1 = seqZ 1 k /\
  sleepsOf run.1 = (fun n => calculateDelay n retryConfig) <$> seqZ 1 (k - 1).
Proof.
  intros Hk Hfail Henv Hok run. subst run. unfold fetchWithRetry.
  rewrite (seqZ_split_attempt k) by done.
  destruct (fetchLoop_prefix retryConfig env (Z.to_nat (k - 1)) 1
              (k :: seqZ (k + 1) (maxRetries retryConfig + 1 - k)) None)
    as (lastError' & Hatt & Hsleep & Hres).
  { intros n Hn. destruct (Hfail n) as (msg & Htry & Hretry); [lia|].
    exists msg. split; [done|]. unfold shouldRetry. apply andb_true_iff.
    split; [apply Z.leb_le; lia|done]. }
  cbn zeta in *. rewrite Hres, Hatt, Hsleep. cbn [fetchLoop].
  unfold tryFetch. rewrite Henv, Hok. cbn [negb fst snd].
  rewrite attemptsOf_cons, sleepsOf_cons.
  assert (forall l : list Event, l = [] \/ (exists t, l = [Toast ToastSuccess t]) ->
            attemptsOf l = [] /\ sleepsOf l = []) as Hquiet.
  { intros l [->|[t ->]]; done. }
  destruct (Hquiet (if 1 <? k then [Toast ToastSuccess "API Request Recovered"] else []))
    as [-> ->]; [case_match; eauto|].
  rewrite Z2Nat.id by lia. split_and!; [done| |by rewrite app_nil_r].
  replace k with ((k - 1) + 1) at 3 by lia. rewrite seqZ_app by lia.
  f_equal. rewrite seqZ_cons, seqZ_nil by lia. f_equal. lia.
Qed.

Lemma fetchWithRetry_recovers_witness :
  attemptsOf (fetchWithRetry DEFAULT_RETRY_CONFIG recoversAtThird).1 = [1; 2; 3] /\
  sleepsOf (fetchWithRetry DEFAULT_RETRY_CONFIG recoversAtThird).1 = [1000; 2000].
Proof.
  destruct (fetchWithRetry_recovers DEFAULT_RETRY_CONFIG recoversAtThird 3
              {| status := 200; statusText := "OK"; body := JOther |})
    as (_ & Hatt & Hsleep); [cbn; lia| |reflexivity|reflexivity|].
  - intros n Hn. exists "Failed to fetch".
    assert (n = 1 \/ n = 2) as [->| ->] by lia; split; reflexivity.
  - split; [exact Hatt|exact Hsleep].
Defined.

(** X3. The first error that the policy does not retry ends the call:
    if the attempts before attempt [k] fail retryably and attempt [k]
    fails with an error the retry predicate rejects, the call fails with
    that error after exactly [k] attempts. *)
Theorem fetchWithRetry_stops_on_rejected_error {A} (retryConfig : RetryConfig)
    (env : Z -> FetchOutcome A) (k : Z) (message : string) :
  1 <= k <= maxRetries retryConfig + 1 ->
  (forall n, 1 <= n < k ->
     exists m, (tryFetch n (env n)).2 = Err m /\ retryable retryConfig m = true) ->
  (tryFetch k (env k)).2 = Err message -> retryable retryConfig message = false ->
  let run := fetchWithRetry retryConfig env in
  run.2 = Err message /\
  attemptsOf run.1 = seqZ 1 k /\
  sleepsOf run.1 = (fun n => calculateDelay n retryConfig) <$> seqZ 1 (k - 1).
Proof.
  intros Hk Hfail Htry Hreject run. subst run. unfold fetchWithRetry.
  rewrite (seqZ_split_attempt k) by done.
  destruct (fetchLoop_prefix retryConfig env (Z.to_nat (k - 1)) 1
              (k :: seqZ (k + 1) (maxRetries retryConfig + 1 - k)) None)
    as (lastError' & Hatt & Hsleep & Hres).
  { intros n Hn. destruct (Hfail n) as (msg & Htry' & Hretry); [lia|].
    exists msg. split; [done|]. unfold shouldRetry. apply andb_true_iff.
    split; [apply Z.leb_le; lia|done]. }
  cbn zeta in *. rewrite Hres, Hatt, Hsleep. cbn [fetchLoop].
  destruct (tryFetch_quiet env k) as [Hs Ha].
  destruct (tryFetch k (env k)) as [toasts tried]; cbn [fst snd] in *. subst tried.
  assert (shouldRetry k retryConfig message = false) as ->.
  { unfold shouldRetry. apply andb_false_intro2. exact Hreject. }
  cbn [negb fst snd].
  rewrite attemptsOf_cons, attemptsOf_app, Ha, sleepsOf_cons, sleepsOf_app, Hs.
  rewrite Z2Nat.id by lia. split_and!; [done| |by rewrite app_nil_r].
  replace k with ((k - 1) + 1) at 3 by lia. rewrite seqZ_app by lia.
  f_equal. rewrite seqZ_cons, seqZ_nil by lia. f_equal. lia.
Qed.

Lemma fetchWithRetry_stops_on_rejected_error_witness :
  (fetchWithRetry DEFAULT_RETRY_CONFIG (always 404 "Not Found")).2
    = Err "HTTP 404: Not Found" /\
  attemptsOf (fetchWithRetry DEFAULT_RETRY_CONFIG (always 404 "Not Found")).1 = [1].
Proof.
  destruct (fetchWithRetry_stops_on_rejected_error DEFAULT_RETRY_CONFIG
              (always 404 "Not Found") 1 "HTTP 404: Not Found")
    as (Hres & Hatt & _); [cbn; lia|intros n Hn; lia|reflexivity|reflexivity|].
  split; [exact Hres|exact Hatt].
Defined.

(** X4. A policy with a negative [maxRetries] makes no attempt at all and
    fails with 'Maximum retries exceeded'; a policy with [maxRetries = 0]
    makes exactly one attempt and never sleeps. *)
Theorem fetchWithRetry_few_retries {A} (retryConfig : RetryConfig)
    (env : Z -> FetchOutcome A) :
  (maxRetries retryConfig < 0 ->
     fetchWithRetry retryConfig env = ([], Err "Maximum retries exceeded")) /\
  (maxRetries retryConfig = 0 ->
     attemptsOf (fetchWithRetry retryConfig env).1 = [1] /\
     sleepsOf (fetchWithRetry retryConfig env).1 = []).
Proof.
  split.
  - intros Hneg. unfold fetchWithRetry. by rewrite seqZ_nil by lia.
  - intros Hzero. unfold fetchWithRetry. rewrite Hzero. change (seqZ 1 (0 + 1)) with [1].
    cbn [fetchLoop]. destruct (tryFetch_quiet env 1) as [Hs Ha].
    destruct (tryFetch 1 (env 1)) as [toasts [resp|msg]]; cbn [fst snd] in *.
    + by rewrite attemptsOf_cons, sleepsOf_cons, Ha, Hs.
    + assert (shouldRetry 1 retryConfig msg = false) as ->.
      { unfold shouldRetry. rewrite Hzero. done. }
      cbn [negb fst]. by rewrite attemptsOf_cons, sleepsOf_cons, attemptsOf_app, sleepsOf_app, Ha, Hs.
Qed.

Lemma fetchWithRetry_few_retries_witness :
  fetchWithRetry negativeRetries (always 200 "OK") = ([], Err "Maximum retries exceeded") /\
  attemptsOf (fetchWithRetry noRetry (always 503 "Service Unavailable")).1 = [1].
Proof.
  split.
  - apply (fetchWithRetry_few_retries negativeRetries (always 200 "OK")). cbn. lia.
  - apply (fetchWithRetry_few_retries noRetry (always 503 "Service Unavailable")). reflexivity.
Defined.

(** X5. A call sleeps at most [maxRetries] times, and the time it spends
    sleeping between attempts is at most [maxRetries * maxDelay]. *)
Theorem fetchWithRetry_total_backoff {A} (retryConfig : RetryConfig)
    (env : Z -> FetchOutcome A) :
  0 <= maxRetries retryConfig -> 0 <= maxDelay retryConfig ->
  Z.of_nat (length (sleepsOf (fetchWithRetry retryConfig env).1)) <= maxRetries retryConfig /\
  totalSleep (fetchWithRetry retryConfig env).1
    <= maxRetries retryConfig * maxDelay retryConfig.
Proof.
  intros Hretries Hdelay. unfold totalSleep, fetchWithRetry.
  pose proof (fetchLoop_sleeps_count retryConfig env
                (Z.to_nat (maxRetries retryConfig + 1)) 1 None) as Hcount.
  pose proof (fetchLoop_sleeps retryConfig env
                (Z.to_nat (maxRetries retryConfig + 1)) 1 None) as Hsleeps.
  rewrite Z2Nat.id in Hcount, Hsleeps by lia. cbn zeta in Hsleeps.
  specialize (Hcount ltac:(lia)).
  set (sleeps := sleepsOf _) in *. split; [lia|].
  rewrite Hsleeps.
  pose proof (backoff_le_maxDelay retryConfig
                (seqZ 1 (Z.of_nat (length sleeps))) Hdelay) as Hsum.
  rewrite length_seqZ in Hsum. nia.
Qed.

Lemma fetchWithRetry_total_backoff_witness :
  totalSleep (fetchWithRetry DEFAULT_RETRY_CONFIG (always 503 "Service Unavailable")).1
    <= 3 * 10000.
Proof.
  apply (fetchWithRetry_total_backoff DEFAULT_RETRY_CONFIG
           (always 503 "Service Unavailable")); cbn; lia.
Defined.

(** X6. With a non-negative base delay and a multiplier of at least 1,
    the delay never decreases from one attempt to the next, and it never
    exceeds [maxDelay]. *)
Theorem calculateDelay_monotone (retryConfig : RetryConfig) (n m : Z) :
  0 <= baseDelay retryConfig -> 1 <= backoffMultiplier retryConfig -> 1 <= n <= m ->
  calculateDelay n retryConfig <= calculateDelay m retryConfig /\
  calculateDelay m retryConfig <= maxDelay retryConfig.
Proof.
  intros Hbase Hmult Hnm. unfold calculateDelay.
  assert (backoffMultiplier retryConfig ^ (n - 1) <= backoffMultiplier retryConfig ^ (m - 1))
    by (apply Z.pow_le_mono_r; lia).
  assert (baseDelay retryConfig * backoffMultiplier retryConfig ^ (n - 1)
          <= baseDelay retryConfig * backoffMultiplier retryConfig ^ (m - 1))
    by (apply Z.mul_le_mono_nonneg_l; lia).
  lia.
Qed.

Lemma calculateDelay_monotone_witness :
  calculateDelay 2 DEFAULT_RETRY_CONFIG <= calculateDelay 9 DEFAULT_RETRY_CONFIG /\
  calculateDelay 9 DEFAULT_RETRY_CONFIG <= 10000.
Proof. apply (calculateDelay_monotone DEFAULT_RETRY_CONFIG 2 9); cbn; lia. Defined.

Lemma always_404_fails {A} (retryConfig : RetryConfig) (statusText : string) (b : Json A) :
  0 <= maxRetries retryConfig ->
  (fetchWithRetry retryConfig
     (answering {| status := 404; statusText := statusText; body := b |})).2
    = Err ("HTTP 404: " +:+ statusText).
Proof.
  intros Hretries.
  destruct (fetchWithRetry _ _) as [events final] eqn:Hrun. cbn [snd].
  apply fetchLoop_result in Hrun. destruct final as [resp|message].
  - by destruct Hrun as (n & _ & Htry & _).
  - destruct Hrun as [(Hnil & _)|(n & _ & [= <-] & _)]; [|done].
    rewrite seqZ_cons in Hnil by lia. done.
Qed.

(** X7. Whatever the retry policy (with [maxRetries >= 0]) and the
    status text, an endpoint that answers 404 makes [getMinerPayouts]
    return the empty list and [getMinerInfo] fail with 'Miner not found'. *)
Theorem miner_lookups_recode_404 {A} (retryConfig : RetryConfig) (statusText : string)
    (b : Json A) :
  0 <= maxRetries retryConfig ->
  (getMinerPayouts retryConfig
     (answering {| status := 404; statusText := statusText; body := b |})).2 = Ok [] /\
  (getMinerInfo retryConfig
     (answering {| status := 404; statusText := statusText; body := b |})).2
    = Err "Miner not found".
Proof.
  intros Hretries. pose proof (always_404_fails retryConfig statusText b Hretries) as Hfail.
  unfold getMinerPayouts, getMinerInfo.
  destruct (fetchWithRetry _ _) as [events final]. cbn [snd] in Hfail. subst final.
  split; reflexivity.
Qed.

Lemma miner_lookups_recode_404_witness :
  (getMinerPayouts noRetry
     (answering {| status := 404; statusText := ""; body := @JOther unit |})).2 = Ok [].
Proof. apply (miner_lookups_recode_404 noRetry "" JOther). cbn. lia. Defined.

(** X8. [formatTimeAgo] shows whole elapsed units, rounded down, in the
    largest unit that fits: seconds below a minute (negative for a
    timestamp in the future), otherwise 1 to 59 minutes, 1 to 23 hours, or
    at least one day. *)
Theorem formatTimeAgo_floor (nowMs timestamp : Z) :
  let diff := nowMs / 1000 - timestamp in
  (diff < 60 -> formatTimeAgo nowMs timestamp = string_of_Z diff +:+ "s ago") /\
  (60 <= diff ->
     exists v unit size,
       formatTimeAgo nowMs timestamp = string_of_Z v +:+ unit /\
       (unit, size) ∈ [("m ago", 60); ("h ago", 3600); ("d ago", 86400)] /\
       1 <= v /\ v * size <= diff < (v + 1) * size /\
       (size = 60 -> v < 60) /\ (size = 3600 -> v < 24)).
Proof.
  intros diff. unfold formatTimeAgo. fold diff. split.
  - intros Hlt. apply Z.ltb_lt in Hlt. by rewrite Hlt.
  - intros Hge. destruct (Z.ltb_spec diff 60); [lia|].
    destruct (Z.ltb_spec diff 3600); [|destruct (Z.ltb_spec diff 86400)].
    + exists (diff / 60), "m ago", 60.
      pose proof (Z.div_mod diff 60 ltac:(lia)). pose proof (Z.mod_pos_bound diff 60 ltac:(lia)).
      split_and!; [done|rewrite !elem_of_cons; auto|lia..].
    + exists (diff / 3600), "h ago", 3600.
      pose proof (Z.div_mod diff 3600 ltac:(lia)).
      pose proof (Z.mod_pos_bound diff 3600 ltac:(lia)).
      split_and!; [done|rewrite !elem_of_cons; auto|lia..].
    + exists (diff / 86400), "d ago", 86400.
      pose proof (Z.div_mod diff 86400 ltac:(lia)).
      pose proof (Z.mod_pos_bound diff 86400 ltac:(lia)).
      split_and!; [done|rewrite !elem_of_cons; auto|lia..].
Qed.

Lemma formatTimeAgo_floor_witness :
  formatTimeAgo 100000999 99990 = "10s ago" /\
  exists v unit size,
    formatTimeAgo 100000999 92800 = string_of_Z v +:+ unit /\
    (unit, size) ∈ [("m ago", 60); ("h ago", 3600); ("d ago", 86400)] /\
    v * size <= 100000 - 92800 < (v + 1) * size.
Proof.
  split.
  - apply (proj1 (formatTimeAgo_floor 100000999 99990)). apply Z.ltb_lt. reflexivity.
  - destruct (proj2 (formatTimeAgo_floor 100000999 92800))
      as (v & unit & size & H1 & H2 & _ & H3 & _); [apply Z.leb_le; reflexivity|].
    exists v, unit, size. split; [exact H1|split; [exact H2|exact H3]].
Defined.
End FetchClientProperties.

(* ================================================================== *)
(** * Further properties of the miner-scoped reconstruction *)
(* ================================================================== *)

Section MinerScanInvariants.
Import P2PoolAPI.
Context {T : Type}.
Variable height : T -> Z.
Variable key : T -> string.
Variable owner : T -> string.
Variable batchSize : Z -> Z.
Variable getBatch : Z -> Z -> Result (list T).
Variable address : string.
Variable limit : Z.

Local Abbreviation loop := (scanLoop height key owner batchSize getBatch address limit).

Lemma elem_of_filterBatch (from : option Z) (batch : list T) (x : T) :
  x ∈ filterBatch height owner address from batch ->
  x ∈ batch /\ owner x = address /\ forall c, from = Some c -> height x < c.
Proof.
  unfold filterBatch. destruct from as [c|].
  - intros [[Hin Hown]%elem_of_List_filter Hlt]%elem_of_List_filter.
    apply String.eqb_eq in Hown. apply Z.ltb_lt in Hlt.
    split_and!; [done..|]. by intros ? [= <-].
  - intros [Hin Hown]%elem_of_List_filter. apply String.eqb_eq in Hown. done.
Qed.

Lemma elem_of_pushNew (all filtered : list T) (x : T) :
  x ∈ pushNew key all filtered -> x ∈ all \/ x ∈ filtered.
Proof.
  unfold pushNew. revert all. induction filtered as [|y filtered IH]; intros all; [by left|].
  cbn [foldl]. intros Hx%IH. rewrite elem_of_cons.
  destruct Hx as [Hx|Hx]; [|by auto].
  destruct (existsb _ all); [by left|].
  apply elem_of_app in Hx as [?|Hy%list_elem_of_singleton]; subst; auto.
Qed.

Lemma existsb_key_false (all : list T) (y : T) :
  existsb (fun existing => String.eqb (key existing) (key y)) all = false ->
  key y ∉ key <$> all.
Proof.
  intros Hnone (x & Hkey & Hx)%list_elem_of_fmap.
  assert (existsb (fun existing => String.eqb (key existing) (key y)) all = true) as Hsome.
  { apply existsb_exists. exists x. split; [by apply list_elem_of_In|].
    apply String.eqb_eq. done. }
  congruence.
Qed.

Lemma NoDup_pushNew (all filtered : list T) :
  NoDup (key <$> all) -> NoDup (key <$> pushNew key all filtered).
Proof.
  unfold pushNew. revert all. induction filtered as [|y filtered IH]; intros all Hall; [done|].
  cbn [foldl]. apply IH. destruct (existsb _ all) eqn:Hex; [done|].
  rewrite fmap_app. apply NoDup_app. split_and!; [done| |apply NoDup_singleton].
  intros k Hk Hy%list_elem_of_singleton. subst k. by apply existsb_key_false in Hex.
Qed.

(** What the loop has accumulated when it ends: records of the miner
    below the cursor it started from, besides what it started with; no two
    records with the same key. *)
Lemma scanLoop_found (pending : list Z) (all : list T) (from : option Z) (used : Z)
    (e : ScanEnd) :
  loop pending all from used = Ok e ->
  (forall x, x ∈ found e ->
     x ∈ all \/ (owner x = address /\ forall c, from = Some c -> height x < c)) /\
  (NoDup (key <$> all) -> NoDup (key <$> found e)) /\
  (forall c, from = Some c -> exists c', cursor e = Some c' /\ c' <= c).
Proof.
  revert all from used. induction pending as [|a pending IH]; intros all from used.
  - cbn [scanLoop]. case_match; intros [= <-]; cbn; split_and!; eauto with lia.
  - cbn [scanLoop]. destruct (negb _).
    { intros [= <-]; cbn; split_and!; eauto with lia. }
    destruct (getBatch a (batchSize a)) as [[|first others]|msg]; [| |done].
    { intros [= <-]; cbn; split_and!; eauto with lia. }
    set (batch := first :: others).
    set (filtered := filterBatch height owner address from batch).
    set (all' := pushNew key all filtered).
    set (minHeight := foldl Z.min (height first) (map height others)).
    assert (forall x, x ∈ all' ->
              x ∈ all \/ (owner x = address /\ forall c, from = Some c -> height x < c))
      as Hall'.
    { intros x [?|Hx]%elem_of_pushNew; [by left|].
      apply elem_of_filterBatch in Hx as (_ & ? & ?). by right. }
    assert (forall from',
              from' = from \/ (from' = Some minHeight /\ progresses from minHeight = true) ->
              forall c, from = Some c -> exists c', from' = Some c' /\ c' <= c) as Hcursor.
    { intros from' [->|[-> Hp]] c ->; [eauto with lia|].
      cbn in Hp. apply Z.ltb_lt in Hp. eauto with lia. }
    assert (forall from',
              from' = from \/ (from' = Some minHeight /\ progresses from minHeight = true) ->
              (if Z.of_nat (length all') >=? limit
               then Ok {| found := all'; cursor := from'; attemptsUsed := a;
                          reason := LimitReached |}
               else loop pending all' from' a) = Ok e ->
              (forall x, x ∈ found e ->
                 x ∈ all \/ (owner x = address /\ forall c, from = Some c -> height x < c)) /\
              (NoDup (key <$> all) -> NoDup (key <$> found e)) /\
              (forall c, from = Some c -> exists c', cursor e = Some c' /\ c' <= c)) as Hrest.
    { intros from' Hfrom'. specialize (Hcursor from' Hfrom'). case_match.
      - intros [= <-]; cbn. split_and!; [done|by apply NoDup_pushNew|done].
      - intros (Hfound & Hdup & Hcur)%IH. split_and!.
        + intros x [Hx|[Hown Hlt]]%Hfound; [by apply Hall'|]. right. split; [done|].
          intros c Hc. destruct (Hcursor c Hc) as (c' & Hc' & Hle).
          specialize (Hlt c' Hc'). lia.
        + intros Hnd. by apply Hdup, NoDup_pushNew.
        + intros c Hc. destruct (Hcursor c Hc) as (c' & Hc' & Hle).
          destruct (Hcur c' Hc') as (c'' & ? & ?). exists c''. split; [done|lia]. }
    assert (forall moved,
              moved = Some from \/
              (moved = Some (Some minHeight) /\ progresses from minHeight = true) \/
              moved = None ->
              match moved with
              | None => Ok {| found := all'; cursor := from; attemptsUsed := a;
                              reason := NoHeightProgress |}
              | Some from' =>
                  if Z.of_nat (length all') >=? limit
                  then Ok {| found := all'; cursor := from'; attemptsUsed := a;
                             reason := LimitReached |}
                  else loop pending all' from' a
              end = Ok e ->
              (forall x, x ∈ found e ->
                 x ∈ all \/ (owner x = address /\ forall c, from = Some c -> height x < c)) /\
              (NoDup (key <$> all) -> NoDup (key <$> found e)) /\
              (forall c, from = Some c -> exists c', cursor e = Some c' /\ c' <= c)) as Hmoved.
    { intros moved [->|[[-> Hp]| ->]]; [apply Hrest; by auto..|].
      intros [= <-]; cbn. split_and!; [done|by apply NoDup_pushNew|eauto with lia]. }
    apply Hmoved.
    destruct (progresses from minHeight) eqn:Hp; repeat case_match; auto.
Qed.

(** With nothing to ask for, nothing is fetched. *)
Lemma scan_nothing_wanted (fromHeight : option Z) :
  limit <= 0 ->
  scan height key owner batchSize getBatch address limit fromHeight
    = Ok {| found := []; cursor := fromHeight; attemptsUsed := 0; reason := LimitReached |}.
Proof.
  intros Hlimit. unfold scan, maxAttempts. rewrite seqZ_cons by lia. cbn [scanLoop length].
  destruct (Z.ltb_spec (Z.of_nat 0) limit); [lia|done].
Qed.
End MinerScanInvariants.

Section SliceLemmas.
Context {A : Type}.

Lemma slice0_prefix (l : list A) (n : Z) : exists k, slice0 l n = take k l.
Proof. unfold slice0. case_match; eauto. Qed.

Lemma slice0_length (l : list A) (n : Z) :
  0 <= n -> Z.of_nat (length (slice0 l n)) <= n.
Proof.
  intros Hn. unfold slice0. destruct (Z.ltb_spec n 0); [lia|].
  rewrite length_take. lia.
Qed.

Lemma elem_of_slice0 (l : list A) (n : Z) (x : A) : x ∈ slice0 l n -> x ∈ l.
Proof.
  destruct (slice0_prefix l n) as [k ->]. intros (i & Hi & _)%elem_of_take.
  by eapply list_elem_of_lookup_2.
Qed.
End SliceLemmas.

Section ReconstructionProperties.
Import P2PoolAPI.

Lemma StronglySorted_take_prefix {A} (R : A -> A -> Prop) (l : list A) (k : nat) :
  StronglySorted R l -> StronglySorted R (take k l).
Proof.
  intros Hsorted. revert k. induction Hsorted as [|x l Hsorted IH Hall]; intros k.
  - rewrite take_nil. constructor.
  - destruct k as [|k]; [constructor|]. cbn. constructor; [apply IH|].
    apply Forall_forall. intros y Hy. rewrite Forall_forall in Hall. apply Hall.
    apply elem_of_take in Hy as (i & Hi & _). by eapply list_elem_of_lookup_2.
Qed.

Lemma finish_elem_of {T} (height : T -> Z) (limit : Z) (e : ScanEnd) (x : T) :
  x ∈ finish height limit (Ok e) -> x ∈ found e.
Proof. cbn [finish]. intros Hx%elem_of_slice0. by rewrite sortDesc_Permutation in Hx. Qed.

Lemma finish_NoDup {T} (height : T -> Z) (key : T -> string) (limit : Z) (e : ScanEnd) :
  NoDup (key <$> found e) -> NoDup (key <$> finish height limit (Ok e)).
Proof.
  intros Hnd. cbn [finish]. destruct (slice0_prefix (sortDesc height (found e)) limit) as [k ->].
  rewrite fmap_take. eapply sublist_NoDup; [|apply sublist_take].
  by rewrite sortDesc_Permutation.
Qed.

Lemma finish_sorted {T} (height : T -> Z) (limit : Z) (scanned : Result ScanEnd) :
  StronglySorted (descending height) (finish height limit scanned).
Proof.
  destruct scanned as [e|]; [|constructor]. cbn [finish].
  destruct (slice0_prefix (sortDesc height (found e)) limit) as [k ->].
  apply StronglySorted_take_prefix, sortDesc_sorted.
Qed.

Lemma finish_length {T} (height : T -> Z) (limit : Z) (scanned : Result ScanEnd) :
  0 <= limit -> Z.of_nat (length (finish height limit scanned)) <= limit.
Proof. intros Hl. destruct scanned as [e|]; [by apply slice0_length|cbn; lia]. Qed.

Lemma historical_path (getShares : Z -> Z -> option string -> Result (list SideBlock))
    (address : string) (limit from : Z) :
  from <> 0 ->
  getMinerShares getShares address limit (Some from)
    = finish side_height limit (scanShares getShares address limit (Some from)).
Proof. intros Hfrom. unfold getMinerShares. by destruct from. Qed.

(** X9. With a cursor, [getMinerShares] returns only shares of the miner
    asked for, all at heights below the cursor; [getMinerFoundBlocks]
    returns only blocks of the miner asked for, below the cursor when one
    is given. *)
Theorem reconstruction_is_sound
    (getShares : Z -> Z -> option string -> Result (list SideBlock))
    (getFoundBlocks : Z -> Z -> option string -> Result (list FoundBlock))
    (address : string) (limit : Z) :
  (forall from share,
      from <> 0 -> share ∈ getMinerShares getShares address limit (Some from) ->
      miner_address share = address /\ side_height share < from) /\
  (forall fromHeight block,
      block ∈ getMinerFoundBlocks getFoundBlocks address limit fromHeight ->
      block_miner_address block = address /\
      forall from, fromHeight = Some from -> MainBlock.height (main_block block) < from).
Proof.
  split.
  - intros from share Hfrom. rewrite historical_path by done. unfold scanShares, scan.
    destruct (scanLoop _ _ _ _ _ _ _ _ _ _ _) as [e|] eqn:Hrun;
      [|by intros ?%not_elem_of_nil].
    intros Hin%finish_elem_of. apply scanLoop_found in Hrun as (Hfound & _).
    destruct (Hfound share Hin) as [?%not_elem_of_nil|[Hown Hlt]]; [done|]. eauto.
  - intros fromHeight block. unfold getMinerFoundBlocks, scanBlocks, scan.
    destruct (scanLoop _ _ _ _ _ _ _ _ _ _ _) as [e|] eqn:Hrun;
      [|by intros ?%not_elem_of_nil].
    intros Hin%finish_elem_of. apply scanLoop_found in Hrun as (Hfound & _).
    destruct (Hfound block Hin) as [?%not_elem_of_nil|[Hown Hlt]]; [done|]. eauto.
Qed.

Lemma reconstruction_is_sound_witness :
  shareOf "t1" 90 "A" ∈ getMinerShares secondPageFails "A" 1 (Some 100) /\
  side_height (shareOf "t1" 90 "A") < 100.
Proof.
  assert (shareOf "t1" 90 "A" ∈ getMinerShares secondPageFails "A" 1 (Some 100)) as Hin.
  { vm_compute. apply elem_of_cons. by left. }
  split; [exact Hin|].
  apply (proj1 (reconstruction_is_sound secondPageFails secondBlockPageFails "A" 1) 100);
    [lia|exact Hin].
Defined.

(** X10. With a cursor, the shares [getMinerShares] returns have pairwise
    distinct template ids; the blocks [getMinerFoundBlocks] returns have
    pairwise distinct block ids. *)
Theorem reconstruction_has_no_duplicates
    (getShares : Z -> Z -> option string -> Result (list SideBlock))
    (getFoundBlocks : Z -> Z -> option string -> Result (list FoundBlock))
    (address : string) (limit from : Z) (fromHeight : option Z) :
  from <> 0 ->
  NoDup (template_id <$> getMinerShares getShares address limit (Some from)) /\
  NoDup ((fun b => MainBlock.id (main_block b))
           <$> getMinerFoundBlocks getFoundBlocks address limit fromHeight).
Proof.
  intros Hfrom. split.
  - rewrite historical_path by done. unfold scanShares, scan.
    destruct (scanLoop _ _ _ _ _ _ _ _ _ _ _) as [e|] eqn:Hrun; [|constructor].
    apply scanLoop_found in Hrun as (_ & Hnd & _). apply finish_NoDup, Hnd. constructor.
  - unfold getMinerFoundBlocks, scanBlocks, scan.
    destruct (scanLoop _ _ _ _ _ _ _ _ _ _ _) as [e|] eqn:Hrun; [|constructor].
    apply scanLoop_found in Hrun as (_ & Hnd & _). apply finish_NoDup, Hnd. constructor.
Qed.

Lemma reconstruction_has_no_duplicates_witness :
  NoDup (template_id <$> getMinerShares secondPageFails "A" 1 (Some 100)).
Proof.
  apply (reconstruction_has_no_duplicates secondPageFails secondBlockPageFails "A" 1 100 None).
  lia.
Defined.

(** X11. With a cursor, [getMinerShares], and [getMinerFoundBlocks] in
    any case, return their records sorted by height, highest first, and no
    more than [limit] of them; with [limit <= 0] they return nothing,
    whatever the upstream would answer. *)
Theorem reconstruction_is_bounded
    (getShares : Z -> Z -> option string -> Result (list SideBlock))
    (getFoundBlocks : Z -> Z -> option string -> Result (list FoundBlock))
    (address : string) (limit from : Z) (fromHeight : option Z) :
  from <> 0 ->
  StronglySorted (descending side_height)
    (getMinerShares getShares address limit (Some from)) /\
  StronglySorted (descending (fun b => MainBlock.height (main_block b)))
    (getMinerFoundBlocks getFoundBlocks address limit fromHeight) /\
  (0 <= limit ->
     Z.of_nat (length (getMinerShares getShares address limit (Some from))) <= limit /\
     Z.of_nat (length (getMinerFoundBlocks getFoundBlocks address limit fromHeight))
       <= limit) /\
  (limit <= 0 ->
     getMinerShares getShares address limit (Some from) = [] /\
     getMinerFoundBlocks getFoundBlocks address limit fromHeight = []).
Proof.
  intros Hfrom. rewrite historical_path by done. unfold getMinerFoundBlocks.
  split_and!; [apply finish_sorted..| |].
  - intros Hl. split; by apply finish_length.
  - intros Hl. unfold scanShares, scanBlocks. rewrite !scan_nothing_wanted by done.
    cbn [finish found sortDesc foldr]. unfold slice0. case_match; by rewrite !take_nil.
Qed.

Lemma reconstruction_is_bounded_witness :
  Z.of_nat (length (getMinerShares secondPageFails "A" 1 (Some 100))) <= 1 /\
  getMinerShares secondPageFails "A" 0 (Some 100) = [].
Proof.
  destruct (reconstruction_is_bounded secondPageFails secondBlockPageFails "A" 1 100 None)
    as (_ & _ & Hlen & _); [lia|].
  destruct (reconstruction_is_bounded secondPageFails secondBlockPageFails "A" 0 100 None)
    as (_ & _ & _ & Hnone); [lia|].
  split; [apply Hlen; lia|apply Hnone; lia].
Defined.

(** X12. Without a cursor, and with the cursor 0, [getMinerShares] takes
    the direct path: one call with the miner filter, whose answer it
    returns sorted by height, highest first, neither filtered nor
    truncated; when that call fails it returns nothing. *)
Theorem getMinerShares_direct_path
    (getShares : Z -> Z -> option string -> Result (list SideBlock))
    (address : string) (limit : Z) :
  getMinerShares getShares address limit None = getMinerSharesDirect getShares address limit /\
  getMinerShares getShares address limit (Some 0)
    = getMinerSharesDirect getShares address limit /\
  StronglySorted (descending side_height) (getMinerSharesDirect getShares address limit) /\
  (forall shares, getShares 1 limit (Some address) = Ok shares ->
                  getMinerSharesDirect getShares address limit ≡ₚ shares) /\
  (forall message, getShares 1 limit (Some address) = Err message ->
                   getMinerSharesDirect getShares address limit = []).
Proof.
  split_and!; [done..| | |].
  - unfold getMinerSharesDirect. case_match; [apply sortDesc_sorted|constructor].
  - intros shares Hok. unfold getMinerSharesDirect. rewrite Hok. apply sortDesc_Permutation.
  - intros message Hfail. unfold getMinerSharesDirect. by rewrite Hfail.
Qed.

Lemma getMinerShares_direct_path_witness :
  getMinerShares secondPageFails "A" 1 (Some 0)
    = [shareOf "t1" 90 "A"; shareOf "t2" 80 "B"].
Proof.
  destruct (getMinerShares_direct_path secondPageFails "A" 1) as (_ & -> & _ & Hperm & _).
  specialize (Hperm [shareOf "t1" 90 "A"; shareOf "t2" 80 "B"] eq_refl).
  reflexivity.
Defined.
End ReconstructionProperties.

(* ================================================================== *)
(** * Further properties of the cache *)
(* ================================================================== *)

Section StorageProperties.
Import P2PoolAPI P2PoolStorage.

Lemma store_then_retrieve (name key : string) (payload : Payload) (now now' : Z)
    (st st' : Storage) :
  store name key payload now st = Ok st' ->
  exists st'',
    retrieve name key now' st' = Ok (Some payload, st'') /\
    recordsOf st'' name !! key
      = Some {| id := key; data := payload; timestamp := now; lastAccessed := now' |}.
Proof.
  intros (d & os & Hdb & Hos & ->)%store_Ok.
  unfold retrieve, ensureReady, transaction, withDB, commit. cbn [db].
  rewrite lookup_insert_eq. cbn [put records id]. rewrite lookup_insert_eq.
  eexists. split; [reflexivity|]. unfold recordsOf. cbn [db window].
  rewrite lookup_insert_eq. cbn [put records id data timestamp lastAccessed].
  by rewrite lookup_insert_eq.
Qed.

(** X13. What a put stores, the matching get returns: for the pool
    snapshot (in a browser), the miner snapshot and the payouts of a miner,
    a successful store followed by a read under the same URL and address
    yields the stored value, with the write time of the store. *)
Theorem cache_round_trip (apiUrl address : string) (poolInfo : PoolInfo)
    (minerInfo : MinerInfo) (payouts : list MinerPayout) (now now' : Z) (st st' : Storage) :
  (window st = true -> storePoolInfo apiUrl poolInfo now st = Ok st' ->
     exists st'',
       getPoolInfo apiUrl now' st' = Ok (Some (PoolInfoData poolInfo), st'') /\
       timestamp <$> recordsOf st'' "poolInfo" !! ("pool_" +:+ apiUrl) = Some now) /\
  (storeMinerInfo apiUrl address minerInfo now st = Ok st' ->
     exists st'',
       P2PoolStorage.getMinerInfo apiUrl address now' st'
         = Ok (Some (MinerInfoData minerInfo), st'') /\
       timestamp <$> recordsOf st'' "minerInfo" !! ("miner_" +:+ apiUrl +:+ "_" +:+ address)
         = Some now) /\
  (storePayouts apiUrl address payouts now st = Ok st' ->
     exists st'',
       getPayouts apiUrl address now' st' = Ok (Some (PayoutsData payouts), st'') /\
       timestamp <$> recordsOf st'' "payouts" !! ("payouts_" +:+ apiUrl +:+ "_" +:+ address)
         = Some now).
Proof.
  split_and!.
  - intros Hw. unfold storePoolInfo, getPoolInfo. rewrite Hw. cbn [negb]. intros Hstore.
    assert (window st' = true) as ->.
    { apply store_Ok in Hstore as (? & ? & _ & _ & ->). done. }
    cbn [negb].
    destruct (store_then_retrieve _ _ _ _ now' _ _ Hstore) as (st'' & Hget & Hrec).
    exists st''. split; [done|]. by rewrite Hrec.
  - intros Hstore.
    destruct (store_then_retrieve _ _ _ _ now' _ _ Hstore) as (st'' & Hget & Hrec).
    exists st''. split; [done|]. by rewrite Hrec.
  - intros Hstore.
    destruct (store_then_retrieve _ _ _ _ now' _ _ Hstore) as (st'' & Hget & Hrec).
    exists st''. split; [done|]. by rewrite Hrec.
Qed.

Lemma cache_round_trip_witness :
  exists st'', getPoolInfo observer 21000 pooledCache = Ok (Some (PoolInfoData snapshot), st'').
Proof.
  destruct (cache_round_trip observer "A" snapshot {| miner_id := 3; miner_shares := 12 |} []
              1000 21000 openedCache pooledCache) as (Hpool & _).
  destruct Hpool as (st'' & Hget & _); [reflexivity|vm_compute; reflexivity|].
  exists st''. exact Hget.
Defined.

(** X14. A read refreshes [lastAccessed] and nothing else: the entry
    keeps its data and its write timestamp, so reading an entry does not
    postpone its expiry; a read of a key that is not there returns nothing
    and leaves the cache as it is. *)
Theorem retrieve_keeps_write_time (name key : string) (now : Z) (st : Storage)
    (d : DB) (os : ObjectStore) :
  db st = Some d -> d !! name = Some os ->
  (forall r, records os !! key = Some r -> id r = key ->
     exists st',
       retrieve name key now st = Ok (Some (data r), st') /\
       recordsOf st' name
         = <[key := {| id := key; data := data r; timestamp := timestamp r;
                       lastAccessed := now |}]> (records os) /\
       forall when k r',
         recordsOf st' name !! key = Some r' -> expired when k r' = expired when k r) /\
  (records os !! key = None -> retrieve name key now st = Ok (None, st)).
Proof.
  intros Hdb Hos. unfold retrieve, ensureReady. rewrite Hdb.
  pose proof Hos as Htx. apply transaction_Ok in Htx. rewrite Htx. split.
  - intros r Hr Hid. rewrite Hr. eexists. split; [reflexivity|].
    unfold recordsOf, withDB, commit. cbn [db]. rewrite lookup_insert_eq.
    cbn [put records id]. rewrite Hid. split; [done|].
    intros when k r'. rewrite lookup_insert_eq. by intros [= <-].
  - intros Hnone. by rewrite Hnone.
Qed.

Lemma retrieve_keeps_write_time_witness :
  exists st',
    retrieve "poolInfo" ("pool_" +:+ observer) 21000 pooledCache
      = Ok (Some (PoolInfoData snapshot), st') /\
    timestamp <$> recordsOf st' "poolInfo" !! ("pool_" +:+ observer) = Some 1000.
Proof.
  destruct (retrieve_keeps_write_time "poolInfo" ("pool_" +:+ observer) 21000 pooledCache
              (default ∅ (db pooledCache))
              (default {| indexes := []; records := ∅ |}
                       (default ∅ (db pooledCache) !! "poolInfo")))
    as [Hhit _]; [reflexivity|vm_compute; reflexivity|].
  destruct (Hhit {| id := "pool_" +:+ observer; data := PoolInfoData snapshot;
                    timestamp := 1000; lastAccessed := 1000 |})
    as (st' & Hget & Hrecs & _); [vm_compute; reflexivity|reflexivity|].
  exists st'. split; [exact Hget|]. rewrite Hrecs. by rewrite lookup_insert_eq.
Defined.

Lemma store_other (name key : string) (payload : Payload) (now : Z) (st st' : Storage)
    (name' key' : string) :
  store name key payload now st = Ok st' -> name' <> name \/ key' <> key ->
  recordsOf st' name' !! key' = recordsOf st name' !! key'.
Proof.
  intros (d & os & Hdb & Hos & ->)%store_Ok Hne. unfold recordsOf, withDB, commit.
  cbn [db]. rewrite Hdb. destruct (decide (name' = name)) as [->|Hname].
  - rewrite lookup_insert_eq, Hos. cbn [put records id]. apply lookup_insert_ne.
    destruct Hne; congruence.
  - by rewrite lookup_insert_ne.
Qed.

Lemma append_inj_l (p s1 s2 : string) : p +:+ s1 = p +:+ s2 -> s1 = s2.
Proof. induction p as [|c p IH]; [done|]. cbn. intros [= ?]. auto. Qed.

(** X15. A put touches one key of one partition: every other key, and
    every key of every other partition, reads as before. In particular
    the snapshot stored for one API URL leaves the snapshot of any other
    URL alone. *)
Theorem store_touches_one_key (name key : string) (payload : Payload)
    (apiUrl otherUrl : string) (poolInfo : PoolInfo) (now : Z) (st st' : Storage) :
  (store name key payload now st = Ok st' ->
     forall name' key', name' <> name \/ key' <> key ->
       recordsOf st' name' !! key' = recordsOf st name' !! key') /\
  (storePoolInfo apiUrl poolInfo now st = Ok st' -> otherUrl <> apiUrl ->
     recordsOf st' "poolInfo" !! ("pool_" +:+ otherUrl)
       = recordsOf st "poolInfo" !! ("pool_" +:+ otherUrl)).
Proof.
  split.
  - intros Hstore name' key' Hne. by eapply store_other.
  - unfold storePoolInfo. destruct (negb (window st)); [by intros [= <-]|].
    intros Hstore Hne. eapply store_other; [done|]. right.
    intros Heq%append_inj_l. done.
Qed.

Lemma store_touches_one_key_witness :
  recordsOf pooledCache "poolInfo" !! ("pool_" +:+ "http://localhost:3333") = None.
Proof.
  rewrite (proj2 (store_touches_one_key "poolInfo" "k" (PoolInfoData snapshot) observer
                    "http://localhost:3333" snapshot 1000 openedCache pooledCache));
    [vm_compute; reflexivity|vm_compute; reflexivity|discriminate].
Defined.

Lemma append_assoc (s1 s2 s3 : string) : (s1 +:+ s2) +:+ s3 = s1 +:+ (s2 +:+ s3).
Proof.
  induction s1 as [|c s1 IH]; [done|].
  change (String c ((s1 +:+ s2) +:+ s3) = String c (s1 +:+ (s2 +:+ s3))). by rewrite IH.
Qed.

(** X16. The key of a miner snapshot is the URL and the address joined by
    an underscore, so two different pairs can share a key: what is stored
    for the URL [u_x] and the address [a] is what is read for the URL [u]
    and the address [x_a]. *)
Theorem miner_keys_collide (u x a : string) (minerInfo : MinerInfo) (now now' : Z)
    (st st' : Storage) :
  storeMinerInfo (u +:+ "_" +:+ x) a minerInfo now st = Ok st' ->
  exists st'',
    P2PoolStorage.getMinerInfo u (x +:+ "_" +:+ a) now' st'
      = Ok (Some (MinerInfoData minerInfo), st'').
Proof.
  unfold storeMinerInfo, P2PoolStorage.getMinerInfo. intros Hstore.
  assert ("miner_" +:+ (u +:+ "_" +:+ x) +:+ "_" +:+ a
          = "miner_" +:+ u +:+ "_" +:+ x +:+ "_" +:+ a) as Hkey.
  { apply (f_equal (String.append "miner_")). by rewrite append_assoc. }
  rewrite Hkey in Hstore.
  destruct (store_then_retrieve _ _ _ _ now' _ _ Hstore) as (st'' & Hget & _). eauto.
Qed.

Lemma miner_keys_collide_witness :
  exists st'',
    P2PoolStorage.getMinerInfo "http://pool" "lan_4A" 2000
      (orElse (storeMinerInfo "http://pool_lan" "4A" {| miner_id := 3; miner_shares := 12 |}
                 1000 openedCache) openedCache)
    = Ok (Some (MinerInfoData {| miner_id := 3; miner_shares := 12 |}), st'').
Proof.
  apply (miner_keys_collide "http://pool" "lan" "4A" _ 1000 2000 openedCache).
  vm_compute. reflexivity.
Defined.

Lemma keyedById_commit (d : DB) (name : string) (os' : ObjectStore) :
  keyedById d -> (forall pk r, records os' !! pk = Some r -> id r = pk) ->
  keyedById (commit name os' d).
Proof.
  intros Hd Hos' name' os pk r. unfold commit. rewrite lookup_insert.
  case_decide; [intros [= <-]; apply Hos'|apply Hd].
Qed.

Lemma put_keyed (r0 : StoredData) (os : ObjectStore) :
  (forall pk r, records os !! pk = Some r -> id r = pk) ->
  forall pk r, records (put r0 os) !! pk = Some r -> id r = pk.
Proof.
  intros Hos pk r. cbn [put records]. rewrite lookup_insert.
  case_decide; [by intros [= <-]|apply Hos].
Qed.

Lemma foldl_put_keyed {A} (f : A -> StoredData) (l : list A) (os : ObjectStore) :
  (forall pk r, records os !! pk = Some r -> id r = pk) ->
  forall pk r, records (foldl (fun os x => put (f x) os) os l) !! pk = Some r -> id r = pk.
Proof.
  revert os. induction l as [|x l IH]; intros os Hos; [done|].
  cbn [foldl]. apply IH. by apply put_keyed.
Qed.

Lemma cursorLoop_subset (pending : list (string * StoredData)) (os : ObjectStore) (n : Z)
    (pk : string) (r : StoredData) :
  records (cursorLoop pending os n).1 !! pk = Some r -> records os !! pk = Some r.
Proof. rewrite cursorLoop_records. by case_decide. Qed.

Lemma cleanStore_keyed (k : StoreKey) (name : string) (now : Z) (d : DB) (n : Z) :
  keyedById d ->
  match cleanStore k name now d n with
  | inl (d', _) | inr (d', _) => keyedById d'
  end.
Proof.
  intros Hd. unfold cleanStore. destruct (String.eqb _ _); [done|].
  destruct (RETENTION_PERIODS k) as [retention|]; [|done].
  destruct (transaction d name) as [os|] eqn:Htx; [|done].
  destruct (index os "timestamp") as [keyPath|]; [|done].
  destruct (indexEntries _ _ _) as [|entry pending]; [done|].
  pose proof (cursorLoop_subset (entry :: pending) os n) as Hsub.
  destruct (cursorLoop (entry :: pending) os n) as [os' n']. cbn [fst] in Hsub.
  apply transaction_Ok in Htx. apply keyedById_commit; [done|].
  intros pk r Hr%Hsub. by eapply Hd.
Qed.

Lemma cleanStores_keyed (entries : list (StoreKey * string)) (now : Z) (d : DB) (n : Z) :
  keyedById d ->
  match cleanStores entries now d n with
  | inl (d', _) | inr (d', _) => keyedById d'
  end.
Proof.
  revert d n. induction entries as [|[k name] entries IH]; intros d n Hd; [done|].
  cbn [cleanStores]. pose proof (cleanStore_keyed k name now d n Hd) as Hone.
  destruct (cleanStore k name now d n) as [[d1 e]|[d1 n1]]; [done|]. by apply IH.
Qed.

Lemma clearStore_keyed (name : string) (cutoff : Z) (d : DB) :
  keyedById d -> keyedById (clearStore name cutoff d).
Proof.
  intros Hd. unfold clearStore. destruct (String.eqb _ _); [done|].
  destruct (transaction d name) as [os|] eqn:Htx; [|done].
  destruct (index os "timestamp") as [keyPath|]; [|done].
  destruct (indexEntries _ _ _) as [|entry pending]; [done|].
  apply transaction_Ok in Htx. apply keyedById_commit; [done|].
  intros pk r Hr%cursorLoop_subset. by eapply Hd.
Qed.

Lemma createIfMissing_empty (name : string) (idx : list (string * string)) (d : DB) :
  (forall n os, d !! n = Some os -> records os = ∅) ->
  forall n os, createIfMissing name idx d !! n = Some os -> records os = ∅.
Proof.
  intros Hd n os. unfold createIfMissing. destruct (d !! name); [apply Hd|].
  rewrite lookup_insert. case_decide; [by intros [= <-]|apply Hd].
Qed.

Lemma store_keyed (name key : string) (payload : Payload) (now : Z) (st st' : Storage)
    (d d' : DB) :
  db st = Some d -> keyedById d ->
  store name key payload now st = Ok st' -> db st' = Some d' -> keyedById d'.
Proof.
  intros Hdb Hd (d0 & os & Hdb0 & Hos & ->)%store_Ok [= <-].
  rewrite Hdb in Hdb0. injection Hdb0 as <-.
  apply keyedById_commit; [done|]. apply put_keyed. intros pk r Hr. by eapply Hd.
Qed.

(** X17. Every record of the cache sits under its own [id]: this holds
    for the database [upgrade] creates and every operation of the cache
    keeps it (the puts, the reads, which write [lastAccessed] back,
    [cleanup] and [clearOldCache]). *)
Theorem records_are_keyed_by_id (st : Storage) (d : DB) :
  keyedById (upgrade ∅) /\
  (db st = Some d -> keyedById d ->
   (forall name key payload now st' d',
       store name key payload now st = Ok st' -> db st' = Some d' -> keyedById d') /\
   (forall apiUrl shares now st' d',
       storeShares apiUrl shares now st = Ok st' -> db st' = Some d' -> keyedById d') /\
   (forall apiUrl blocks now st' d',
       storeBlocks apiUrl blocks now st = Ok st' -> db st' = Some d' -> keyedById d') /\
   (forall name key now found st' d',
       retrieve name key now st = Ok (found, st') -> db st' = Some d' -> keyedById d') /\
   (forall now st' d', cleanup now st = Ok st' -> db st' = Some d' -> keyedById d') /\
   (forall hours now d', db (clearOldCache hours now st) = Some d' -> keyedById d')).
Proof.
  split.
  - intros name os pk r Hos.
    assert (records os = ∅) as ->; [|by rewrite lookup_empty].
    revert Hos. unfold upgrade. do 6 (apply createIfMissing_empty; intros ? ?).
    by rewrite lookup_empty.
  - intros Hdb Hd. split_and!.
    + intros name key payload now st' d'. by apply (store_keyed _ _ _ _ st st' d d').
    + intros apiUrl shares now st' d'. unfold storeShares, ensureReady. rewrite Hdb.
      destruct (_ =? 0); [intros [= <-]; rewrite Hdb; by intros [= <-]|].
      destruct (transaction d "shares") as [os|] eqn:Htx; [|done].
      apply transaction_Ok in Htx. intros [= <-] [= <-].
      apply keyedById_commit; [done|].
      apply (foldl_put_keyed (fun share =>
               {| id := shareKey apiUrl share; data := ShareData share;
                  timestamp := now; lastAccessed := now |})).
      intros pk r Hr. by eapply Hd.
    + intros apiUrl blocks now st' d'. unfold storeBlocks, ensureReady. rewrite Hdb.
      destruct (_ =? 0); [intros [= <-]; rewrite Hdb; by intros [= <-]|].
      destruct (transaction d "blocks") as [os|] eqn:Htx; [|done].
      apply transaction_Ok in Htx. intros [= <-] [= <-].
      apply keyedById_commit; [done|].
      apply (foldl_put_keyed (fun block =>
               {| id := blockKey apiUrl block; data := BlockData block;
                  timestamp := now; lastAccessed := now |})).
      intros pk r Hr. by eapply Hd.
    + intros name key now found st' d'. unfold retrieve, ensureReady. rewrite Hdb.
      destruct (transaction d name) as [os|] eqn:Htx; [|done].
      apply transaction_Ok in Htx. destruct (records os !! key) as [r0|].
      * intros [= <- <-] [= <-]. apply keyedById_commit; [done|]. apply put_keyed.
        intros pk r Hr. by eapply Hd.
      * intros [= <- <-]. rewrite Hdb. by intros [= <-].
    + intros now st' d'. unfold cleanup, ensureReady. rewrite Hdb.
      pose proof (cleanStores_keyed STORES now d 0 Hd) as Hloop.
      destruct (cleanStores STORES now d 0) as [[d1 e]|[d1 n1]].
      * by intros [= <-] [= <-].
      * destruct (calculateStorageSize d1); [|by intros [= <-] [= <-]].
        destruct (store "metadata" "global" _ now (withDB st d1)) as [st''|] eqn:Hstore.
        -- intros [= <-] Hdb'. eapply store_keyed; [|exact Hloop|exact Hstore|exact Hdb'].
           done.
        -- by intros [= <-] [= <-].
    + intros hours now d'. unfold clearOldCache. rewrite Hdb. intros [= <-].
      cbn [STORES fmap list_fmap snd foldl]. by do 6 apply clearStore_keyed.
Qed.

Lemma records_are_keyed_by_id_witness : keyedById (default ∅ (db pooledCache)).
Proof.
  destruct (records_are_keyed_by_id openedCache (upgrade ∅)) as [Hinit Hkeep].
  destruct (Hkeep eq_refl Hinit) as (Hstore & _).
  apply (Hstore "poolInfo" ("pool_" +:+ observer) (PoolInfoData snapshot) 1000 pooledCache);
    vm_compute; reflexivity.
Defined.

Lemma foldl_put_lookup (apiUrl : string) (now : Z) (l : list SideBlock) (os : ObjectStore)
    (k : string) :
  records (foldl (fun os share => put (shareEntry apiUrl now share) os) os l) !! k
    = match last (filter (fun share => shareKey apiUrl share = k) l) with
      | Some share => Some (shareEntry apiUrl now share)
      | None => records os !! k
      end.
Proof.
  induction l as [|share l IH] using rev_ind; [done|].
  rewrite foldl_app, filter_app. cbn [foldl put records].
  change (id (shareEntry apiUrl now share)) with (shareKey apiUrl share).
  rewrite lookup_insert. rewrite filter_cons, filter_nil.
  destruct (decide (shareKey apiUrl share = k)) as [Hk|Hk].
  - by rewrite last_snoc.
  - by rewrite app_nil_r.
Qed.

Lemma foldl_put_size {A} (f : A -> StoredData) (l : list A) (os : ObjectStore) :
  (size (records (foldl (fun os x => put (f x) os) os l)) <= size (records os) + length l)%nat.
Proof.
  revert os. induction l as [|x l IH]; intros os; [cbn; lia|].
  cbn [foldl length]. etrans; [apply IH|]. cbn [put records].
  rewrite map_size_insert. case_match; cbn; lia.
Qed.

(** X18. [storeShares] writes a batch in order: afterwards a key holds
    the last share of the batch that has this key, stamped with the time
    of the call, and a key no share of the batch has holds what it held
    before; the partition grows by at most the length of the batch. An
    empty batch leaves the cache as it is. *)
Theorem storeShares_writes_batch (apiUrl : string) (shares : list SideBlock) (now : Z)
    (st : Storage) (d : DB) (os : ObjectStore) :
  db st = Some d -> d !! "shares" = Some os ->
  exists st',
    storeShares apiUrl shares now st = Ok st' /\
    (shares = [] -> st' = st) /\
    (forall k,
        recordsOf st' "shares" !! k
          = match last (filter (fun share => shareKey apiUrl share = k) shares) with
            | Some share => Some (shareEntry apiUrl now share)
            | None => records os !! k
            end) /\
    (size (recordsOf st' "shares") <= size (records os) + length shares)%nat.
Proof.
  intros Hdb Hos. unfold storeShares, ensureReady. rewrite Hdb.
  destruct shares as [|share shares].
  - exists st. cbn. split_and!; [done..| |].
    + intros k. unfold recordsOf. by rewrite Hdb, Hos.
    + unfold recordsOf. rewrite Hdb, Hos. lia.
  - assert ((Z.of_nat (length (share :: shares)) =? 0) = false) as -> by by apply Z.eqb_neq.
    pose proof Hos as Htx. apply transaction_Ok in Htx. rewrite Htx.
    eexists. split_and!; [reflexivity|done| |].
    + intros k. unfold recordsOf, withDB, commit. cbn [db]. rewrite lookup_insert_eq.
      apply (foldl_put_lookup apiUrl now (share :: shares)).
    + unfold recordsOf, withDB, commit. cbn [db]. rewrite lookup_insert_eq.
      apply (foldl_put_size (shareEntry apiUrl now) (share :: shares)).
Qed.

Lemma storeShares_writes_batch_witness :
  exists st',
    storeShares observer [shareOf "t1" 90 "A"; shareOf "t2" 95 "A"; shareOf "t1" 90 "B"] 1000
      openedCache = Ok st' /\
    data <$> recordsOf st' "shares" !! shareKey observer (shareOf "t1" 90 "A")
      = Some (ShareData (shareOf "t1" 90 "B")).
Proof.
  destruct (storeShares_writes_batch observer
              [shareOf "t1" 90 "A"; shareOf "t2" 95 "A"; shareOf "t1" 90 "B"] 1000
              openedCache (upgrade ∅)
              {| indexes := [("timestamp", "timestamp"); ("apiUrl", "apiUrl")];
                 records := ∅ |})
    as (st' & Hrun & _ & Hlookup & _); [reflexivity|vm_compute; reflexivity|].
  exists st'. split; [exact Hrun|]. rewrite Hlookup. reflexivity.
Defined.

Lemma blocksSchema_no_miner_index (d : DB) (os : ObjectStore) (st : Storage) :
  blocksSchema st -> db st = Some d -> d !! "blocks" = Some os ->
  index os "miner_address" = Err NotFoundError.
Proof.
  intros Hschema Hdb Hos.
  assert (indexes os = [("timestamp", "timestamp"); ("apiUrl", "apiUrl")]) as Hidx.
  { apply (Hschema d); [done|]. unfold schemaOf. by rewrite lookup_fmap, Hos. }
  unfold index. by rewrite Hidx.
Qed.

(** X19. The blocks store is created with the indexes [timestamp] and
    [apiUrl] only, so [getBlocksByMiner], which opens an index named
    [miner_address], always throws; the query function of the miner's
    blocks therefore never serves cached blocks: it returns what the
    network call returned, or fails. *)
Theorem getBlocksByMiner_always_throws (apiUrl address : string) (limit : Z)
    (blocks : list FoundBlock) (now : Z) (st : Storage) :
  blocksSchema st ->
  (exists e, getBlocksByMiner apiUrl address limit st = Err e) /\
  (forall d os, db st = Some d -> d !! "blocks" = Some os ->
                getBlocksByMiner apiUrl address limit st = Err NotFoundError) /\
  (forall cached st',
      Dashboard.minerBlocksQueryFn apiUrl address limit blocks now st = (Ok cached, st') ->
      cached = BlockData <$> blocks /\ storeBlocks apiUrl blocks now st = Ok st').
Proof.
  intros Hschema.
  assert (forall d os, db st = Some d -> d !! "blocks" = Some os ->
                       getBlocksByMiner apiUrl address limit st = Err NotFoundError) as Hopen.
  { intros d os Hdb Hos. unfold getBlocksByMiner, ensureReady. rewrite Hdb.
    pose proof (blocksSchema_no_miner_index d os st Hschema Hdb Hos) as Hidx.
    apply transaction_Ok in Hos. by rewrite Hos, Hidx. }
  assert (exists e, getBlocksByMiner apiUrl address limit st = Err e) as [e He].
  { destruct (db st) as [d|] eqn:Hdb.
    - destruct (d !! "blocks") as [os|] eqn:Hos; [by eauto|].
      unfold getBlocksByMiner, ensureReady, transaction. rewrite Hdb, Hos. eauto.
    - unfold getBlocksByMiner, ensureReady. rewrite Hdb. eauto. }
  split_and!; [by eauto|exact Hopen|].
  intros cached st'. unfold Dashboard.minerBlocksQueryFn.
  destruct (String.eqb address ""); [done|].
  destruct (storeBlocks apiUrl blocks now st); [by intros [= <- <-]|].
  by rewrite He.
Qed.

Lemma getBlocksByMiner_always_throws_witness :
  getBlocksByMiner observer "A" 10 openedCache = Err NotFoundError.
Proof.
  assert (blocksSchema openedCache) as Hschema.
  { intros d idx [= <-]. vm_compute. by intros [= <-]. }
  destruct (getBlocksByMiner_always_throws observer "A" 10 [] 3000 openedCache Hschema)
    as (_ & Hopen & _).
  eapply Hopen; vm_compute; reflexivity.
Defined.
End StorageProperties.

(* ================================================================== *)
(** * Further properties of expiry *)
(* ================================================================== *)

Section ExpiryProperties.
Import P2PoolAPI P2PoolStorage.

Lemma cursorLoop_purgesBefore (cutoff : Z) (os : ObjectStore) (n : Z) :
  (cursorLoop (indexEntries "timestamp" (upperBound (KNum cutoff)) (records os)) os n).1
    = purgeBefore cutoff os.
Proof.
  set (pending := indexEntries _ _ _).
  assert (forall pk, records (cursorLoop pending os n).1 !! pk
                     = records (purgeBefore cutoff os) !! pk) as Hrecs.
  { intros pk. rewrite cursorLoop_records. cbn [purgeBefore records].
    apply option_eq. intros r. rewrite map_lookup_filter_Some. cbn [snd].
    destruct (decide (pk ∈ pending.*1)) as [Hin|Hnin].
    - apply list_elem_of_fmap in Hin as ([pk' r'] & -> & Hin). cbn [fst].
      apply indexEntries_timestamp in Hin as [Hr Hts].
      split; [done|]. intros [Hr' ?]. rewrite Hr in Hr'. injection Hr' as <-. lia.
    - split; [|by intros [? _]]. intros Hr. split; [done|].
      destruct (Z_lt_le_dec cutoff (timestamp r)) as [?|Hle]; [done|].
      exfalso. apply Hnin. apply list_elem_of_fmap. exists (pk, r).
      split; [done|]. by apply indexEntries_timestamp. }
  pose proof (cursorLoop_indexes pending os n) as Hidx.
  destruct (cursorLoop pending os n).1 as [idx recs]. cbn in *. subst idx.
  unfold purgeBefore. f_equal. by apply map_eq.
Qed.

Lemma purgeBefore_nothing (cutoff : Z) (os : ObjectStore) :
  indexEntries "timestamp" (upperBound (KNum cutoff)) (records os) = [] ->
  purgeBefore cutoff os = os.
Proof.
  intros Hnone. destruct os as [idx recs]. unfold purgeBefore. cbn [indexes records] in *.
  f_equal. apply map_filter_id. intros pk r Hr. cbn.
  destruct (Z_lt_le_dec cutoff (timestamp r)) as [?|Hle]; [done|].
  assert ((pk, r) ∈ indexEntries "timestamp" (upperBound (KNum cutoff)) recs) as Hin
    by by apply indexEntries_timestamp.
  rewrite Hnone in Hin. by apply not_elem_of_nil in Hin.
Qed.

Lemma clearStore_other (name name' : string) (cutoff : Z) (d : DB) :
  name' <> name -> clearStore name cutoff d !! name' = d !! name'.
Proof.
  intros Hne. unfold clearStore. destruct (String.eqb _ _); [done|].
  destruct (transaction d name) as [os|]; [|done].
  destruct (index os "timestamp") as [keyPath|]; [|done].
  destruct (indexEntries _ _ _); [done|]. unfold commit. by rewrite lookup_insert_ne.
Qed.

Lemma clearStore_metadata (cutoff : Z) (d : DB) : clearStore "metadata" cutoff d = d.
Proof. reflexivity. Qed.

Lemma clearStore_same (k : StoreKey) (cutoff : Z) (d : DB) (os : ObjectStore) :
  k <> METADATA -> d !! storeNameOf k = Some os ->
  index os "timestamp" = Ok "timestamp" ->
  clearStore (storeNameOf k) cutoff d !! storeNameOf k = Some (purgeBefore cutoff os).
Proof.
  intros Hk Hos Hidx. unfold clearStore.
  assert (String.eqb (storeNameOf k) (storeNameOf METADATA) = false) as -> by by destruct k.
  pose proof Hos as Htx. apply transaction_Ok in Htx. rewrite Htx, Hidx.
  pose proof (cursorLoop_purgesBefore cutoff os 0) as Hpurge.
  destruct (indexEntries "timestamp" (upperBound (KNum cutoff)) (records os))
    as [|entry pending] eqn:Hentries.
  - rewrite Hos. f_equal. symmetry. by apply purgeBefore_nothing.
  - unfold commit. rewrite lookup_insert_eq. by rewrite Hpurge.
Qed.

(** X20. [clearOldCache] never throws. Without a database it does
    nothing. On a database with the partitions and indexes of [upgrade] it
    removes from every partition other than metadata exactly the entries
    written at or before [now - olderThanHours] hours, and leaves the
    metadata partition alone; so [clearOldCache(0)] empties a partition
    whose entries were all written at or before [now]. *)
Theorem clearOldCache_purges (olderThanHours now : Z) (st : Storage) :
  (db st = None -> clearOldCache olderThanHours now st = st) /\
  (forall d, db st = Some d -> cleanable d ->
     exists d',
       db (clearOldCache olderThanHours now st) = Some d' /\
       d' !! "metadata" = d !! "metadata" /\
       forall k os, k <> METADATA -> d !! storeNameOf k = Some os ->
         d' !! storeNameOf k
           = Some (purgeBefore (now - olderThanHours * 60 * 60 * 1000) os) /\
         (olderThanHours = 0 ->
          (forall pk r, records os !! pk = Some r -> timestamp r <= now) ->
          recordsOf (clearOldCache olderThanHours now st) (storeNameOf k) = ∅)).
Proof.
  split.
  - intros Hdb. unfold clearOldCache. by rewrite Hdb.
  - intros d Hdb Hclean. unfold clearOldCache. rewrite Hdb.
    set (cutoff := now - olderThanHours * 60 * 60 * 1000).
    eexists. split; [reflexivity|].
    cbn [STORES fmap list_fmap snd foldl]. rewrite clearStore_metadata. split.
    + rewrite !clearStore_other by done. done.
    + intros k os Hk Hos. destruct (Hclean k Hk) as (os' & Hos' & Hidx).
      rewrite Hos in Hos'. injection Hos' as <-.
      assert (clearStore "payouts" cutoff
                (clearStore "blocks" cutoff
                   (clearStore "shares" cutoff
                      (clearStore "minerInfo" cutoff (clearStore "poolInfo" cutoff d))))
              !! storeNameOf k = Some (purgeBefore cutoff os)) as Hpurged.
      { destruct k; [..|done]; cbn [storeNameOf] in *;
          rewrite ?(clearStore_other "payouts"),
                  ?(clearStore_other "blocks"), ?(clearStore_other "shares"),
                  ?(clearStore_other "minerInfo") by done.
        - apply (clearStore_same POOL_INFO); done.
        - apply (clearStore_same MINER_INFO); [done| |done].
          by rewrite clearStore_other.
        - apply (clearStore_same SHARES); [done| |done].
          by rewrite !clearStore_other.
        - apply (clearStore_same BLOCKS); [done| |done].
          by rewrite !clearStore_other.
        - apply (clearStore_same PAYOUTS); [done| |done].
          by rewrite !clearStore_other. }
      split; [exact Hpurged|]. intros Hzero Hpast.
      unfold recordsOf. cbn [withDB db]. rewrite Hpurged. cbn [purgeBefore records].
      apply map_empty. intros pk. apply map_lookup_filter_None. right.
      intros r Hr. cbn. specialize (Hpast pk r Hr). subst cutoff. lia.
Qed.

Lemma clearOldCache_purges_witness :
  clearOldCache 0 3000 closedCache = closedCache /\
  recordsOf (clearOldCache 0 (31 * day) agedCache) "shares" = ∅.
Proof.
  split.
  - apply (clearOldCache_purges 0 3000 closedCache). reflexivity.
  - destruct (proj2 (clearOldCache_purges 0 (31 * day) agedCache) agedDB eq_refl
                agedDB_cleanable) as (d' & _ & _ & Hpurge).
    apply (Hpurge SHARES agedShares); [done|vm_compute; reflexivity|reflexivity|].
    assert (map_Forall (fun _ r => timestamp r <= 31 * day) (records agedShares)) as Hpast.
    { apply (bool_decide_unpack _). vm_compute. exact I. }
    exact Hpast.
Defined.

Lemma holdsExpired_not_metadata (now : Z) (d : DB) : ~ holdsExpired now d METADATA.
Proof. intros (os & pk & r & _ & _ & Hexp). by cbn in Hexp. Qed.

Lemma purge_no_expired (now : Z) (k : StoreKey) (os : ObjectStore) (pk : string)
    (r : StoredData) :
  records (purge now k os) !! pk = Some r -> expired now k r = false.
Proof. by intros [_ ?]%purge_lookup. Qed.

Lemma purge_idemp (now : Z) (k : StoreKey) (os : ObjectStore) :
  purge now k (purge now k os) = purge now k os.
Proof. apply purge_nothing. intros pk r. apply purge_no_expired. Qed.

(** One run of [cleanup]: either no partition holds an expired entry, or
    one that does is purged and drops out of those that do. *)
Lemma cleanup_step (now : Z) (st : Storage) (d : DB) :
  db st = Some d -> cleanable d ->
  exists st' d',
    cleanup now st = Ok st' /\ db st' = Some d' /\ cleanable d' /\
    (forall k os, k <> METADATA -> d !! storeNameOf k = Some os ->
       d' !! storeNameOf k = Some os \/ d' !! storeNameOf k = Some (purge now k os)) /\
    ((forall k, ~ holdsExpired now d' k) \/
     exists k0, holdsExpired now d k0 /\
                forall k, holdsExpired now d' k -> holdsExpired now d k /\ k <> k0).
Proof.
  intros Hdb Hclean.
  destruct (cleanup_cases now st d Hdb Hclean) as (st' & d' & Hrun & Hdb' & Hcases).
  exists st', d'. split_and!; [done..| | |].
  - intros k Hk. destruct (Hclean k Hk) as (os & Hos & Hidx).
    destruct Hcases as [[Hsame _]|(k0 & os0 & _ & Hos0 & _ & Hpurged & Hother)].
    + exists os. by rewrite Hsame.
    + destruct (decide (k = k0)) as [->|Hne].
      * rewrite Hos in Hos0. injection Hos0 as <-. exists (purge now k0 os). done.
      * exists os. by rewrite Hother.
  - intros k os Hk Hos.
    destruct Hcases as [[Hsame _]|(k0 & os0 & _ & Hos0 & _ & Hpurged & Hother)].
    + left. by rewrite Hsame.
    + destruct (decide (k = k0)) as [->|Hne].
      * rewrite Hos in Hos0. injection Hos0 as <-. by right.
      * left. by rewrite Hother.
  - destruct Hcases as [[Hsame Hnone]|(k0 & os0 & Hk0 & Hos0 & Hexp0 & Hpurged & Hother)].
    + left. intros k (os & pk & r & Hos & Hr & Hexp).
      destruct (decide (k = METADATA)) as [->|Hk]; [by cbn in Hexp|].
      apply (Hnone k). exists os, pk, r. by rewrite <- Hsame.
    + right. exists k0. split; [done|]. intros k (os & pk & r & Hos & Hr & Hexp).
      destruct (decide (k = k0)) as [->|Hne].
      * rewrite Hpurged in Hos. injection Hos as <-.
        apply purge_no_expired in Hr. congruence.
      * split; [|done]. exists os, pk, r. by rewrite <- Hother.
Qed.

Lemma length_filter_ne (k0 : StoreKey) (ks : list StoreKey) :
  k0 ∈ ks -> (length (filter (fun k => k <> k0) ks) < length ks)%nat.
Proof.
  induction ks as [|k ks IH]; [by intros ?%not_elem_of_nil|].
  intros Hin. rewrite filter_cons. pose proof (length_filter (fun k => k <> k0) ks).
  destruct (decide (k <> k0)) as [Hne|Heq]; cbn [length]; [|lia].
  apply elem_of_cons in Hin as [->|Hin]; [done|]. specialize (IH Hin). lia.
Qed.

Lemma purge_ext (now now' : Z) (k : StoreKey) (os : ObjectStore) :
  (forall pk r, records os !! pk = Some r -> expired now k r = expired now' k r) ->
  purge now k os = purge now' k os.
Proof.
  intros Hsame. unfold purge. f_equal. apply map_filter_ext. intros pk r Hr. cbn.
  by rewrite (Hsame pk r Hr).
Qed.

(** [d] reads the same at [now] and at [t0]: every entry is expired at
    both or at neither. A run of [cleanup] keeps that, since it adds
    entries to the metadata partition only. *)
Local Abbreviation alike now t0 d :=
  (forall k os pk r (_ : d !! storeNameOf k = Some os) (_ : records os !! pk = Some r),
      expired now k r = expired t0 k r).

Lemma holdsExpired_alike (now t0 : Z) (d : DB) (k : StoreKey) :
  alike now t0 d -> holdsExpired now d k <-> holdsExpired t0 d k.
Proof.
  intros Halike. split; intros (os & pk & r & Hos & Hr & Hexp); exists os, pk, r;
    (split_and!; [done..|]); by rewrite <- Hexp, (Halike k os pk r Hos Hr).
Qed.

Lemma alike_kept (now t0 t1 : Z) (d d1 : DB) :
  cleanable d -> alike now t0 d ->
  (forall k os, k <> METADATA -> d !! storeNameOf k = Some os ->
     d1 !! storeNameOf k = Some os \/ d1 !! storeNameOf k = Some (purge t1 k os)) ->
  alike now t0 d1.
Proof.
  intros Hclean Halike Hrel k os1 pk r Hos1 Hr.
  destruct (decide (k = METADATA)) as [->|Hk]; [done|].
  destruct (Hclean k Hk) as (os & Hos & _).
  apply (Halike k os pk r Hos).
  destruct (Hrel k os Hk Hos) as [Heq|Heq]; rewrite Heq in Hos1; injection Hos1 as <-;
    [done|by apply purge_lookup in Hr as [? _]].
Qed.

Lemma cleanupRuns_converge (t0 : Z) (nows : list Z) (ks : list StoreKey)
    (st : Storage) (d : DB) :
  db st = Some d -> cleanable d ->
  (forall now, now ∈ nows -> alike now t0 d) ->
  (forall k, holdsExpired t0 d k -> k ∈ ks) -> (length ks <= length nows)%nat ->
  exists st' d',
    cleanupRuns nows st = Ok st' /\ db st' = Some d' /\
    (forall k, ~ holdsExpired t0 d' k) /\
    (forall k os, k <> METADATA -> d !! storeNameOf k = Some os ->
       d' !! storeNameOf k = Some os \/ d' !! storeNameOf k = Some (purge t0 k os)).
Proof.
  revert ks st d. induction nows as [|now later IH]; intros ks st d Hdb Hclean Halike Hcover Hlen.
  - exists st, d. split_and!; [done..| |by auto].
    intros k Hk%Hcover. destruct ks; [by apply not_elem_of_nil in Hk|cbn in Hlen; lia].
  - destruct (cleanup_step now st d Hdb Hclean)
      as (st1 & d1 & Hrun & Hdb1 & Hclean1 & Hrel & Hshrink).
    cbn [cleanupRuns]. rewrite Hrun.
    assert (alike now t0 d) as Hnow by (apply Halike, elem_of_cons; by left).
    assert (forall k os, k <> METADATA -> d !! storeNameOf k = Some os ->
              d1 !! storeNameOf k = Some os \/ d1 !! storeNameOf k = Some (purge t0 k os))
      as Hrel0.
    { intros k os Hk Hos. destruct (Hrel k os Hk Hos) as [?|Hp]; [by left|right].
      rewrite Hp. f_equal. apply purge_ext. intros pk r Hr. by apply (Hnow k os pk r). }
    assert (forall t, t ∈ now :: later -> alike t t0 d1) as Halike1.
    { intros t Ht. by apply (alike_kept t t0 t0 d d1 Hclean (Halike t Ht)). }
    assert (exists ks', (forall k, holdsExpired t0 d1 k -> k ∈ ks') /\
                        (length ks' <= length later)%nat) as (ks' & Hcover' & Hlen').
    { assert (alike now t0 d1) as Hnow1 by (apply Halike1, elem_of_cons; by left).
      destruct Hshrink as [Hnone|(k0 & Hexp0 & Hless)].
      - exists []. split; [|cbn; lia].
        intros k Hk%(holdsExpired_alike now t0 d1 k Hnow1). by apply Hnone in Hk.
      - exists (filter (fun k => k <> k0) ks). split.
        + intros k Hk%(holdsExpired_alike now t0 d1 k Hnow1).
          destruct (Hless k Hk) as [Hold Hne]. apply list_elem_of_filter.
          split; [done|]. by apply Hcover, (holdsExpired_alike now t0 d k Hnow).
        + apply (holdsExpired_alike now t0 d k0 Hnow), Hcover in Hexp0.
          pose proof (length_filter_ne k0 ks Hexp0). cbn [length] in Hlen. lia. }
    destruct (IH ks' st1 d1 Hdb1 Hclean1) as (st' & d' & Hruns & Hdb' & Hnone & Hrel');
      [|done..|].
    { intros t Ht. apply Halike1, elem_of_cons. by right. }
    exists st', d'. split_and!; [done..|].
    intros k os Hk Hos. destruct (Hrel0 k os Hk Hos) as [Hos1|Hos1].
    + by apply Hrel'.
    + destruct (Hrel' k _ Hk Hos1) as [?|Hp]; [by right|]. right.
      by rewrite purge_idemp in Hp.
Qed.

(** X21. Five runs of [cleanup] one after the other, each reading the
    clock itself and with nothing written in between, leave no entry past
    its retention, provided no entry reaches its retention period between
    the runs: on a database with the partitions and indexes of [upgrade],
    every partition other than metadata then holds exactly its entries
    written after [now - retention], for the reading [now] of any of the
    runs. (One run may stop at the first partition that holds an expired
    entry; when entries keep expiring between the runs, a later partition
    may never be reached, see [cleanup_can_starve_shares].) *)
Theorem cleanup_converges (nows : list Z) (st : Storage) (d : DB) :
  db st = Some d -> cleanable d -> (5 <= length nows)%nat -> settled nows d ->
  exists st' d',
    cleanupRuns nows st = Ok st' /\ db st' = Some d' /\
    forall now, now ∈ nows ->
      (forall k, ~ holdsExpired now d' k) /\
      forall k os, k <> METADATA -> d !! storeNameOf k = Some os ->
        d' !! storeNameOf k = Some (purge now k os).
Proof.
  intros Hdb Hclean Hlen Hsettled.
  destruct nows as [|t0 later] eqn:Hnows; [cbn in Hlen; lia|]. rewrite <- Hnows in *.
  assert (t0 ∈ nows) as Ht0 by (rewrite Hnows; apply elem_of_cons; by left).
  assert (forall now, now ∈ nows -> alike now t0 d) as Halike.
  { intros now Hnow k os pk r Hos Hr. by apply (Hsettled now t0 k os pk r). }
  destruct (cleanupRuns_converge t0 nows [POOL_INFO; MINER_INFO; SHARES; BLOCKS; PAYOUTS]
              st d Hdb Hclean Halike) as (st' & d' & Hruns & Hdb' & Hnone & Hrel).
  { intros k Hk. destruct k; try (rewrite !elem_of_cons; by auto 6).
    by apply holdsExpired_not_metadata in Hk. }
  { cbn [length]. lia. }
  exists st', d'. split_and!; [done..|]. intros now Hnow.
  assert (alike now t0 d') as Halike'.
  { by apply (alike_kept now t0 t0 d d' Hclean (Halike now Hnow)). }
  split.
  - intros k Hk%(holdsExpired_alike now t0 d' k Halike'). by apply Hnone in Hk.
  - intros k os Hk Hos.
    assert (d' !! storeNameOf k = Some (purge t0 k os)) as ->.
    { destruct (Hrel k os Hk Hos) as [Hsame|Hpurged]; [|done].
      rewrite Hsame. f_equal. symmetry. apply purge_nothing.
      eapply not_holdsExpired; [exact Hsame|apply Hnone]. }
    f_equal. apply purge_ext. intros pk r Hr. symmetry. by apply (Halike now Hnow k os pk r).
Qed.

Lemma agedCacheWithPool_cleanable : cleanable (default ∅ (db agedCacheWithPool)).
Proof.
  intros k Hk.
  destruct k; [..|done];
    (destruct (default ∅ (db agedCacheWithPool) !! _) as [os|] eqn:Hos;
     [exists os; split; [done|]; vm_compute in Hos; injection Hos as <-; reflexivity
     |vm_compute in Hos; discriminate]).
Defined.

Lemma agedCacheWithPool_settled :
  settled (hourly (31 * day)) (default ∅ (db agedCacheWithPool)).
Proof.
  intros now now' k os pk r Hnow Hnow' Hos Hr.
  assert (map_Forall (fun _ r => expired now k r = expired now' k r) (records os)) as Hall.
  { assert (os = default {| indexes := []; records := ∅ |}
                   (default ∅ (db agedCacheWithPool) !! storeNameOf k)) as ->
      by (by rewrite Hos).
    unfold hourly in Hnow, Hnow'. apply list_elem_of_fmap in Hnow as (i & -> & Hi).
    apply list_elem_of_fmap in Hnow' as (j & -> & Hj).
    apply elem_of_seqZ in Hi, Hj.
    assert (i = 0 \/ i = 1 \/ i = 2 \/ i = 3 \/ i = 4) as Hi' by lia.
    assert (j = 0 \/ j = 1 \/ j = 2 \/ j = 3 \/ j = 4) as Hj' by lia.
    destruct Hi' as [->|[->|[->|[->| ->]]]], Hj' as [->|[->|[->|[->| ->]]]];
      destruct k; apply (bool_decide_unpack _); vm_compute; exact I. }
  exact (Hall pk r Hr).
Defined.

Lemma cleanup_converges_witness :
  recordsOf (orElse (cleanupRuns (hourly (31 * day)) agedCacheWithPool) agedCacheWithPool)
            "shares"
    !! shareKey observer (shareOf "t1" 90 "A") = None.
Proof.
  destruct (cleanup_converges (hourly (31 * day)) agedCacheWithPool
              (default ∅ (db agedCacheWithPool))
              eq_refl agedCacheWithPool_cleanable) as (st' & d' & Hruns & Hdb' & Hpurged).
  { apply Nat.leb_le. vm_compute. reflexivity. }
  { exact agedCacheWithPool_settled. }
  rewrite Hruns. cbn [orElse]. unfold recordsOf. rewrite Hdb'.
  destruct (Hpurged (31 * day)) as [_ Hstores].
  { apply (list_elem_of_lookup_2 _ 0%nat). reflexivity. }
  assert (d' !! "shares" = Some (purge (31 * day) SHARES agedShares)) as ->.
  { apply (Hstores SHARES agedShares); [done|vm_compute; reflexivity]. }
  apply eq_None_not_Some. intros [r [Hr Hyoung]%purge_lookup].
  vm_compute in Hr. injection Hr as <-. vm_compute in Hyoung. discriminate.
Defined.

(** Without [settled] the runs need not get anywhere: when a pool
    snapshot reaches its retention before each of five hourly runs, every
    run ends in the pool-info partition, and a share that was past its
    retention of 30 days at each of the runs is still there after the
    fifth. *)
Example cleanup_can_starve_shares :
  let after := orElse (cleanupRuns (hourly (31 * day)) starvedCache) starvedCache in
  size (recordsOf starvedCache "poolInfo") = 5%nat /\
  size (recordsOf after "poolInfo") = 0%nat /\
  P2PoolStorage.timestamp <$> recordsOf after "shares" !! shareKey observer (shareOf "t1" 90 "A")
    = Some 0 /\
  RETENTION_PERIODS SHARES = Some (30 * day).
Proof. vm_compute. split_and!; reflexivity. Qed.

(** X22. A run of [cleanup] that finds nothing to delete records itself in
    the metadata partition: the entry [global] then holds the time of the
    run and, as size estimate, 1024 bytes for each record of the six
    partitions, and [getStorageInfo] returns it. *)
Theorem cleanup_writes_metadata (now now' : Z) (st : Storage) (d : DB) (osm : ObjectStore) :
  db st = Some d -> cleanable d -> d !! "metadata" = Some osm ->
  (forall k, ~ holdsExpired now d k) ->
  let metadata :=
    MetadataData {| totalSize := countRecords d * 1024; lastCleanup := now;
                    dataVersion := "1.0" |} in
  exists st',
    cleanup now st = Ok st' /\
    data <$> recordsOf st' "metadata" !! "global" = Some metadata /\
    (forall k, k <> METADATA -> recordsOf st' (storeNameOf k) = recordsOf st (storeNameOf k)) /\
    exists st'', getStorageInfo now' st' = Ok (Some metadata, st'').
Proof.
  intros Hdb Hclean Hmeta Hnone metadata. unfold cleanup, ensureReady. rewrite Hdb, STORES_keys.
  pose proof (cleanStores_spec now d
                [POOL_INFO; MINER_INFO; SHARES; BLOCKS; PAYOUTS; METADATA] 0 Hclean) as Hspec.
  destruct (cleanStores _ now d 0) as [[d' e]|[d' n']].
  { destruct Hspec as (k & os & _ & _ & Hexp & _). by apply Hnone in Hexp. }
  destruct Hspec as [-> _].
  assert (calculateStorageSize d = Ok (countRecords d * 1024)) as ->.
  { destruct (Hclean POOL_INFO) as (o1 & H1 & _); [done|].
    destruct (Hclean MINER_INFO) as (o2 & H2 & _); [done|].
    destruct (Hclean SHARES) as (o3 & H3 & _); [done|].
    destruct (Hclean BLOCKS) as (o4 & H4 & _); [done|].
    destruct (Hclean PAYOUTS) as (o5 & H5 & _); [done|].
    cbn [storeNameOf] in *.
    unfold calculateStorageSize, countRecords, transaction.
    cbn [STORES foldl foldr fmap list_fmap snd].
    rewrite H1, H2, H3, H4, H5, Hmeta. cbn [fmap option_fmap option_map default].
    unfold Datatypes.id. f_equal. lia. }
  fold metadata.
  pose proof (store_then_retrieve "metadata" "global" metadata now now' (withDB st d)) as Hround.
  destruct (store "metadata" "global" metadata now (withDB st d)) as [st'|] eqn:Hstore.
  - exists st'. split; [done|].
    destruct (Hround st' eq_refl) as (st'' & Hget & _).
    apply store_Ok in Hstore as (d0 & os & [= <-] & Hos & ->).
    split_and!; [|intros k Hk|by eauto].
    + unfold recordsOf, withDB, commit. cbn [db]. rewrite lookup_insert_eq.
      cbn [put records id]. by rewrite lookup_insert_eq.
    + unfold recordsOf, withDB, commit. cbn [db]. rewrite Hdb.
      rewrite lookup_insert_ne; [done|]. by destruct k.
  - exfalso. unfold store, ensureReady, transaction in Hstore. cbn [withDB db] in Hstore.
    by rewrite Hmeta in Hstore.
Qed.

Lemma cleanup_writes_metadata_witness :
  exists st',
    cleanup 5000 pooledCache = Ok st' /\
    data <$> recordsOf st' "metadata" !! "global"
      = Some (MetadataData {| totalSize := 1024; lastCleanup := 5000; dataVersion := "1.0" |}).
Proof.
  destruct (cleanup_writes_metadata 5000 6000 pooledCache (default ∅ (db pooledCache))
              {| indexes := []; records := ∅ |})
    as (st' & Hrun & Hmeta & _); [reflexivity| |vm_compute; reflexivity| |].
  - intros k Hk.
    destruct k; [..|done];
      (destruct (default ∅ (db pooledCache) !! _) as [os|] eqn:Hos;
       [exists os; split; [done|]; vm_compute in Hos; injection Hos as <-; reflexivity
       |vm_compute in Hos; discriminate]).
  - intros k (os & pk & r & Hos & Hr & Hexp).
    assert (map_Forall (fun _ r => expired 5000 k r = false) (records os)) as Hyoung.
    { assert (os = default {| indexes := []; records := ∅ |}
                     (default ∅ (db pooledCache) !! storeNameOf k)) as ->
        by (by rewrite Hos).
      destruct k; apply (bool_decide_unpack _); vm_compute; exact I. }
    specialize (Hyoung pk r Hr). congruence.
  - exists st'. split; [exact Hrun|exact Hmeta].
Defined.
End ExpiryProperties.

Section DashboardProperties.
Import P2PoolAPI P2PoolStorage Dashboard.

Lemma foldl_max_in (x : Z) (l : list Z) : foldl Z.max x l ∈ x :: l.
Proof.
  revert x. induction l as [|y l IH]; intros x; [cbn; set_solver|].
  cbn [foldl]. specialize (IH (Z.max x y)).
  apply elem_of_cons in IH as [Heq|Hin].
  - rewrite Heq. destruct (Z.max_spec x y) as [[_ ->]|[_ ->]]; set_solver.
  - set_solver.
Qed.

Lemma foldl_max_upper (x : Z) (l : list Z) (s : Z) : s ∈ x :: l -> s <= foldl Z.max x l.
Proof.
  revert x. induction l as [|y l IH]; intros x Hin.
  - apply list_elem_of_singleton in Hin as ->. cbn. lia.
  - cbn [foldl]. pose proof (foldl_max_ge (Z.max x y) l).
    apply elem_of_cons in Hin as [->|Hin]; [lia|].
    apply elem_of_cons in Hin as [->|Hin]; [lia|].
    apply IH. set_solver.
Qed.

(** X23. [lastUpdate] is the latest stamp: it is absent exactly when no
    query has data (every [dataUpdatedAt] is 0), and otherwise it is the
    stamp of one of the eight queries, not 0, and no earlier than the stamp
    of any query that has data. *)
Theorem lastUpdate_is_latest_stamp (qs : Queries) :
  (lastUpdate qs = None <-> Forall (fun s => s = 0) (stamps qs)) /\
  (forall t, lastUpdate qs = Some t ->
     t ∈ stamps qs /\ t <> 0 /\ forall s, s ∈ stamps qs -> s <> 0 -> s <= t).
Proof.
  assert (lastUpdate qs
          = match List.filter (fun t => negb (t =? 0)) (stamps qs) with
            | [] => None
            | t :: ts => Some (foldl Z.max t ts)
            end) as -> by reflexivity.
  generalize (stamps qs). intros l.
  assert (forall s, s ∈ List.filter (fun t => negb (t =? 0)) l <-> s ∈ l /\ s <> 0) as Hfilter.
  { intros s. rewrite !list_elem_of_In, filter_In, negb_true_iff, Z.eqb_neq. done. }
  destruct (List.filter _ l) as [|t ts] eqn:Hl.
  - split; [|done]. split; [|done]. intros _. apply Forall_forall. intros s Hs.
    destruct (decide (s = 0)) as [|Hne]; [done|].
    by destruct (not_elem_of_nil s); apply Hfilter.
  - split.
    + split; [done|]. intros Hall. exfalso.
      destruct (proj1 (Hfilter t)) as [Hin Hne]; [apply elem_of_cons; auto|].
      rewrite Forall_forall in Hall. by apply Hne, Hall.
    + intros ? [= <-]. pose proof (foldl_max_in t ts) as Hin. apply Hfilter in Hin as [? ?].
      split_and!; [done..|]. intros s Hs Hne. apply foldl_max_upper. apply Hfilter. done.
Qed.

Lemma lastUpdate_is_latest_stamp_witness :
  lastUpdate settledQueries = Some 7000 /\ 5000 <= 7000.
Proof.
  destruct (lastUpdate_is_latest_stamp settledQueries) as [_ Hlatest].
  split; [reflexivity|].
  destruct (Hlatest 7000 eq_refl) as (_ & _ & Hupper).
  apply Hupper; [|done]. by apply (list_elem_of_lookup_2 _ 0%nat).
Defined.

(** X24. [error] reports the first failure in the order of the hook: it is
    absent exactly when no query has failed, and when the queries before a
    failed one have not failed it is the message of that one, with
    ["Unknown error"] in the place of an empty message. *)
Theorem error_reports_first_failure (qs : Queries) :
  (error qs = None <-> Forall (fun e => e = None) (failures qs)) /\
  (forall before message after,
     failures qs = before ++ Some message :: after ->
     Forall (fun e => e = None) before ->
     error qs = Some (if String.eqb message "" then "Unknown error" else message)).
Proof.
  assert (error qs
          = match omap (fun e => e) (failures qs) with
            | [] => None
            | message :: _ =>
                Some (if String.eqb message "" then "Unknown error" else message)
            end) as -> by reflexivity.
  generalize (failures qs). intros l. split.
  - induction l as [|[e|] l IH]; cbn [omap].
    + split; [by constructor|done].
    + split; [done|]. by intros [[=] _]%Forall_cons.
    + rewrite IH. split; [by constructor|by intros [_ ?]%Forall_cons].
  - intros before message after -> Hnone.
    induction Hnone as [|e before -> _ IH]; [done|]. apply IH.
Qed.

Lemma error_reports_first_failure_witness :
  error settledQueries = Some "Unknown error".
Proof.
  destruct (error_reports_first_failure settledQueries) as [_ Hfirst].
  apply (Hfirst [None; None] ""
           [None; None; None; Some "Miner not found"; None]); [reflexivity|].
  by repeat constructor.
Defined.

(** X25. Write-through and fallback compose: after a refresh of the pool
    info that succeeded at [t1] on an open cache, a refresh that fails at
    [t2] serves what the first one fetched, without an error and stamped
    [t2]; the cache entry keeps [t1] as its write time. The same holds of
    the query function of the miner info. *)
Theorem failed_refresh_serves_last_fetch (apiUrl address failure : string) (poolInfo : PoolInfo)
    (minerInfo : MinerInfo) (t1 t2 : Z) (qs : Queries) (st : Storage) (d : DB)
    (osp osm : ObjectStore) :
  window st = true -> db st = Some d ->
  d !! "poolInfo" = Some osp -> d !! "minerInfo" = Some osm -> address <> "" ->
  let first := refreshPoolInfo apiUrl (Ok poolInfo) t1 qs st in
  let second := refreshPoolInfo apiUrl (Err failure) t2 first.1 first.2 in
  let firstMiner := minerInfoQueryFn apiUrl address (Ok minerInfo) t1 st in
  let secondMiner := minerInfoQueryFn apiUrl address (Err failure) t2 firstMiner.2 in
  qdata (poolInfoQuery first.1) = Some (PoolInfoData poolInfo) /\
  dataUpdatedAt (poolInfoQuery first.1) = t1 /\
  qdata (poolInfoQuery second.1) = Some (PoolInfoData poolInfo) /\
  qerror (poolInfoQuery second.1) = None /\
  dataUpdatedAt (poolInfoQuery second.1) = t2 /\
  timestamp <$> recordsOf second.2 "poolInfo" !! ("pool_" +:+ apiUrl) = Some t1 /\
  firstMiner.1 = Ok (MinerInfoData minerInfo) /\
  secondMiner.1 = Ok (MinerInfoData minerInfo).
Proof.
  intros Hw Hdb Hosp Hosm Haddress first second firstMiner secondMiner.
  apply String.eqb_neq in Haddress.
  assert (exists st1, storePoolInfo apiUrl poolInfo t1 st = Ok st1) as [st1 Hst1].
  { unfold storePoolInfo, store, ensureReady, transaction. rewrite Hw, Hdb, Hosp. eauto. }
  assert (exists st1, storeMinerInfo apiUrl address minerInfo t1 st = Ok st1) as [sm1 Hsm1].
  { unfold storeMinerInfo, store, ensureReady, transaction. rewrite Hdb, Hosm. eauto. }
  assert (window st1 = true) as Hw1.
  { unfold storePoolInfo in Hst1. rewrite Hw in Hst1. cbn [negb] in Hst1.
    apply store_Ok in Hst1 as (? & ? & _ & _ & ->). done. }
  pose proof Hst1 as Hround. unfold storePoolInfo in Hround. rewrite Hw in Hround.
  cbn [negb] in Hround.
  destruct (store_then_retrieve _ _ _ _ t2 _ _ Hround) as (st2 & Hget & Hentry).
  destruct (store_then_retrieve _ _ _ _ t2 _ _ Hsm1) as (sm2 & Hgetm & _).
  subst first second firstMiner secondMiner.
  unfold refreshPoolInfo, poolInfoQueryFn, poolInfoFallback, getPoolInfo.
  rewrite !Hst1. cbn [fst snd]. rewrite !Hw1. cbn [negb]. rewrite !Hget.
  cbn [fst snd settle withPoolInfo poolInfoQuery qdata qerror dataUpdatedAt].
  unfold minerInfoQueryFn, P2PoolStorage.getMinerInfo. rewrite Haddress, Hsm1.
  cbn [fst snd]. rewrite Hgetm.
  split_and!; try done. by rewrite Hentry.
Qed.

Lemma failed_refresh_serves_last_fetch_witness :
  let first := refreshPoolInfo observer (Ok snapshot) 1000 idleQueries openedCache in
  let second := refreshPoolInfo observer (Err "Failed to fetch pool info: Failed to fetch")
                  31000 first.1 first.2 in
  qdata (poolInfoQuery second.1) = Some (PoolInfoData snapshot) /\
  dataUpdatedAt (poolInfoQuery second.1) = 31000.
Proof.
  destruct (failed_refresh_serves_last_fetch observer "4A"
              "Failed to fetch pool info: Failed to fetch" snapshot
              {| miner_id := 3; miner_shares := 12 |} 1000 31000 idleQueries openedCache
              (upgrade ∅)
              {| indexes := [("timestamp", "timestamp"); ("apiUrl", "apiUrl")]; records := ∅ |}
              {| indexes := [("timestamp", "timestamp"); ("apiUrl", "apiUrl");
                             ("address", "address")]; records := ∅ |})
    as (_ & _ & Hdata & _ & Hstamp & _);
    [reflexivity|reflexivity|vm_compute; reflexivity|vm_compute; reflexivity|done|].
  split; [exact Hdata|exact Hstamp].
Defined.

(** X26. While the database is not open, the query functions that write
    through fail whatever the network did. In a browser the pool-info
    query rejects with ["Storage not initialized"], after a successful
    fetch as well as after a failed one, whose own message is lost; the
    miner-info query does the same in or outside a browser. Outside a
    browser the pool-info query does without the cache: it returns what was
    fetched, or the failure of the fetch. *)
Theorem queries_without_database (apiUrl address : string) (fetchedPool : Result PoolInfo)
    (fetchedMiner : Result MinerInfo) (now : Z) (st : Storage) :
  db st = None -> address <> "" ->
  (window st = true ->
     poolInfoQueryFn apiUrl fetchedPool now st = (Err "Storage not initialized", st)) /\
  (window st = false ->
     poolInfoQueryFn apiUrl fetchedPool now st
       = (match fetchedPool with
          | Ok poolInfo => Ok (PoolInfoData poolInfo)
          | Err failure => Err failure
          end, st)) /\
  minerInfoQueryFn apiUrl address fetchedMiner now st = (Err "Storage not initialized", st).
Proof.
  intros Hdb Haddress. apply String.eqb_neq in Haddress. split_and!.
  - intros Hw.
    unfold poolInfoQueryFn, poolInfoFallback, storePoolInfo, getPoolInfo, store, retrieve,
      ensureReady.
    rewrite Hw, Hdb. by destruct fetchedPool.
  - intros Hw.
    unfold poolInfoQueryFn, poolInfoFallback, storePoolInfo, getPoolInfo.
    rewrite Hw. by destruct fetchedPool.
  - unfold minerInfoQueryFn, storeMinerInfo, P2PoolStorage.getMinerInfo, store, retrieve,
      ensureReady.
    rewrite Haddress, Hdb. by destruct fetchedMiner.
Qed.

Lemma queries_without_database_witness :
  poolInfoQueryFn observer (Ok snapshot) 1000 unopenedCache
    = (Err "Storage not initialized", unopenedCache) /\
  poolInfoQueryFn observer (Ok snapshot) 1000 closedCache
    = (Ok (PoolInfoData snapshot), closedCache).
Proof.
  split.
  - by apply (queries_without_database observer "4A" (Ok snapshot)
                (Ok {| miner_id := 3; miner_shares := 12 |}) 1000 unopenedCache).
  - by apply (queries_without_database observer "4A" (Ok snapshot)
                (Ok {| miner_id := 3; miner_shares := 12 |}) 1000 closedCache).
Defined.
End DashboardProperties.

Section VersionDetection.
Import P2PoolAPI.

Lemma getMinerSharesDirect_length
    (getShares : Z -> Z -> option string -> Result (list SideBlock))
    (address : string) (limit : Z) :
  Z.of_nat (length (getMinerSharesDirect getShares address limit))
    = replyCount getShares address limit.
Proof.
  unfold getMinerSharesDirect, replyCount.
  destruct (getShares 1 limit (Some address)) as [shares|]; [|done].
  by rewrite (Permutation_length (sortDesc_Permutation side_height shares)).
Qed.

(** X27. [detectP2PoolVersion] looks at nothing but the number of shares
    in the reply to one miner-filtered request for 10 shares: it reports
    nothing when the request fails or the reply is empty, ["v4.5"] for
    five shares or more, ["v4.4"] for two to four and ["Unknown"] for one,
    so that two upstreams whose replies have the same length get the same
    verdict. The count it reports is the length of the reply, which the
    requested limit does not bound. *)
Theorem detectP2PoolVersion_counts_shares
    (getShares getShares' : Z -> Z -> option string -> Result (list SideBlock))
    (minerAddress : string) :
  let count := replyCount getShares minerAddress 10 in
  (detectP2PoolVersion getShares minerAddress = None <-> count = 0) /\
  (forall info, detectP2PoolVersion getShares minerAddress = Some info ->
     detectedFromShares info = count /\
     (5 <= count -> version info = "v4.5" /\ confidence info = "medium") /\
     (2 <= count < 5 -> version info = "v4.4" /\ confidence info = "low") /\
     (count = 1 -> version info = "Unknown" /\ signature info = None)) /\
  (replyCount getShares' minerAddress 10 = count ->
     detectP2PoolVersion getShares' minerAddress = detectP2PoolVersion getShares minerAddress).
Proof.
  intros count. subst count. unfold detectP2PoolVersion, getMinerShares.
  rewrite !getMinerSharesDirect_length.
  pose proof (Nat2Z.is_nonneg (length (getMinerSharesDirect getShares minerAddress 10))) as Hpos.
  rewrite getMinerSharesDirect_length in Hpos.
  generalize dependent (replyCount getShares minerAddress 10). intros n Hpos.
  split_and!.
  - destruct (n =? 0) eqn:Hn; [by apply Z.eqb_eq in Hn|].
    apply Z.eqb_neq in Hn. by repeat case_match.
  - intros info. destruct (n =? 0) eqn:Hn; [done|]. apply Z.eqb_neq in Hn.
    destruct (5 <=? n) eqn:H5; [|destruct (2 <=? n) eqn:H2]; intros [= <-];
      cbn [detectedFromShares version confidence signature]; split_and!; try done; lia.
  - by intros ->.
Qed.

Lemma detectP2PoolVersion_counts_shares_witness :
  detectedFromShares <$> detectP2PoolVersion twelveShares "A" = Some 12 /\
  detectP2PoolVersion oneShare "A" = detectP2PoolVersion foreignPages "A".
Proof.
  destruct (detectP2PoolVersion_counts_shares twelveShares twelveShares "A") as (_ & Hinfo & _).
  destruct (detectP2PoolVersion_counts_shares foreignPages oneShare "A")
    as (_ & _ & Hsame).
  split.
  - destruct (detectP2PoolVersion twelveShares "A") as [info|] eqn:Hdetect.
    + destruct (Hinfo info eq_refl) as [Hcount _].
      change (Some (detectedFromShares info) = Some 12). by rewrite Hcount.
    + vm_compute in Hdetect. discriminate.
  - apply Hsame. reflexivity.
Defined.
End VersionDetection.

Section SecondCopyLemmas.
Import P2PoolAPI.
Context {T : Type}.
Variable height : T -> Z.
Variable key : T -> string.
Variable owner : T -> string.
Variable batchSize : Z -> Z.
Variable getBatch : Z -> Z -> Result (list T).
Variable tooManyArguments : nat -> bool.
Variable address : string.
Variable limit : Z.

Local Abbreviation loop :=
  (P2PoolAPI2.scanLoop height key owner batchSize getBatch tooManyArguments address limit).

Lemma pushNew_prefix (all filtered : list T) : all `prefix_of` pushNew key all filtered.
Proof.
  unfold pushNew. revert all. induction filtered as [|y filtered IH]; intros all; [done|].
  cbn [foldl]. destruct (existsb _ all); [apply IH|].
  etrans; [|apply IH]. by apply prefix_app_r.
Qed.

(** The loop never drops what it has accumulated. *)
Lemma scanLoop2_prefix (pending : list Z) (all : list T) (from : option Z) (used : Z) :
  all `prefix_of` found (loop pending all from used).
Proof.
  revert all from used. induction pending as [|a pending IH]; intros all from used.
  - cbn [P2PoolAPI2.scanLoop]. by case_match.
  - cbn [P2PoolAPI2.scanLoop]. destruct (negb _); [done|].
    pose proof (pushNew_prefix all) as Hpush.
    destruct (getBatch a (batchSize a)) as [[|first others]|msg]; [done| |].
    + repeat case_match; cbn [found]; try done; try apply Hpush;
        (etrans; [apply Hpush|apply IH]).
    + destruct (a >=? maxAttempts); [done|apply IH].
Qed.

(** A run that is cut short of the fifth attempt and has not left the
    loop goes on where it stopped. *)
Lemma scanLoop2_app (l1 l2 : list Z) (all : list T) (from : option Z) (used : Z) :
  Forall (fun a => a < maxAttempts) l1 ->
  reason (loop l1 all from used) = MaxAttempts ->
  loop (l1 ++ l2) all from used
    = loop l2 (found (loop l1 all from used)) (cursor (loop l1 all from used))
           (attemptsUsed (loop l1 all from used)).
Proof.
  intros Hsmall. revert all from used.
  induction Hsmall as [|a l1 Ha _ IH]; intros all from used.
  - cbn [P2PoolAPI2.scanLoop app]. by destruct (negb _).
  - assert ((a >=? maxAttempts) = false) as Hge by (rewrite Z.geb_leb; apply Z.leb_gt; lia).
    cbn [P2PoolAPI2.scanLoop app]. rewrite Hge. destruct (negb _); [done|].
    destruct (getBatch a (batchSize a)) as [[|first others]|msg]; [done| |apply IH].
    repeat case_match; try done; apply IH.
Qed.

Lemma scanLoop2_short (pending : list Z) (all : list T) (from : option Z) (used : Z) :
  reason (loop pending all from used) = MaxAttempts ->
  Z.of_nat (length (found (loop pending all from used))) < limit.
Proof.
  revert all from used. induction pending as [|a pending IH]; intros all from used.
  - cbn [P2PoolAPI2.scanLoop]. destruct (Z.ltb_spec (Z.of_nat (length all)) limit); [done|].
    by cbn.
  - cbn [P2PoolAPI2.scanLoop].
    destruct (Z.ltb_spec (Z.of_nat (length all)) limit) as [Hshort|]; [|by cbn].
    cbn [negb].
    destruct (getBatch a (batchSize a)) as [[|first others]|msg]; [done| |].
    + set (filtered := filterBatch height owner address from (first :: others)).
      set (all' := pushNew key all filtered).
      destruct (Z.ltb_spec (Z.of_nat (length all')) limit) as [Hshort'|Hfull'].
      * repeat case_match; try done; try apply IH.
      * assert ((Z.of_nat (length all') >=? limit) = true) as ->
          by (rewrite Z.geb_leb; apply Z.leb_le; lia).
        rewrite andb_false_r. cbn [orb].
        destruct (Z.eqb_spec (Z.of_nat (length filtered)) 0) as [Hnone|].
        -- assert (filtered = []) as Hnil by (destruct filtered; [done|cbn in Hnone; lia]).
           subst all'. rewrite Hnil in Hfull'. cbn in Hfull'. lia.
        -- by cbn.
    + destruct (a >=? maxAttempts); [done|apply IH].
Qed.

(** Every way out of the loop over the attempts [used + 1 .. 5]. *)
Lemma scanLoop2_exits (k : nat) (all : list T) (from : option Z) (used : Z) :
  0 <= used -> used + Z.of_nat k = 5 ->
  let e := loop (seqZ (used + 1) (Z.of_nat k)) all from used in
  match reason e with
  | LimitReached => limit <= Z.of_nat (length (found e))
  | MaxAttempts => attemptsUsed e = 5 /\ Z.of_nat (length (found e)) < limit
  | EmptyPage =>
      1 <= attemptsUsed e <= 5 /\ getBatch (attemptsUsed e) (batchSize (attemptsUsed e)) = Ok []
  | NoHeightProgress =>
      1 <= attemptsUsed e <= 5 /\
      exists first others from',
        getBatch (attemptsUsed e) (batchSize (attemptsUsed e)) = Ok (first :: others) /\
        cursor e = Some from' /\
        from' <= foldl Z.min (height first) (height <$> others)
  end.
Proof.
  revert all from used. induction k as [|k IH]; intros all from used Hused Hk.
  - cbn [seqZ]. rewrite seqZ_nil by done. cbn [P2PoolAPI2.scanLoop].
    destruct (Z.ltb_spec (Z.of_nat (length all)) limit); cbn; lia.
  - rewrite seqZ_cons by lia. cbn [P2PoolAPI2.scanLoop].
    replace (Z.pred (Z.of_nat (S k))) with (Z.of_nat k) by lia.
    replace (Z.succ (used + 1)) with ((used + 1) + 1) by lia.
    set (a := used + 1). assert (1 <= a <= 5) as Ha by lia.
    specialize (IH) with (used := a).
    destruct (Z.ltb_spec (Z.of_nat (length all)) limit) as [Hshort|]; [|cbn; lia].
    cbn [negb].
    assert (forall all', Z.of_nat (length all') < limit ->
              let e := if a >=? maxAttempts
                       then {| found := all'; cursor := from; attemptsUsed := a;
                               reason := MaxAttempts |}
                       else loop (seqZ (a + 1) (Z.of_nat k)) all' from a in
              match reason e with
              | LimitReached => limit <= Z.of_nat (length (found e))
              | MaxAttempts => attemptsUsed e = 5 /\ Z.of_nat (length (found e)) < limit
              | EmptyPage =>
                  1 <= attemptsUsed e <= 5 /\
                  getBatch (attemptsUsed e) (batchSize (attemptsUsed e)) = Ok []
              | NoHeightProgress =>
                  1 <= attemptsUsed e <= 5 /\
                  exists first others from',
                    getBatch (attemptsUsed e) (batchSize (attemptsUsed e))
                      = Ok (first :: others) /\
                    cursor e = Some from' /\
                    from' <= foldl Z.min (height first) (height <$> others)
              end) as Hcaught.
    { intros all' Hshort'. unfold maxAttempts.
      destruct (Z.geb_spec a 5); cbn zeta; [cbn; lia|]. apply IH; lia. }
    destruct (getBatch a (batchSize a)) as [[|first others]|msg] eqn:Hbatch;
      [cbn; by auto| |by apply Hcaught].
    set (filtered := filterBatch height owner address from (first :: others)).
    set (all' := pushNew key all filtered).
    set (minHeight := foldl Z.min (height first) (map height others)).
    destruct (_ && tooManyArguments _) eqn:Hthrows.
    { apply Hcaught. apply andb_true_iff in Hthrows as [Htakes _].
      apply orb_true_iff in Htakes as [[_ ?%Z.ltb_lt]%andb_true_iff|Hnone%Z.eqb_eq]; [done|].
      assert (filtered = []) as Hnil by (destruct filtered; [done|cbn in Hnone; lia]).
      subst all'. by rewrite Hnil. }
    assert (forall from',
      let e := if Z.of_nat (length all') >=? limit
               then {| found := all'; cursor := from'; attemptsUsed := a;
                       reason := LimitReached |}
               else loop (seqZ (a + 1) (Z.of_nat k)) all' from' a in
      match reason e with
      | LimitReached => limit <= Z.of_nat (length (found e))
      | MaxAttempts => attemptsUsed e = 5 /\ Z.of_nat (length (found e)) < limit
      | EmptyPage =>
          1 <= attemptsUsed e <= 5 /\
          getBatch (attemptsUsed e) (batchSize (attemptsUsed e)) = Ok []
      | NoHeightProgress =>
          1 <= attemptsUsed e <= 5 /\
          exists first others from',
            getBatch (attemptsUsed e) (batchSize (attemptsUsed e)) = Ok (first :: others) /\
            cursor e = Some from' /\
            from' <= foldl Z.min (height first) (height <$> others)
      end) as Hrest.
    { intros from'. destruct (Z.geb_spec (Z.of_nat (length all')) limit); cbn zeta.
      - cbn. lia.
      - destruct (Z.eq_dec a 5) as [Hlast|Hmore].
        + assert (k = 0%nat) as -> by lia. apply (IH all' from'); lia.
        + apply (IH all' from'); lia. }
    assert (forall moved,
      moved = Some from \/ moved = Some (Some minHeight) \/
      (moved = None /\ progresses from minHeight = false) ->
      let e := match moved with
               | None => {| found := all'; cursor := from; attemptsUsed := a;
                            reason := NoHeightProgress |}
               | Some from' =>
                   if Z.of_nat (length all') >=? limit
                   then {| found := all'; cursor := from'; attemptsUsed := a;
                           reason := LimitReached |}
                   else loop (seqZ (a + 1) (Z.of_nat k)) all' from' a
               end in
      match reason e with
      | LimitReached => limit <= Z.of_nat (length (found e))
      | MaxAttempts => attemptsUsed e = 5 /\ Z.of_nat (length (found e)) < limit
      | EmptyPage =>
          1 <= attemptsUsed e <= 5 /\
          getBatch (attemptsUsed e) (batchSize (attemptsUsed e)) = Ok []
      | NoHeightProgress =>
          1 <= attemptsUsed e <= 5 /\
          exists first others from',
            getBatch (attemptsUsed e) (batchSize (attemptsUsed e)) = Ok (first :: others) /\
            cursor e = Some from' /\
            from' <= foldl Z.min (height first) (height <$> others)
      end) as Hmoved.
    { intros moved [->|[->|[-> Hp]]]; [apply Hrest..|].
      cbn. split; [lia|]. destruct (progresses_false _ _ Hp) as (f & -> & Hf).
      exists first, others, f. by rewrite Hbatch. }
    apply Hmoved.
    destruct (progresses from minHeight) eqn:Hp; repeat case_match; auto.
Qed.

(** An iteration whose page holds nothing of the miner moves the cursor
    to the minimum height of the page and goes on. *)
Lemma scanLoop2_zero_match (a : Z) (later : list Z) (all : list T) (from used : Z)
    (first : T) (others : list T) :
  Z.of_nat (length all) < limit ->
  getBatch a (batchSize a) = Ok (first :: others) ->
  Forall (fun x => owner x <> address) (first :: others) ->
  tooManyArguments (length (first :: others)) = false ->
  foldl Z.min (height first) (height <$> others) < from ->
  loop (a :: later) all (Some from) used
    = loop later all (Some (foldl Z.min (height first) (height <$> others))) a.
Proof.
  intros Hshort Hbatch Hnone Hfits Hmin. cbn [P2PoolAPI2.scanLoop].
  pose proof Hshort as Hlt. apply Z.ltb_lt in Hlt. rewrite Hlt, Hbatch. cbn [negb].
  rewrite (filterBatch_none height owner address _ _ Hnone), Hfits.
  cbn [pushNew foldl length]. rewrite andb_false_r.
  change (Z.of_nat 0) with 0. cbn [Z.ltb Z.eqb Z.compare andb orb progresses].
  apply Z.ltb_lt in Hmin. change (map height others) with (height <$> others).
  rewrite Hmin.
  assert ((Z.of_nat (length all) >=? limit) = false) as ->
    by (rewrite Z.geb_leb; apply Z.leb_gt; lia).
  done.
Qed.

(** An iteration whose bulk call throws uses up the attempt and nothing
    else. *)
Lemma scanLoop2_failure (a : Z) (later : list Z) (all : list T) (from : option Z)
    (used : Z) (message : string) :
  Z.of_nat (length all) < limit ->
  getBatch a (batchSize a) = Err message ->
  loop (a :: later) all from used
    = if a >=? maxAttempts
      then {| found := all; cursor := from; attemptsUsed := a; reason := MaxAttempts |}
      else loop later all from a.
Proof.
  intros Hshort Hfail. cbn [P2PoolAPI2.scanLoop].
  apply Z.ltb_lt in Hshort. by rewrite Hshort, Hfail.
Qed.

Lemma scanLoop2_all_fail (k : nat) (all : list T) (from : option Z) (used : Z) :
  Z.of_nat (length all) < limit -> used + Z.of_nat k = 5 ->
  (forall m, used < m <= 5 -> exists message, getBatch m (batchSize m) = Err message) ->
  loop (seqZ (used + 1) (Z.of_nat k)) all from used
    = {| found := all; cursor := from; attemptsUsed := 5; reason := MaxAttempts |}.
Proof.
  intros Hshort. revert used. induction k as [|k IH]; intros used Hk Hfail.
  - rewrite seqZ_nil by done. cbn [P2PoolAPI2.scanLoop].
    apply Z.ltb_lt in Hshort. rewrite Hshort. cbn [negb]. f_equal. lia.
  - rewrite seqZ_cons by lia.
    replace (Z.pred (Z.of_nat (S k))) with (Z.of_nat k) by lia.
    replace (Z.succ (used + 1)) with ((used + 1) + 1) by lia.
    destruct (Hfail (used + 1)) as [message Hm]; [lia|].
    rewrite (scanLoop2_failure _ _ _ _ _ message) by done. unfold maxAttempts.
    destruct (Z.geb_spec (used + 1) 5); [f_equal; lia|].
    apply IH; [lia|]. intros m Hm'. apply Hfail. lia.
Qed.

Lemma seqZ_small (n : Z) : n <= 5 -> Forall (fun a => a < maxAttempts) (seqZ 1 (n - 1)).
Proof.
  intros Hn. apply Forall_forall. intros a Ha%elem_of_seqZ. unfold maxAttempts. lia.
Qed.

Lemma seqZ_snoc_attempt (n : Z) : 1 <= n -> seqZ 1 n = seqZ 1 (n - 1) ++ [n].
Proof.
  intros Hn. replace n with ((n - 1) + 1) at 1 by lia. rewrite seqZ_app by lia.
  f_equal. rewrite seqZ_cons, seqZ_nil by lia. f_equal. lia.
Qed.

(** The loop cut after [n] attempts, when the loop cut after [n - 1]
    attempts has not been left and attempt [n] finds a page with nothing
    of the miner. *)
Lemma scan2_zero_match (n from c : Z) (first : T) (others : list T) :
  1 <= n <= 5 ->
  let before := loop (seqZ 1 (n - 1)) [] (Some from) 0 in
  reason before = MaxAttempts -> cursor before = Some c ->
  getBatch n (batchSize n) = Ok (first :: others) ->
  Forall (fun x => owner x <> address) (first :: others) ->
  tooManyArguments (length (first :: others)) = false ->
  foldl Z.min (height first) (height <$> others) < c ->
  loop (seqZ 1 n) [] (Some from) 0
    = {| found := found before;
         cursor := Some (foldl Z.min (height first) (height <$> others));
         attemptsUsed := n; reason := MaxAttempts |}.
Proof.
  intros Hn before Hreason Hcursor Hbatch Hnone Hfits Hmin.
  pose proof (scanLoop2_short _ _ _ _ Hreason) as Hshort. fold before in Hshort.
  rewrite (seqZ_snoc_attempt n) by lia.
  rewrite scanLoop2_app; [|by apply seqZ_small; lia|done]. fold before.
  rewrite Hcursor, (scanLoop2_zero_match n [] _ c _ first others) by done.
  cbn [P2PoolAPI2.scanLoop]. apply Z.ltb_lt in Hshort. by rewrite Hshort.
Qed.

(** The loop after attempt [n] has thrown, when the loop cut after
    [n - 1] attempts has not been left. *)
Lemma scan2_failure (n : Z) (from : option Z) (message : string) :
  1 <= n <= 5 ->
  let before := loop (seqZ 1 (n - 1)) [] from 0 in
  let scanned := P2PoolAPI2.scan height key owner batchSize getBatch tooManyArguments
                   address limit from in
  reason before = MaxAttempts ->
  getBatch n (batchSize n) = Err message ->
  loop (seqZ 1 n) [] from 0
    = {| found := found before; cursor := cursor before; attemptsUsed := n;
         reason := MaxAttempts |} /\
  scanned = loop (seqZ (n + 1) (5 - n)) (found before) (cursor before) n /\
  found before `prefix_of` found scanned /\
  ((forall m, n <= m <= 5 -> exists message', getBatch m (batchSize m) = Err message') ->
   scanned = {| found := found before; cursor := cursor before; attemptsUsed := 5;
                reason := MaxAttempts |}).
Proof.
  intros Hn before scanned Hreason Hfail.
  pose proof (scanLoop2_short _ _ _ _ Hreason) as Hshort. fold before in Hshort.
  assert (scanned = loop (seqZ (n + 1) (5 - n)) (found before) (cursor before) n) as Hgoes.
  { subst scanned. unfold P2PoolAPI2.scan. rewrite (seqZ_split_at n Hn).
    rewrite scanLoop2_app; [|by apply seqZ_small; lia|done]. fold before.
    rewrite (scanLoop2_failure _ _ _ _ _ message) by done. unfold maxAttempts.
    destruct (Z.geb_spec n 5) as [Hlast|]; [|done].
    assert (n = 5) as -> by lia. cbn [Z.sub Z.add Z.opp Z.pos_sub]. rewrite seqZ_nil by done.
    cbn [P2PoolAPI2.scanLoop]. apply Z.ltb_lt in Hshort. by rewrite Hshort. }
  split_and!.
  - rewrite (seqZ_snoc_attempt n) by lia.
    rewrite scanLoop2_app; [|by apply seqZ_small; lia|done]. fold before.
    rewrite (scanLoop2_failure _ _ _ _ _ message) by done.
    destruct (n >=? maxAttempts); [done|].
    cbn [P2PoolAPI2.scanLoop]. apply Z.ltb_lt in Hshort. by rewrite Hshort.
  - exact Hgoes.
  - rewrite Hgoes. apply scanLoop2_prefix.
  - intros Hall. rewrite Hgoes.
    replace (seqZ (n + 1) (5 - n)) with (seqZ (n + 1) (Z.of_nat (Z.to_nat (5 - n))))
      by (f_equal; lia).
    apply scanLoop2_all_fail; [done|lia|]. intros m Hm. apply Hall. lia.
Qed.

Lemma finish2_sorted (e : ScanEnd) :
  exists sorted,
    sorted ≡ₚ found e /\ StronglySorted (descending height) sorted /\
    P2PoolAPI2.finish height limit e = slice0 sorted limit.
Proof.
  exists (sortDesc height (found e)).
  split_and!; [apply sortDesc_Permutation|apply sortDesc_sorted|done].
Qed.
End SecondCopyLemmas.

Section SecondCopyProperties.
Import P2PoolAPI.

Local Abbreviation sharesLoop2 getShares tooManyArguments :=
  (P2PoolAPI2.scanLoop side_height template_id miner_address sharesBatchSize
     (fun attempts size => getShares attempts size None) tooManyArguments).
Local Abbreviation blocksLoop2 getFoundBlocks tooManyArguments :=
  (P2PoolAPI2.scanLoop (fun b => MainBlock.height (main_block b))
     (fun b => MainBlock.id (main_block b)) block_miner_address blocksBatchSize
     (fun attempts size => getFoundBlocks attempts size None) tooManyArguments).

(** X28. In the second copy of the client (src/lib/storage.ts), the
    scanning loop of [getMinerShares] always ends, and only because the
    accumulated count has reached the limit, five attempts have been made,
    the page fetched last is empty, or the minimum height of the page
    fetched last is not below the cursor. And a page without a share of
    the miner does not end it: when the loop has not been left after
    [n - 1] attempts and attempt [n] fetches a non-empty page with no
    share of the miner (of a length the engine can spread) whose minimum
    height is below the cursor, then after [n] attempts the loop has not
    been left either, the cursor is that minimum and the accumulated
    shares are as before. *)
Theorem second_copy_scan_exits
    (getShares : Z -> Z -> option string -> Result (list SideBlock))
    (tooManyArguments : nat -> bool) (address : string) (limit : Z) :
  (forall fromHeight : option Z,
     let e := P2PoolAPI2.scanShares getShares tooManyArguments address limit fromHeight in
     match reason e with
     | LimitReached => limit <= Z.of_nat (length (found e))
     | MaxAttempts => attemptsUsed e = 5 /\ Z.of_nat (length (found e)) < limit
     | EmptyPage =>
         1 <= attemptsUsed e <= 5 /\
         getShares (attemptsUsed e) (sharesBatchSize (attemptsUsed e)) None = Ok []
     | NoHeightProgress =>
         1 <= attemptsUsed e <= 5 /\
         exists first others from,
           getShares (attemptsUsed e) (sharesBatchSize (attemptsUsed e)) None
             = Ok (first :: others) /\
           cursor e = Some from /\
           from <= foldl Z.min (side_height first) (side_height <$> others)
     end) /\
  (forall (n from c : Z) (first : SideBlock) (others : list SideBlock),
     1 <= n <= 5 ->
     let before := sharesLoop2 getShares tooManyArguments address limit
                     (seqZ 1 (n - 1)) [] (Some from) 0 in
     reason before = MaxAttempts -> cursor before = Some c ->
     getShares n (sharesBatchSize n) None = Ok (first :: others) ->
     Forall (fun share => miner_address share <> address) (first :: others) ->
     tooManyArguments (length (first :: others)) = false ->
     foldl Z.min (side_height first) (side_height <$> others) < c ->
     sharesLoop2 getShares tooManyArguments address limit (seqZ 1 n) [] (Some from) 0
       = {| found := found before;
            cursor := Some (foldl Z.min (side_height first) (side_height <$> others));
            attemptsUsed := n; reason := MaxAttempts |}).
Proof.
  split.
  - intros fromHeight.
    apply (scanLoop2_exits side_height template_id miner_address sharesBatchSize
             (fun attempts size => getShares attempts size None) tooManyArguments
             address limit 5 [] fromHeight 0); lia.
  - intros n from c first others Hn before Hreason Hcursor Hbatch Hnone Hfits Hmin.
    by apply (scan2_zero_match side_height template_id miner_address sharesBatchSize
                (fun attempts size => getShares attempts size None) tooManyArguments
                address limit n from c first others).
Qed.

Lemma second_copy_scan_exits_witness :
  sharesLoop2 foreignPages upTo65535 "A" 1 (seqZ 1 1) [] (Some 100) 0
    = {| found := []; cursor := Some 90; attemptsUsed := 1; reason := MaxAttempts |}.
Proof.
  refine (proj2 (second_copy_scan_exits foreignPages upTo65535 "A" 1)
            1 100 100 (shareOf "t9" 90 "B") [] _ _ _ _ _ _ _).
  - lia.
  - reflexivity.
  - reflexivity.
  - reflexivity.
  - repeat constructor. cbn. discriminate.
  - reflexivity.
  - cbn. lia.
Defined.

(** X29. In the second copy of the client (src/lib/storage.ts), a bulk
    call that throws is swallowed by [getMinerShares] with a cursor and by
    [getMinerFoundBlocks]. When the loop has not been left after [n - 1]
    attempts and the bulk call of attempt [n] throws, the attempt is
    used up and nothing else changes; the loop goes on with the attempts
    that remain, from the same cursor and with the records accumulated so
    far, which are in what the loop ends with; the operation returns what
    the loop ends with, sorted by height, highest first, and truncated to
    the limit. When every later bulk call throws as well, that is exactly
    what was accumulated before attempt [n]. *)
Theorem second_copy_swallows_failures
    (getShares : Z -> Z -> option string -> Result (list SideBlock))
    (getFoundBlocks : Z -> Z -> option string -> Result (list FoundBlock))
    (tooManyArguments : nat -> bool) (address : string) (limit : Z) :
  (forall (from n : Z) (message : string),
     from <> 0 -> 1 <= n <= 5 ->
     let before := sharesLoop2 getShares tooManyArguments address limit
                     (seqZ 1 (n - 1)) [] (Some from) 0 in
     let scanned := P2PoolAPI2.scanShares getShares tooManyArguments address limit
                      (Some from) in
     reason before = MaxAttempts ->
     getShares n (sharesBatchSize n) None = Err message ->
     sharesLoop2 getShares tooManyArguments address limit (seqZ 1 n) [] (Some from) 0
       = {| found := found before; cursor := cursor before; attemptsUsed := n;
            reason := MaxAttempts |} /\
     scanned = sharesLoop2 getShares tooManyArguments address limit
                 (seqZ (n + 1) (5 - n)) (found before) (cursor before) n /\
     found before `prefix_of` found scanned /\
     (exists sorted,
        sorted ≡ₚ found scanned /\ StronglySorted (descending side_height) sorted /\
        P2PoolAPI2.getMinerShares getShares tooManyArguments address limit (Some from)
          = slice0 sorted limit) /\
     ((forall m, n <= m <= 5 ->
         exists message', getShares m (sharesBatchSize m) None = Err message') ->
      P2PoolAPI2.getMinerShares getShares tooManyArguments address limit (Some from)
        = slice0 (sortDesc side_height (found before)) limit)) /\
  (forall (fromHeight : option Z) (n : Z) (message : string),
     1 <= n <= 5 ->
     let before := blocksLoop2 getFoundBlocks tooManyArguments address limit
                     (seqZ 1 (n - 1)) [] fromHeight 0 in
     let scanned := P2PoolAPI2.scanBlocks getFoundBlocks tooManyArguments address limit
                      fromHeight in
     reason before = MaxAttempts ->
     getFoundBlocks n (blocksBatchSize n) None = Err message ->
     blocksLoop2 getFoundBlocks tooManyArguments address limit (seqZ 1 n) [] fromHeight 0
       = {| found := found before; cursor := cursor before; attemptsUsed := n;
            reason := MaxAttempts |} /\
     scanned = blocksLoop2 getFoundBlocks tooManyArguments address limit
                 (seqZ (n + 1) (5 - n)) (found before) (cursor before) n /\
     found before `prefix_of` found scanned /\
     (exists sorted,
        sorted ≡ₚ found scanned /\
        StronglySorted (descending (fun b => MainBlock.height (main_block b))) sorted /\
        P2PoolAPI2.getMinerFoundBlocks getFoundBlocks tooManyArguments address limit fromHeight
          = slice0 sorted limit) /\
     ((forall m, n <= m <= 5 ->
         exists message', getFoundBlocks m (blocksBatchSize m) None = Err message') ->
      P2PoolAPI2.getMinerFoundBlocks getFoundBlocks tooManyArguments address limit fromHeight
        = slice0 (sortDesc (fun b => MainBlock.height (main_block b)) (found before)) limit)).
Proof.
  split.
  - intros from n message Hfrom Hn before scanned Hreason Hfail.
    destruct (scan2_failure side_height template_id miner_address sharesBatchSize
                (fun attempts size => getShares attempts size None) tooManyArguments
                address limit n (Some from) message Hn Hreason Hfail)
      as (Hcut & Hgoes & Hkept & Hall).
    assert (P2PoolAPI2.getMinerShares getShares tooManyArguments address limit (Some from)
            = P2PoolAPI2.finish side_height limit scanned) as Hop.
    { unfold P2PoolAPI2.getMinerShares. by destruct from. }
    split_and!; [exact Hcut|exact Hgoes|exact Hkept| |].
    + rewrite Hop. apply finish2_sorted.
    + intros Hfails. rewrite Hop. unfold P2PoolAPI2.finish. subst scanned.
      unfold P2PoolAPI2.scanShares. by rewrite (Hall Hfails).
  - intros fromHeight n message Hn before scanned Hreason Hfail.
    destruct (scan2_failure (fun b => MainBlock.height (main_block b))
                (fun b => MainBlock.id (main_block b)) block_miner_address blocksBatchSize
                (fun attempts size => getFoundBlocks attempts size None) tooManyArguments
                address limit n fromHeight message Hn Hreason Hfail)
      as (Hcut & Hgoes & Hkept & Hall).
    split_and!; [exact Hcut|exact Hgoes|exact Hkept| |].
    + apply finish2_sorted.
    + intros Hfails. unfold P2PoolAPI2.getMinerFoundBlocks, P2PoolAPI2.finish,
        P2PoolAPI2.scanBlocks. by rewrite (Hall Hfails).
Qed.

Lemma second_copy_swallows_failures_witness :
  P2PoolAPI2.getMinerShares secondPageFails upTo65535 "A" 2 (Some 100)
    = [shareOf "t1" 90 "A"] /\
  P2PoolAPI2.getMinerFoundBlocks secondBlockPageFails upTo65535 "A" 2 (Some 3100)
    = [blockOf "b1" 3000 "A"].
Proof.
  destruct (second_copy_swallows_failures secondPageFails secondBlockPageFails upTo65535
              "A" 2) as [Hshares Hblocks].
  split.
  - destruct (Hshares 100 2 "Failed to fetch shares: HTTP 500: Internal Server Error")
      as (_ & _ & _ & _ & Hall); [lia|lia|reflexivity|reflexivity|].
    rewrite Hall; [reflexivity|].
    intros m Hm. eexists. unfold secondPageFails.
    destruct (Z.eqb_spec m 1); [lia|reflexivity].
  - destruct (Hblocks (Some 3100) 2
                "Failed to fetch found blocks: HTTP 500: Internal Server Error")
      as (_ & _ & _ & _ & Hall); [lia|reflexivity|reflexivity|].
    rewrite Hall; [reflexivity|].
    intros m Hm. eexists. unfold secondBlockPageFails.
    destruct (Z.eqb_spec m 1); [lia|reflexivity].
Defined.
End SecondCopyProperties.
